(** * Selfish-mining simulator (quant.py): a shallow embedding and its properties

    The development follows the Python module [quant.py].

    - Python [int] is [Z]; Python [float] is IEEE 754 binary64, taken from the
      reference specification [SpecFloat] of the standard library
      ([prec = 53], [emax = 1024]), so every arithmetic operation below rounds
      exactly as CPython does.
    - The exceptions that the arithmetic of the module can raise
      ([ZeroDivisionError], [OverflowError], [ValueError]) are results of an
      error monad [exc].
    - The module-level generator of [random] is a state that every simulation
      receives and returns; [random.seed] and [random.random] are the two
      operations of the class [RandomGen].  The generator [lcg] and the
      generator [replay], which hands out the draws of a list, serve to run
      the simulations on concrete inputs.

    The first part embeds the result record, the two samplers and the
    scenario functions built on them.  The second part proves their
    properties; it starts with the facts on rounding to nearest, ties to
    even, that the properties of the revenue and of the relative rewards
    rest on, and ends with further properties of the simulation loop and of
    the scenario functions (the sweep, the hardware, timing, multi-chain and
    extracted-value scenarios, the comparison of the defences).  The report
    functions, which only format the values computed here, are not
    embedded. *)

From Stdlib Require Import ZArith List Bool Lia.
From Stdlib Require Import Floats.SpecFloat.
Import ListNotations.

Local Open Scope Z_scope.

(** ** Exceptions *)

Inductive py_exn : Type :=
| ZeroDivisionError
| OverflowError
| ValueError.

Inductive exc (A : Type) : Type :=
| Ok (a : A)
| Raise (e : py_exn).

Arguments Ok {A} a.
Arguments Raise {A} e.

Definition bind {A B : Type} (c : exc A) (k : A -> exc B) : exc B :=
  match c with
  | Ok a => k a
  | Raise e => Raise e
  end.

Notation "x <- c ;; k" := (bind c (fun x => k))
  (at level 61, c at next level, right associativity).

(** ** Python floats *)

Module PyFloat.

Definition prec : Z := 53.
Definition emax : Z := 1024.

Definition float : Type := spec_float.

Definition add : float -> float -> float := SFadd prec emax.
Definition sub : float -> float -> float := SFsub prec emax.
Definition mul : float -> float -> float := SFmul prec emax.
Definition div : float -> float -> float := SFdiv prec emax.

Definition ltb : float -> float -> bool := SFltb.
Definition leb : float -> float -> bool := SFleb.
Definition eqb : float -> float -> bool := SFeqb.
Definition gtb (x y : float) : bool := SFltb y x.

(** The nearest binary64 value of an integer (ties to even); an integer
    beyond the finite range becomes an infinity here and an [OverflowError]
    in [of_int]. *)
Definition Z2SF (z : Z) : float := binary_normalize prec emax z 0 false.

Definition is_zero (x : float) : bool :=
  match x with
  | S754_zero _ => true
  | _ => false
  end.

Definition is_finite (x : float) : bool :=
  match x with
  | S754_zero _ | S754_finite _ _ _ => true
  | _ => false
  end.

(** [float(n)] for a Python int, as the mixed operations [int * float] and
    [float / int] perform it. *)
Definition of_int (z : Z) : exc float :=
  match Z2SF z with
  | S754_infinity _ => Raise OverflowError
  | f => Ok f
  end.

(** [x / y] on floats. *)
Definition truediv (x y : float) : exc float :=
  if is_zero y then Raise ZeroDivisionError else Ok (div x y).

(** The float that stands for an integer with its exact value: the
    mantissa is not normalised, and [SFdiv] rounds the exact quotient of two
    such values once. *)
Definition exact (z : Z) : float :=
  match z with
  | Z0 => S754_zero false
  | Zpos p => S754_finite false p 0
  | Zneg p => S754_finite true p 0
  end.

(** [a / b] on ints: the correctly rounded quotient. *)
Definition int_truediv (a b : Z) : exc float :=
  if b =? 0 then Raise ZeroDivisionError
  else match div (exact a) (exact b) with
       | S754_infinity _ => Raise OverflowError
       | f => Ok f
       end.

(** [int(x)]: truncation towards zero. *)
Definition to_int (x : float) : exc Z :=
  match x with
  | S754_nan => Raise ValueError
  | S754_infinity _ => Raise OverflowError
  | S754_zero _ => Ok 0
  | S754_finite s m e =>
      let a := match e with
               | Zneg p => Z.shiftr (Zpos m) (Zpos p)
               | _ => Z.shiftl (Zpos m) e
               end in
      Ok (if s then - a else a)
  end.

(** A decimal literal [n/d] of the source: the nearest float of the
    quotient, which is what the Python parser produces. *)
Definition dec (n d : Z) : float := div (Z2SF n) (Z2SF d).

Definition zero : float := S754_zero false.
Definition one : float := Eval vm_compute in Z2SF 1.
Definition f0_01 : float := Eval vm_compute in dec 1 100.
Definition f0_02 : float := Eval vm_compute in dec 2 100.
Definition f0_5 : float := Eval vm_compute in dec 5 10.
Definition f0_125 : float := Eval vm_compute in dec 1 8.
Definition f0_875 : float := Eval vm_compute in dec 7 8.
Definition f0_9 : float := Eval vm_compute in dec 9 10.
Definition f6_25 : float := Eval vm_compute in dec 625 100.
Definition f100 : float := Eval vm_compute in Z2SF 100.

End PyFloat.

Import PyFloat.

(** ** The result record *)

Module SimulationResult.

Record t : Type := mk {
  alpha : float;
  gamma : float;
  rounds : Z;
  attacker_blocks : Z;
  honest_blocks : Z;
  block_reward : float;
  avg_tx_fee_per_block : float
}.

(** The constructor call of the simulations, with the two defaulted
    fields. *)
Definition make (alpha gamma : float) (rounds attacker_blocks honest_blocks : Z) : t :=
  mk alpha gamma rounds attacker_blocks honest_blocks f6_25 f0_5.

(** [result.alpha = a] *)
Definition set_alpha (a : float) (self : t) : t :=
  mk a (gamma self) (rounds self) (attacker_blocks self) (honest_blocks self)
     (block_reward self) (avg_tx_fee_per_block self).

Definition total_blocks (self : t) : Z :=
  attacker_blocks self + honest_blocks self.

Definition attacker_relative_reward (self : t) : exc float :=
  if total_blocks self =? 0 then Ok zero
  else int_truediv (attacker_blocks self) (total_blocks self).

Definition honest_relative_reward (self : t) : exc float :=
  if total_blocks self =? 0 then Ok zero
  else int_truediv (honest_blocks self) (total_blocks self).

Definition attacker_revenue_btc (self : t) : exc float :=
  n <- of_int (attacker_blocks self) ;;
  Ok (mul n (add (block_reward self) (avg_tx_fee_per_block self))).

Definition honest_revenue_btc (self : t) : exc float :=
  n <- of_int (honest_blocks self) ;;
  Ok (mul n (add (block_reward self) (avg_tx_fee_per_block self))).

Definition efficiency_advantage (self : t) : exc float :=
  if leb (alpha self) zero then Ok zero
  else r <- attacker_relative_reward self ;; truediv r (alpha self).

(** The values of [to_dict], in the order in which the dict display
    evaluates them. *)
Record dict : Type := mk_dict {
  d_alpha : float;
  d_gamma : float;
  d_rounds : Z;
  d_attacker_blocks : Z;
  d_honest_blocks : Z;
  d_attacker_relative_reward : float;
  d_honest_relative_reward : float;
  d_attacker_revenue_btc : float;
  d_honest_revenue_btc : float;
  d_efficiency_advantage : float
}.

Definition to_dict (self : t) : exc dict :=
  arr <- attacker_relative_reward self ;;
  hrr <- honest_relative_reward self ;;
  arev <- attacker_revenue_btc self ;;
  hrev <- honest_revenue_btc self ;;
  eff <- efficiency_advantage self ;;
  Ok (mk_dict (alpha self) (gamma self) (rounds self) (attacker_blocks self)
              (honest_blocks self) arr hrr arev hrev eff).

End SimulationResult.

(** ** The generator of the [random] module *)

Class RandomGen : Type := {
  rng_state : Type;
  (** [random.seed(n)] for an int: the state depends on [n] alone. *)
  rng_seed : Z -> rng_state;
  (** [random.random()]: the draw and the state after it. *)
  rng_random : rng_state -> float * rng_state
}.

Section Simulations.

Context {G : RandomGen}.

(** [if seed is not None: random.seed(seed)] *)
Definition reseed (seed : option Z) (g : rng_state) : rng_state :=
  match seed with
  | Some s => rng_seed s
  | None => g
  end.

(** *** simulate_all_honest *)

(** The body of [for _ in range(rounds)], with [n] iterations left. *)
Fixpoint honest_loop (alpha : float) (n : nat)
         (attacker_blocks honest_blocks : Z) (g : rng_state)
  : Z * Z * rng_state :=
  match n with
  | O => (attacker_blocks, honest_blocks, g)
  | S n' =>
      let (r, g1) := rng_random g in
      if ltb r alpha
      then honest_loop alpha n' (attacker_blocks + 1) honest_blocks g1
      else honest_loop alpha n' attacker_blocks (honest_blocks + 1) g1
  end.

Definition simulate_all_honest (alpha : float) (rounds : Z) (seed : option Z)
           (g : rng_state) : SimulationResult.t * rng_state :=
  let g0 := reseed seed g in
  let '(attacker_blocks, honest_blocks, g1) :=
    honest_loop alpha (Z.to_nat rounds) 0 0 g0 in
  (SimulationResult.make alpha zero rounds attacker_blocks honest_blocks, g1).

(** *** simulate_selfish_mining *)

(** The local variables of the loop and the generator. *)
Record sm_state : Type := mk_sm {
  sm_attacker : Z;
  sm_honest : Z;
  sm_lead : Z;
  sm_rng : rng_state
}.

(** One iteration of the loop body. *)
Definition selfish_round (alpha gamma : float) (st : sm_state) : sm_state :=
  let '(mk_sm attacker_blocks honest_blocks lead g) := st in
  let (r, g1) := rng_random g in
  if ltb r alpha then
    if lead =? 0 then mk_sm attacker_blocks honest_blocks 1 g1
    else mk_sm attacker_blocks honest_blocks (lead + 1) g1
  else
    if lead =? 0 then mk_sm attacker_blocks (honest_blocks + 1) lead g1
    else if lead =? 1 then
      let (r_fork, g2) := rng_random g1 in
      if ltb r_fork gamma
      then mk_sm (attacker_blocks + 2) honest_blocks 0 g2
      else mk_sm attacker_blocks (honest_blocks + 2) 0 g2
    else mk_sm (attacker_blocks + 1) honest_blocks (lead - 1) g1.

Fixpoint selfish_loop (alpha gamma : float) (n : nat) (st : sm_state) : sm_state :=
  match n with
  | O => st
  | S n' => selfish_loop alpha gamma n' (selfish_round alpha gamma st)
  end.

(** [if lead > 0: attacker_blocks += lead] *)
Definition settle (st : sm_state) : Z :=
  if 0 <? sm_lead st then sm_attacker st + sm_lead st else sm_attacker st.

Definition simulate_selfish_mining (alpha gamma : float) (rounds : Z)
           (seed : option Z) (g : rng_state) : SimulationResult.t * rng_state :=
  let g0 := reseed seed g in
  let st := selfish_loop alpha gamma (Z.to_nat rounds) (mk_sm 0 0 0 g0) in
  (SimulationResult.make alpha gamma rounds (settle st) (sm_honest st), sm_rng st).

(** *** simulate_selfish_with_defense *)

Definition simulate_selfish_with_defense
           (alpha gamma_attack gamma_defense : float) (rounds : Z)
           (defense_enabled : bool) (seed : option Z) (g : rng_state)
  : (SimulationResult.t * SimulationResult.t) * rng_state :=
  let (result_no_defense, g1) :=
    simulate_selfish_mining alpha gamma_attack rounds seed g in
  if negb defense_enabled then ((result_no_defense, result_no_defense), g1)
  else
    let seed_defense := match seed with
                        | None => None
                        | Some s => Some (s + 1)
                        end in
    let (result_with_defense, g2) :=
      simulate_selfish_mining alpha gamma_defense rounds seed_defense g1 in
    ((result_no_defense, result_with_defense), g2).

(** *** pool_cooperative_mining *)

(** [max(0, x)]: the builtin keeps its first argument unless the second
    is strictly greater; the int [0] it then returns compares with a draw
    as the float zero does. *)
Definition max0 (x : float) : float :=
  if ltb zero x then x else zero.

Definition effective_alpha (alpha : float) (num_pools : Z) : exc float :=
  k <- of_int (num_pools - 1) ;;
  let coordination_overhead := mul f0_02 k in
  Ok (max0 (sub alpha coordination_overhead)).

Definition pool_cooperative_mining (alpha : float) (num_pools : Z)
           (gamma : float) (rounds : Z) (seed : option Z) (g : rng_state)
  : exc (SimulationResult.t * rng_state) :=
  eff <- effective_alpha alpha num_pools ;;
  let (result, g1) := simulate_selfish_mining eff gamma rounds seed g in
  Ok (SimulationResult.set_alpha alpha result, g1).

(** *** mev_transaction_ordering *)

(** The numeric entries of the returned dict; the summary string formats
    values that are already computed.  A key whose name a field of the result
    record has already taken carries the prefix [mev_]. *)
Record mev_report : Type := mk_mev {
  mev_alpha : float;
  mev_extract_probability : float;
  avg_mev_per_block_btc : float;
  mev_attacker_blocks : Z;
  mev_extractable_blocks : Z;
  base_revenue_btc : float;
  mev_revenue_btc : float;
  total_enhanced_revenue_btc : float;
  mev_honest_revenue_btc : float;
  revenue_advantage_vs_honest : float;
  revenue_per_hashrate : float
}.

(** [(enhanced_revenue - honest_revenue) / (honest_revenue if honest_revenue > 0 else 1)] *)
Definition revenue_advantage (enhanced_revenue honest_revenue : float) : exc float :=
  truediv (sub enhanced_revenue honest_revenue)
          (if gtb honest_revenue zero then honest_revenue else one).

Definition mev_transaction_ordering
           (alpha mev_extract_probability avg_mev_per_block gamma : float)
           (rounds : Z) (seed : option Z) (g : rng_state)
  : exc (mev_report * rng_state) :=
  let (attacker_result, g1) := simulate_selfish_mining alpha gamma rounds seed g in
  ab <- of_int (SimulationResult.attacker_blocks attacker_result) ;;
  mev_blocks <- to_int (mul ab mev_extract_probability) ;;
  mb <- of_int mev_blocks ;;
  let total_mev_revenue := mul mb avg_mev_per_block in
  arev <- SimulationResult.attacker_revenue_btc attacker_result ;;
  let enhanced_revenue := add arev total_mev_revenue in
  honest_revenue <- SimulationResult.honest_revenue_btc attacker_result ;;
  base <- SimulationResult.attacker_revenue_btc attacker_result ;;
  adv <- revenue_advantage enhanced_revenue honest_revenue ;;
  per_hash <- truediv enhanced_revenue (if gtb alpha zero then alpha else f0_01) ;;
  Ok (mk_mev alpha mev_extract_probability avg_mev_per_block
             (SimulationResult.attacker_blocks attacker_result) mev_blocks
             base total_mev_revenue enhanced_revenue honest_revenue adv per_hash,
      g1).

(** *** cross_chain_attack *)

Record revenue_comparison : Type := mk_cmp {
  single_chain_btc : float;
  multi_chain_total_before_cost_btc : float;
  multi_chain_total_after_cost_btc : float;
  coordination_overhead_percent : float;
  multiplier_effect : float
}.

Record cross_chain_report : Type := mk_cross {
  cc_alpha : float;
  cc_num_chains : Z;
  cc_gamma : float;
  coordination_cost_per_chain : float;
  results_per_chain : list SimulationResult.dict;
  cc_revenue_comparison : revenue_comparison
}.

(** [chain_seed = None if seed is None else seed + i * 1000] *)
Definition chain_seed (seed : option Z) (i : Z) : option Z :=
  match seed with
  | None => None
  | Some s => Some (s + i * 1000)
  end.

(** The body of [for i in range(num_chains)], with [n] iterations left and
    the index at [i]. *)
Fixpoint chain_loop (alpha gamma : float) (rounds_per_chain : Z) (seed : option Z)
         (n : nat) (i : Z) (results : list SimulationResult.dict)
         (total_revenue : float) (g : rng_state)
  : exc (list SimulationResult.dict * float * rng_state) :=
  match n with
  | O => Ok (results, total_revenue, g)
  | S n' =>
      let (result, g1) :=
        simulate_selfish_mining alpha gamma rounds_per_chain (chain_seed seed i) g in
      d <- SimulationResult.to_dict result ;;
      rev <- SimulationResult.attacker_revenue_btc result ;;
      chain_loop alpha gamma rounds_per_chain seed n' (i + 1)
                 (results ++ [d]) (add total_revenue rev) g1
  end.

Definition cross_chain_attack (alpha : float) (num_chains : Z) (gamma : float)
           (rounds_per_chain : Z) (seed : option Z) (g : rng_state)
  : exc (cross_chain_report * rng_state) :=
  let coordination_cost_per_chain := f0_01 in
  k <- of_int (num_chains - 1) ;;
  let coordination_overhead := mul coordination_cost_per_chain k in
  looped <- chain_loop alpha gamma rounds_per_chain seed
                       (Z.to_nat num_chains) 0 [] zero g ;;
  let '(results, total_revenue, g1) := looped in
  let effective_revenue := mul total_revenue (sub one coordination_overhead) in
  let (single_chain_result, g2) :=
    simulate_selfish_mining alpha gamma rounds_per_chain seed g1 in
  single <- SimulationResult.attacker_revenue_btc single_chain_result ;;
  single' <- SimulationResult.attacker_revenue_btc single_chain_result ;;
  multiplier <- (if gtb single' zero
                 then (s <- SimulationResult.attacker_revenue_btc single_chain_result ;;
                       truediv effective_revenue s)
                 else Ok one) ;;
  Ok (mk_cross alpha num_chains gamma coordination_cost_per_chain results
               (mk_cmp single total_revenue effective_revenue
                       (mul coordination_overhead f100) multiplier),
      g2).

End Simulations.

(** ** A concrete generator

    A linear congruential generator, used to run the simulations on concrete
    inputs.  Its draws are the exact quotients [x / 2^31] with [0 <= x < 2^31]. *)

Definition lcg_next (x : Z) : Z := (1103515245 * x + 12345) mod 2 ^ 31.

Definition lcg : RandomGen := {|
  rng_state := Z;
  rng_seed := fun s => Z.abs s mod 2 ^ 31;
  rng_random := fun x => let y := lcg_next x in (dec y (2 ^ 31), y)
|}.

(** A generator that replays the draws of a list, and then draws zero. *)
Definition replay : RandomGen := {|
  rng_state := list float;
  rng_seed := fun _ => [];
  rng_random := fun g => match g with
                         | [] => (zero, [])
                         | r :: g' => (r, g')
                         end
|}.

(** ** The state machine as the specification words it *)

Section Specification.

Context {G : RandomGen}.

(** The next [n] draws of the generator, in order. *)
Fixpoint draws (n : nat) (g : rng_state) : list float * rng_state :=
  match n with
  | O => ([], g)
  | S n' =>
      let (r, g1) := rng_random g in
      let (rs, g2) := draws n' g1 in
      (r :: rs, g2)
  end.

(** The number of draws of a list that a predicate accepts. *)
Definition tally (p : float -> bool) (rs : list float) : Z :=
  Z.of_nat (length (filter p rs)).

(** One round of the private-lead state machine. *)
Inductive sm_step (alpha gamma : float) : sm_state -> sm_state -> Prop :=
| sm_attacker_finds a h lead g r g1 :
    rng_random g = (r, g1) -> ltb r alpha = true ->
    sm_step alpha gamma (mk_sm a h lead g) (mk_sm a h (lead + 1) g1)
| sm_honest_no_lead a h g r g1 :
    rng_random g = (r, g1) -> ltb r alpha = false ->
    sm_step alpha gamma (mk_sm a h 0 g) (mk_sm a (h + 1) 0 g1)
| sm_fork_attacker_wins a h g r g1 r_fork g2 :
    rng_random g = (r, g1) -> ltb r alpha = false ->
    rng_random g1 = (r_fork, g2) -> ltb r_fork gamma = true ->
    sm_step alpha gamma (mk_sm a h 1 g) (mk_sm (a + 2) h 0 g2)
| sm_fork_honest_wins a h g r g1 r_fork g2 :
    rng_random g = (r, g1) -> ltb r alpha = false ->
    rng_random g1 = (r_fork, g2) -> ltb r_fork gamma = false ->
    sm_step alpha gamma (mk_sm a h 1 g) (mk_sm a (h + 2) 0 g2)
| sm_publish_oldest a h lead g r g1 :
    rng_random g = (r, g1) -> ltb r alpha = false -> 2 <= lead ->
    sm_step alpha gamma (mk_sm a h lead g) (mk_sm (a + 1) h (lead - 1) g1).

(** [n] rounds in a row. *)
Inductive sm_steps (alpha gamma : float) : nat -> sm_state -> sm_state -> Prop :=
| sm_steps_done st : sm_steps alpha gamma O st st
| sm_steps_more n st st1 st2 :
    sm_step alpha gamma st st1 -> sm_steps alpha gamma n st1 st2 ->
    sm_steps alpha gamma (S n) st st2.

(** The settlement after the last round: a remaining positive lead is
    credited in full to the attacker. *)
Definition flushed (st : sm_state) : Z :=
  if 0 <? sm_lead st then sm_attacker st + sm_lead st else sm_attacker st.

(** The invariant of the loop of [simulate_selfish_mining] after [k]
    rounds. *)
Definition sm_inv (k : Z) (st : sm_state) : Prop :=
  0 <= sm_attacker st /\ 0 <= sm_honest st /\ 0 <= sm_lead st /\
  sm_attacker st + sm_honest st + sm_lead st <= k.

End Specification.

(** ** Round to nearest, ties to even, on quotients of integers *)

(** The record of [shr] that stands for the quotient [N / D]: the integer
    part, the first bit after it and whether anything follows that bit. *)
Definition rec_of (N D : Z) : shr_record :=
  Build_shr_record (N / D) (D <=? 2 * (N mod D))
                   (negb (N mod D =? 0) && negb (2 * (N mod D) =? D)).

(** The position of [N / D] between its integer part and the next
    integer. *)
Definition loc_of (N D : Z) : location :=
  if N mod D =? 0 then loc_Exact else loc_Inexact (2 * (N mod D) ?= D).

(** [N / D] rounded to the nearest integer, ties to even. *)
Definition rne (N D : Z) : Z := round_nearest_even (N / D) (loc_of N D).

(** The shift that brings a mantissa of [d] digits at exponent [e] to the
    exponent of the format. *)
Definition to_fexp (m e : Z) : Z := Z.max 0 (fexp prec emax (Zdigits2 m + e) - e).

(** The last step of [binary_round_aux]: the zero, finite or infinite float
    of a rounded mantissa. *)
Definition finish (s : bool) (m e : Z) : spec_float :=
  match m with
  | Z0 => S754_zero s
  | Zpos p => if e <=? emax - prec then S754_finite s p e else S754_infinity s
  | Zneg _ => S754_nan
  end.

(** A float that is zero or positive, of the format, with the value
    [m1 * 2^e1]. *)
Definition represents (f : float) (e1 m1 : Z) : Prop :=
  match f with
  | S754_zero s => s = false /\ m1 = 0
  | S754_finite s m2 e2 =>
      s = false /\ bounded prec emax m2 e2 = true /\
      e1 <= e2 /\ Zpos m2 * 2 ^ (e2 - e1) = m1
  | _ => False
  end.

(** A float that is the zero or a positive finite float of the format. *)
Definition nonneg_finite (x : float) : Prop :=
  x = zero \/ exists m e, x = S754_finite false m e /\ bounded prec emax m e = true.

(** ** The order of the floats *)

(** The rank of a float that is not a NaN: comparing two floats is comparing
    their ranks, component by component. *)
Definition rank (x : float) : Z * Z * Z :=
  match x with
  | S754_nan => (0, 0, 0)
  | S754_zero _ => (0, 0, 0)
  | S754_infinity s => (if s then -2 else 2, 0, 0)
  | S754_finite s m e => if s then (-1, - e, - Zpos m) else (1, e, Zpos m)
  end.

Definition lex_compare (a b : Z * Z * Z) : comparison :=
  let '(a1, a2, a3) := a in
  let '(b1, b2, b3) := b in
  match a1 ?= b1 with
  | Eq => match a2 ?= b2 with
          | Eq => a3 ?= b3
          | c => c
          end
  | c => c
  end.

Definition is_nan (x : float) : bool :=
  match x with
  | S754_nan => true
  | _ => false
  end.


(** ** The other scenario functions *)

(** More literals of the source. *)
Definition f0_2 : float := Eval vm_compute in dec 2 10.
Definition f0_3 : float := Eval vm_compute in dec 3 10.
Definition f0_4 : float := Eval vm_compute in dec 4 10.
Definition f0_99 : float := Eval vm_compute in dec 99 100.
Definition f1_05 : float := Eval vm_compute in dec 105 100.
Definition f1_1 : float := Eval vm_compute in dec 11 10.
Definition f1000 : float := Eval vm_compute in Z2SF 1000.
Definition f10000 : float := Eval vm_compute in Z2SF 10000.

(** The three threat levels that the reports name. *)
Inductive threat : Type :=
| HighThreat
| MediumThreat
| LowThreat.

(** [min(c, x)] and [max(c, x)] for a constant [c] first: the builtins keep
    their first argument unless the second is strictly smaller (greater). *)
Definition py_min (c x : float) : float := if ltb x c then x else c.
Definition py_max (c x : float) : float := if ltb c x then x else c.

(** An error of the module that is not an arithmetic one. *)
Inductive py_error : Type :=
| Arithmetic (e : py_exn)
| IndexError.

Inductive outcome (A : Type) : Type :=
| Returned (a : A)
| Raised (e : py_error).

Arguments Returned {A} a.
Arguments Raised {A} e.

Definition lift {A : Type} (c : exc A) : outcome A :=
  match c with
  | Ok a => Returned a
  | Raise e => Raised (Arithmetic e)
  end.

Definition bind_outcome {A B : Type} (c : outcome A) (k : A -> outcome B) : outcome B :=
  match c with
  | Returned a => k a
  | Raised e => Raised e
  end.

Section Scenarios.

Context {G : RandomGen}.

(** *** asic_miner_advantage *)

Record asic_report : Type := mk_asic {
  asic_alpha_computation : float;
  asic_multiplier : float;
  alpha_effective : float;
  asic_honest_baseline : SimulationResult.dict;
  asic_attacker_result : SimulationResult.dict;
  asic_power_efficiency : float;
  efficiency_advantage_with_asic : float;
  asic_threat_level : threat
}.

(** ["高威胁" if e > 1.1 else "中等威胁" if e > 1.0 else "低威胁"] *)
Definition asic_threat (e : float) : threat :=
  if gtb e f1_1 then HighThreat
  else if gtb e one then MediumThreat
  else LowThreat.

Definition asic_miner_advantage
           (alpha_computation asic_multiplier gamma : float) (rounds : Z)
           (seed : option Z) (g : rng_state)
  : exc (asic_report * rng_state) :=
  let total_attacker_power := mul alpha_computation asic_multiplier in
  ratio <- truediv total_attacker_power
                   (sub (add total_attacker_power one) alpha_computation) ;;
  let alpha_effective := py_min f0_99 ratio in
  let (honest_baseline, g1) := simulate_all_honest alpha_effective rounds seed g in
  let (attacker_result, g2) :=
    simulate_selfish_mining alpha_effective gamma rounds seed g1 in
  asic_power_cost_ratio <- truediv one asic_multiplier ;;
  hd <- SimulationResult.to_dict honest_baseline ;;
  ad <- SimulationResult.to_dict attacker_result ;;
  eff <- SimulationResult.efficiency_advantage attacker_result ;;
  eff_level <- SimulationResult.efficiency_advantage attacker_result ;;
  Ok (mk_asic alpha_computation asic_multiplier alpha_effective hd ad
              asic_power_cost_ratio eff (asic_threat eff_level),
      g2).

(** *** timing_optimization_attack *)

Record timing_report : Type := mk_timing {
  timing_alpha : float;
  network_delay_ms : float;
  block_time_sec : float;
  delay_ratio : float;
  gamma_effective : float;
  attacker_efficiency : float;
  honest_baseline_ratio : float;
  time_advantage_factor : float;
  timing_revenue_advantage_btc : float;
  timing_threat_level : threat
}.

(** [0.5 + 0.5 * (1 - min(1.0, delay_ratio))], then
    [max(0.5, min(1.0, gamma_effective))] *)
Definition effective_gamma (delay_ratio : float) : float :=
  py_max f0_5 (py_min one (add f0_5 (mul f0_5 (sub one (py_min one delay_ratio))))).

(** [honest_result.attacker_relative_reward / alpha if alpha > 0 else 1.0] *)
Definition baseline_ratio (alpha : float) (honest_result : SimulationResult.t)
  : exc float :=
  if gtb alpha zero
  then r <- SimulationResult.attacker_relative_reward honest_result ;; truediv r alpha
  else Ok one.

(** The parameter [gamma] is not used by the function. *)
Definition timing_optimization_attack
           (alpha network_delay_ms block_time_sec gamma : float) (rounds : Z)
           (seed : option Z) (g : rng_state)
  : exc (timing_report * rng_state) :=
  delay_ratio <- truediv network_delay_ms (mul block_time_sec f1000) ;;
  let gamma_effective := effective_gamma delay_ratio in
  let (attacker_result, g1) :=
    simulate_selfish_mining alpha gamma_effective rounds seed g in
  let (honest_result, g2) := simulate_all_honest alpha rounds seed g1 in
  eff <- SimulationResult.efficiency_advantage attacker_result ;;
  ratio <- baseline_ratio alpha honest_result ;;
  time_advantage_factor <- truediv eff ratio ;;
  eff' <- SimulationResult.efficiency_advantage attacker_result ;;
  ratio' <- baseline_ratio alpha honest_result ;;
  arev <- SimulationResult.attacker_revenue_btc attacker_result ;;
  hrev <- SimulationResult.attacker_revenue_btc honest_result ;;
  Ok (mk_timing alpha network_delay_ms block_time_sec delay_ratio gamma_effective
                eff' ratio' time_advantage_factor (sub arev hrev)
                (if gtb time_advantage_factor f1_05 then HighThreat else LowThreat),
      g2).

(** *** parameter_sweep_analysis *)

Record sweep_entry : Type := mk_entry {
  sweep_alpha : float;
  sweep_no_defense : SimulationResult.dict;
  sweep_with_defense : SimulationResult.dict;
  revenue_advantage_btc : float;
  efficiency_gain : float
}.

Record sweep_report : Type := mk_sweep {
  sweep_results : list sweep_entry;
  optimal_alpha : float;
  max_efficiency_gain : float
}.

(** The list comprehension of [alpha_values], with [n] values left and the
    index at [i]. *)
Fixpoint alpha_values_from (alpha_min alpha_max : float) (alpha_steps : Z)
         (n : nat) (i : Z) : exc (list float) :=
  match n with
  | O => Ok []
  | S n' =>
      fi <- of_int i ;;
      k <- of_int (alpha_steps - 1) ;;
      q <- truediv (mul (sub alpha_max alpha_min) fi) k ;;
      rest <- alpha_values_from alpha_min alpha_max alpha_steps n' (i + 1) ;;
      Ok (add alpha_min q :: rest)
  end.

(** The body of [for alpha in alpha_values].  [max_advantage] starts as
    the int [0], which compares with a float as the float zero does and is
    held here as the float zero. *)
Fixpoint sweep_loop (gamma_attack gamma_defense : float) (rounds : Z)
         (alphas : list float) (results : list sweep_entry)
         (max_advantage optimal_alpha : float) (g : rng_state)
  : exc (list sweep_entry * float * float * rng_state) :=
  match alphas with
  | [] => Ok (results, max_advantage, optimal_alpha, g)
  | alpha :: rest =>
      seed <- to_int (mul alpha f1000) ;;
      let '((no_defense, with_defense), g1) :=
        simulate_selfish_with_defense alpha gamma_attack gamma_defense rounds
                                      true (Some seed) g in
      arev <- SimulationResult.attacker_revenue_btc no_defense ;;
      tb <- of_int (SimulationResult.total_blocks no_defense) ;;
      let revenue_advantage := sub arev (mul alpha (mul tb (add f6_25 f0_5))) in
      efficiency_gain <- SimulationResult.efficiency_advantage no_defense ;;
      nd <- SimulationResult.to_dict no_defense ;;
      wd <- SimulationResult.to_dict with_defense ;;
      let entry := mk_entry alpha nd wd revenue_advantage efficiency_gain in
      if gtb efficiency_gain max_advantage
      then sweep_loop gamma_attack gamma_defense rounds rest (results ++ [entry])
                      efficiency_gain alpha g1
      else sweep_loop gamma_attack gamma_defense rounds rest (results ++ [entry])
                      max_advantage optimal_alpha g1
  end.

Definition parameter_sweep_analysis
           (alpha_min alpha_max : float) (alpha_steps : Z)
           (gamma_attack gamma_defense : float) (rounds : Z) (g : rng_state)
  : outcome (sweep_report * rng_state) :=
  bind_outcome
    (lift (alpha_values_from alpha_min alpha_max alpha_steps (Z.to_nat alpha_steps) 0))
    (fun alpha_values =>
       match alpha_values with
       | [] => Raised IndexError
       | first :: _ =>
           bind_outcome
             (lift (sweep_loop gamma_attack gamma_defense rounds alpha_values []
                               zero first g))
             (fun looped =>
                let '(results, max_advantage, optimal_alpha, g1) := looped in
                Returned (mk_sweep results optimal_alpha max_advantage, g1))
       end).

(** *** defense_mechanism_comparison *)

(** The five named strategies, in the order of the list. *)
Inductive strategy_name : Type :=
| RandomForkChoice
| LongestChainRule
| StrongerRelayNetwork
| DynamicDifficulty
| CrossChainValidation.

Definition defense_strategies : list (strategy_name * float) :=
  [(RandomForkChoice, f0_5); (LongestChainRule, f0_5);
   (StrongerRelayNetwork, f0_4); (DynamicDifficulty, f0_3);
   (CrossChainValidation, f0_2)].

Record strategy_result : Type := mk_strategy {
  strategy : strategy_name;
  strategy_gamma : float;
  strategy_dict : SimulationResult.dict;
  improvement_percent : float
}.

Record defense_comparison : Type := mk_comparison {
  baseline_no_defense : SimulationResult.dict;
  strategies : list strategy_result
}.

(** The body of [for strategy in defense_strategies]. *)
Fixpoint strategies_loop (alpha : float) (rounds : Z)
         (todo : list (strategy_name * float)) (done : list strategy_result)
         (g : rng_state) : exc (list strategy_result * rng_state) :=
  match todo with
  | [] => Ok (done, g)
  | (name, gamma) :: rest =>
      seed <- to_int (mul gamma f10000) ;;
      let '((_, with_defense), g1) :=
        simulate_selfish_with_defense alpha f0_9 gamma rounds true (Some seed) g in
      d <- SimulationResult.to_dict with_defense ;;
      eff <- SimulationResult.efficiency_advantage with_defense ;;
      strategies_loop alpha rounds rest
                      (done ++ [mk_strategy name gamma d (mul (sub one eff) f100)]) g1
  end.

Definition defense_mechanism_comparison (alpha : float) (rounds : Z) (g : rng_state)
  : exc (defense_comparison * rng_state) :=
  let '((no_defense, _), g1) :=
    simulate_selfish_with_defense alpha f0_9 f0_5 rounds true (Some 2025) g in
  baseline <- SimulationResult.to_dict no_defense ;;
  looped <- strategies_loop alpha rounds defense_strategies [] g1 ;;
  let (done, g2) := looped in
  Ok (mk_comparison baseline done, g2).

End Scenarios.

(** ** What the scenario functions are compared with *)

(** [y] is [x] or above it: what the running maximum of a loop is to an
    earlier one. *)
Definition above (x y : float) : Prop := y = x \/ ltb x y = true.

Section ScenarioSpecification.

Context {G : RandomGen}.

(** A round that starts in [st] is a fork when the lead is one and the
    draw of the round is not below [alpha]: the honest pool finds a block
    and the two branches compete. *)
Definition is_fork (alpha : float) (st : sm_state) : bool :=
  (sm_lead st =? 1) && negb (ltb (fst (rng_random (sm_rng st))) alpha).

(** The number of forks among the next [n] rounds from [st], the rounds
    taking the state on as the loop does. *)
Fixpoint forks (alpha gamma : float) (n : nat) (st : sm_state) : nat :=
  match n with
  | O => O
  | S n' =>
      ((if is_fork alpha st then 1 else 0)
       + forks alpha gamma n' (selfish_round alpha gamma st))%nat
  end.

(** Two states of runs that differ in [gamma] alone. *)
Definition gamma_related (st1 st2 : sm_state) : Prop :=
  sm_lead st1 = sm_lead st2 /\ sm_rng st1 = sm_rng st2 /\
  sm_attacker st1 <= sm_attacker st2 /\
  sm_attacker st1 + sm_honest st1 = sm_attacker st2 + sm_honest st2.

(** An entry of the sweep: the dicts of the two runs at its share, seeded
    with [int(alpha * 1000)] and with the next integer. *)
Definition entry_of_runs (gamma_attack gamma_defense : float) (rounds : Z)
           (g0 : rng_state) (e : sweep_entry) : Prop :=
  exists s : Z,
    to_int (mul (sweep_alpha e) f1000) = Ok s /\
    SimulationResult.to_dict
      (fst (simulate_selfish_mining (sweep_alpha e) gamma_attack rounds (Some s) g0))
    = Ok (sweep_no_defense e) /\
    SimulationResult.to_dict
      (fst (simulate_selfish_mining (sweep_alpha e) gamma_defense rounds
                                    (Some (s + 1)) g0))
    = Ok (sweep_with_defense e) /\
    efficiency_gain e = SimulationResult.d_efficiency_advantage (sweep_no_defense e).

(** The entry of a strategy: the dict of the run at its [gamma], seeded
    with [int(gamma * 10000) + 1], and the improvement computed from it. *)
Definition strategy_of_run (alpha : float) (rounds : Z) (g0 : rng_state)
           (name : strategy_name) (gamma : float) (seed : Z) (r : strategy_result)
  : Prop :=
  strategy r = name /\ strategy_gamma r = gamma /\
  SimulationResult.to_dict
    (fst (simulate_selfish_mining alpha gamma rounds (Some (seed + 1)) g0))
  = Ok (strategy_dict r) /\
  improvement_percent r
  = mul (sub one (SimulationResult.d_efficiency_advantage (strategy_dict r))) f100.

End ScenarioSpecification.

(** * Properties *)

(** ** Runs on given draws *)

(** Two attacker blocks in a row, then an honest block: the attacker
    publishes one block of its lead of two and the settlement credits the
    other. *)
Example selfish_mining_publishes_oldest :
  fst (simulate_selfish_mining (G := replay) f0_5 f0_9 3 None
                               [f0_125; f0_125; f0_875])
  = SimulationResult.make f0_5 f0_9 3 2 0.
Proof. reflexivity. Qed.

(** A lead of one meets an honest block: the fork takes a second draw, and
    at [gamma = 0.9] the draw [0.875] gives both blocks to the attacker. *)
Example selfish_mining_fork_takes_second_draw :
  simulate_selfish_mining (G := replay) f0_5 f0_9 2 None
                          [f0_125; f0_875; f0_875; f0_125]
  = (SimulationResult.make f0_5 f0_9 2 2 0, [f0_125]).
Proof. reflexivity. Qed.

(** No draw is below a NaN [alpha]: every round is honest. *)
Example selfish_mining_nan_alpha :
  fst (simulate_selfish_mining (G := replay) S754_nan f0_9 2 None [f0_125; f0_125])
  = SimulationResult.make S754_nan f0_9 2 0 2.
Proof. reflexivity. Qed.

(** [range] of a negative number of rounds is empty. *)
Example selfish_mining_negative_rounds :
  fst (simulate_selfish_mining (G := replay) f0_5 f0_9 (-3) None [f0_125; f0_125])
  = SimulationResult.make f0_5 f0_9 (-3) 0 0.
Proof. reflexivity. Qed.

Example all_honest_three_draws :
  fst (simulate_all_honest (G := replay) f0_5 3 None [f0_125; f0_125; f0_875])
  = SimulationResult.make f0_5 zero 3 2 1.
Proof. reflexivity. Qed.

(** Twenty-six pools at a nominal share of one half: the effective share is
    zero and every round is honest, under the nominal [alpha]. *)
Example pool_cooperative_mining_no_share_left :
  pool_cooperative_mining (G := replay) f0_5 26 f0_9 2 None [f0_125; f0_125]
  = Ok (SimulationResult.make f0_5 f0_9 2 0 2, []).
Proof. reflexivity. Qed.

(** The largest integer that converts to a float, and the next one. *)
Example of_int_largest :
  of_int (2 ^ 1024 - 2 ^ 970 - 1) = Ok (S754_finite false 9007199254740991 971) /\
  of_int (2 ^ 1024 - 2 ^ 970) = Raise OverflowError.
Proof. split; vm_compute; reflexivity. Qed.

(** ** Digits and shifts *)

Lemma digits2_pos_size (p : positive) : digits2_pos p = Pos.size p.
Proof. induction p; simpl; congruence. Qed.

Lemma Zdigits2_log2 (m : Z) : 0 < m -> Zdigits2 m = Z.log2 m + 1.
Proof.
  destruct m as [|p|p]; try lia. intros _. simpl.
  rewrite digits2_pos_size.
  destruct p; simpl; try reflexivity; rewrite Pos.add_1_r; reflexivity.
Qed.

Lemma Zdigits2_bounds (m : Z) :
  0 < m -> 2 ^ (Zdigits2 m - 1) <= m < 2 ^ Zdigits2 m.
Proof.
  intro Hm. rewrite Zdigits2_log2 by assumption.
  replace (Z.log2 m + 1 - 1) with (Z.log2 m) by lia.
  pose proof (Z.log2_spec m Hm). rewrite <- Z.add_1_r in H. exact H.
Qed.

Lemma Zdigits2_unique (m d : Z) :
  2 ^ (d - 1) <= m < 2 ^ d -> 0 < m -> Zdigits2 m = d.
Proof.
  intros H Hm. rewrite Zdigits2_log2 by assumption.
  assert (0 <= d - 1).
  { destruct (Z.le_gt_cases 0 (d - 1)) as [|Hneg]; [assumption|].
    assert (d <= 0) by lia.
    destruct (Z.eq_dec d 0) as [->|]; [simpl in H; lia|].
    rewrite (Z.pow_neg_r 2 d) in H by lia. lia. }
  rewrite (Z.log2_unique m (d - 1)); try lia.
  replace (Z.succ (d - 1)) with d by lia. exact H.
Qed.

Lemma Zdigits2_nonneg (m : Z) : 0 <= Zdigits2 m.
Proof. destruct m; simpl; lia. Qed.

Lemma Zdigits2_pos (m : Z) : 0 < m -> 0 < Zdigits2 m.
Proof. destruct m; simpl; lia. Qed.

Lemma shr_1_nonneg (m : Z) (r s : bool) :
  0 <= m ->
  shr_1 (Build_shr_record m r s) = Build_shr_record (m / 2) (Z.odd m) (r || s).
Proof.
  intro Hm. destruct m as [|p|p]; try lia.
  - reflexivity.
  - destruct p as [p|p|]; simpl shr_1.
    + f_equal. rewrite Pos2Z.inj_xI.
      apply (Z.div_unique _ _ _ 1); lia.
    + f_equal. rewrite Pos2Z.inj_xO.
      apply (Z.div_unique _ _ _ 0); lia.
    + reflexivity.
Qed.

Lemma rec_of_shr_1 (N D : Z) :
  0 <= N -> 0 < D -> shr_1 (rec_of N D) = rec_of N (2 * D).
Proof.
  intros HN HD. unfold rec_of.
  rewrite shr_1_nonneg by (apply Z.div_pos; lia).
  pose proof (Z.div_mod N D ltac:(lia)) as Hdm.
  pose proof (Z.mod_pos_bound N D HD) as Hr.
  pose proof (Z.div_pos N D HN HD) as Hq.
  set (q := N / D) in *. set (r := N mod D) in *.
  pose proof (Z.div_mod q 2 ltac:(lia)) as Hq2.
  pose proof (Z.mod_pos_bound q 2 ltac:(lia)) as Hb.
  assert (Hdiv : N / (2 * D) = q / 2).
  { symmetry. apply (Z.div_unique _ _ _ (q mod 2 * D + r)); nia. }
  assert (Hmod : N mod (2 * D) = q mod 2 * D + r).
  { symmetry. apply (Z.mod_unique _ _ (q / 2)); nia. }
  rewrite Hdiv, Hmod.
  rewrite <- Z.bit0_odd, Z.bit0_eqb.
  assert (Hcases : q mod 2 = 0 \/ q mod 2 = 1) by lia.
  f_equal.
  - destruct Hcases as [-> | ->]; simpl (_ =? 1).
    + symmetry. apply Z.leb_gt. lia.
    + symmetry. apply Z.leb_le. lia.
  - destruct Hcases as [-> | ->].
    + replace (0 * D + r) with r by lia.
      destruct (Z.leb_spec D (2 * r)); destruct (Z.eqb_spec r 0);
        destruct (Z.eqb_spec (2 * r) D); destruct (Z.eqb_spec (2 * r) (2 * D));
        simpl; try reflexivity; lia.
    + replace (1 * D + r) with (D + r) by lia.
      destruct (Z.leb_spec D (2 * r)); destruct (Z.eqb_spec r 0);
        destruct (Z.eqb_spec (2 * r) D); destruct (Z.eqb_spec (D + r) 0);
        destruct (Z.eqb_spec (2 * (D + r)) (2 * D));
        simpl; try reflexivity; lia.
Qed.

Lemma rec_of_iter (p : positive) :
  forall N D, 0 <= N -> 0 < D ->
    iter_pos shr_1 p (rec_of N D) = rec_of N (D * 2 ^ Zpos p).
Proof.
  induction p as [p IH|p IH|]; intros N D HN HD; cbn [iter_pos].
  - rewrite rec_of_shr_1, IH, IH
      by (try assumption; try lia; pose proof (Z.pow_pos_nonneg 2 (Zpos p)); nia).
    f_equal. replace (Z.pos p~1) with (Z.pos p + Z.pos p + 1) by lia.
    rewrite !Z.pow_add_r, Z.pow_1_r by lia. ring.
  - rewrite IH, IH by (try assumption; try lia; pose proof (Z.pow_pos_nonneg 2 (Zpos p)); nia).
    f_equal. replace (Z.pos p~0) with (Z.pos p + Z.pos p) by lia.
    rewrite !Z.pow_add_r by lia. ring.
  - rewrite rec_of_shr_1 by assumption. f_equal. rewrite Z.pow_1_r. ring.
Qed.
Lemma rec_of_loc (N D : Z) :
  0 < D -> shr_record_of_loc (N / D) (loc_of N D) = rec_of N D.
Proof.
  intro HD. unfold loc_of, rec_of.
  pose proof (Z.mod_pos_bound N D HD) as Hr.
  destruct (Z.eqb_spec (N mod D) 0) as [E|E];
    [|destruct (Z.compare_spec (2 * (N mod D)) D) as [C|C|C]];
    destruct (Z.leb_spec D (2 * (N mod D)));
    destruct (Z.eqb_spec (2 * (N mod D)) D);
    try reflexivity; lia.
Qed.

Lemma loc_of_rec (N D : Z) :
  0 < D -> loc_of_shr_record (rec_of N D) = loc_of N D.
Proof.
  intro HD. unfold loc_of, rec_of.
  pose proof (Z.mod_pos_bound N D HD) as Hr.
  destruct (Z.eqb_spec (N mod D) 0) as [E|E];
    [|destruct (Z.compare_spec (2 * (N mod D)) D) as [C|C|C]];
    destruct (Z.leb_spec D (2 * (N mod D)));
    destruct (Z.eqb_spec (2 * (N mod D)) D);
    try reflexivity; lia.
Qed.

Lemma shr_rec_of (N D e n : Z) :
  0 <= N -> 0 < D ->
  shr (rec_of N D) e n = (rec_of N (D * 2 ^ Z.max 0 n), e + Z.max 0 n).
Proof.
  intros HN HD. unfold shr. destruct n as [|p|p].
  - simpl. now rewrite Z.mul_1_r, Z.add_0_r.
  - rewrite rec_of_iter by assumption. now rewrite Z.max_r by lia.
  - simpl. now rewrite Z.mul_1_r, Z.add_0_r.
Qed.



(** [binary_round_aux] on the quotient [N / D] at exponent [e]: one shift
    to the exponent of the format, one rounding, and one more shift when the
    rounding carried into a new digit. *)
Lemma binary_round_aux_quotient (s : bool) (N D e : Z) :
  0 <= N -> 0 < D ->
  let n := to_fexp (N / D) e in
  let m1 := rne N (D * 2 ^ n) in
  let n' := to_fexp m1 (e + n) in
  binary_round_aux prec emax s (N / D) e (loc_of N D) =
  finish s (m1 / 2 ^ n') (e + n + n').
Proof.
  intros HN HD n m1 n'.
  unfold binary_round_aux, shr_fexp.
  rewrite rec_of_loc, shr_rec_of by assumption.
  fold (to_fexp (N / D) e). fold n.
  assert (Hpow : 0 < D * 2 ^ n).
  { apply Z.mul_pos_pos; [assumption | apply Z.pow_pos_nonneg; unfold n, to_fexp; lia]. }
  rewrite loc_of_rec by assumption.
  cbn [shr_m rec_of]. fold (rne N (D * 2 ^ n)). fold m1.
  assert (Hm1 : 0 <= m1).
  { unfold m1, rne, round_nearest_even.
    pose proof (Z.div_pos N (D * 2 ^ n) HN Hpow).
    destruct (loc_of N (D * 2 ^ n)) as [|[| |]]; try lia.
    destruct (Z.even _); lia. }
  replace (shr_record_of_loc m1 loc_Exact) with (rec_of m1 1).
  2:{ unfold rec_of. rewrite Z.div_1_r, Z.mod_1_r. reflexivity. }
  rewrite shr_rec_of by lia.
  fold (to_fexp m1 (e + n)). fold n'.
  cbn [shr_m rec_of]. rewrite Z.mul_1_l.
  reflexivity.
Qed.


(** *** The rounded quotient *)

Lemma rne_cases (N D : Z) :
  0 < D ->
  let q := N / D in
  let r := N mod D in
  (2 * r < D /\ rne N D = q) \/
  (2 * r > D /\ rne N D = q + 1) \/
  (2 * r = D /\ rne N D = if Z.even q then q else q + 1).
Proof.
  intros HD q r. unfold rne, loc_of, round_nearest_even. fold q. fold r.
  pose proof (Z.mod_pos_bound N D HD) as Hr. fold r in Hr.
  destruct (Z.eqb_spec r 0) as [E|E]; [left; split; [lia | reflexivity]|].
  destruct (Z.compare_spec (2 * r) D) as [C|C|C].
  - right; right. split; [assumption | reflexivity].
  - left. split; [assumption | reflexivity].
  - right; left. split; [lia | reflexivity].
Qed.

Lemma rne_error (N D : Z) :
  0 < D -> 2 * Z.abs (rne N D * D - N) <= D.
Proof.
  intro HD.
  pose proof (Z.div_mod N D ltac:(lia)) as Hdm.
  pose proof (Z.mod_pos_bound N D HD) as Hr.
  destruct (rne_cases N D HD) as [[H ->]|[[H ->]|[H ->]]];
    [| |destruct (Z.even (N / D))]; nia.
Qed.

Lemma rne_nearest (N D K : Z) :
  0 < D -> 2 * Z.abs (K * D - N) < D -> rne N D = K.
Proof.
  intros HD HK.
  pose proof (rne_error N D HD) as He.
  assert (Z.abs (rne N D - K) * D < D) by nia.
  assert (Z.abs (rne N D - K) < 1) by nia.
  lia.
Qed.

Lemma rne_tie_even (N D K : Z) :
  0 < D -> 2 * Z.abs (K * D - N) = D -> Z.even K = true -> rne N D = K.
Proof.
  intros HD HK Heven.
  pose proof (Z.div_mod N D ltac:(lia)) as Hdm.
  pose proof (Z.mod_pos_bound N D HD) as Hr.
  assert (Hq : K = N / D \/ K = N / D + 1) by nia.
  destruct (rne_cases N D HD) as [[H E]|[[H E]|[H E]]]; try nia.
  rewrite E.
  destruct Hq as [-> | ->].
  - now rewrite Heven.
  - destruct (Z.even (N / D)) eqn:Hq; [|reflexivity].
    replace (N / D + 1) with (Z.succ (N / D)) in Heven by lia.
    rewrite Z.even_succ, <- Z.negb_even, Hq in Heven. discriminate.
Qed.

Lemma rne_exact (K D : Z) : 0 < D -> rne (K * D) D = K.
Proof. intro HD. apply rne_nearest; [assumption|]. replace (K * D - K * D) with 0; lia. Qed.

(** *** Digits of quotients and products *)

Lemma Zdigits2_le (m d : Z) : 0 <= d -> 0 <= m < 2 ^ d -> Zdigits2 m <= d.
Proof.
  intros Hd Hm. destruct (Z.eq_dec m 0) as [->|]; [simpl; lia|].
  pose proof (Zdigits2_bounds m ltac:(lia)) as [Hlo _].
  destruct (Z.le_gt_cases (Zdigits2 m) d); [assumption|].
  assert (2 ^ d <= 2 ^ (Zdigits2 m - 1)) by (apply Z.pow_le_mono_r; lia). lia.
Qed.

Lemma Zdigits2_ge (m d : Z) : 2 ^ (d - 1) <= m -> 0 < m -> d <= Zdigits2 m.
Proof.
  intros Hlo Hm.
  pose proof (Zdigits2_bounds m Hm) as [_ Hhi].
  destruct (Z.le_gt_cases d (Zdigits2 m)); [assumption|].
  assert (2 ^ Zdigits2 m <= 2 ^ (d - 1))
    by (apply Z.pow_le_mono_r; pose proof (Zdigits2_nonneg m); lia).
  lia.
Qed.

Lemma Zdigits2_pow2 (k : Z) : 0 <= k -> Zdigits2 (2 ^ k) = k + 1.
Proof.
  intro Hk. apply Zdigits2_unique.
  - replace (k + 1 - 1) with k by lia. split; [lia|].
    apply Z.pow_lt_mono_r; lia.
  - apply Z.pow_pos_nonneg; lia.
Qed.

Lemma Zdigits2_shift (m n : Z) :
  0 < m -> 0 <= n -> Zdigits2 (m * 2 ^ n) = Zdigits2 m + n.
Proof.
  intros Hm Hn. pose proof (Zdigits2_bounds m Hm) as [Hlo Hhi].
  pose proof (Zdigits2_pos m Hm).
  assert (0 < 2 ^ n) by (apply Z.pow_pos_nonneg; lia).
  apply Zdigits2_unique; [|nia].
  replace (Zdigits2 m + n - 1) with (Zdigits2 m - 1 + n) by lia.
  rewrite !Z.pow_add_r by lia. nia.
Qed.

Lemma Zdigits2_div_pow2 (m n : Z) :
  0 < m -> 0 <= n -> n < Zdigits2 m -> Zdigits2 (m / 2 ^ n) = Zdigits2 m - n.
Proof.
  intros Hm Hn Hlt. pose proof (Zdigits2_bounds m Hm) as [Hlo Hhi].
  assert (Hp : 0 < 2 ^ n) by (apply Z.pow_pos_nonneg; lia).
  assert (H1 : 2 ^ (Zdigits2 m - n - 1) <= m / 2 ^ n).
  { apply Z.div_le_lower_bound; [assumption|].
    rewrite <- Z.pow_add_r by lia.
    now replace (n + (Zdigits2 m - n - 1)) with (Zdigits2 m - 1) by lia. }
  assert (H2 : m / 2 ^ n < 2 ^ (Zdigits2 m - n)).
  { apply Z.div_lt_upper_bound; [assumption|].
    rewrite <- Z.pow_add_r by lia.
    now replace (n + (Zdigits2 m - n)) with (Zdigits2 m) by lia. }
  apply Zdigits2_unique; [split; assumption|].
  assert (0 < 2 ^ (Zdigits2 m - n - 1)) by (apply Z.pow_pos_nonneg; lia). lia.
Qed.

Lemma div_pow2_small (m n : Z) :
  0 <= m -> Zdigits2 m <= n -> m / 2 ^ n = 0.
Proof.
  intros Hm Hn. apply Z.div_small. split; [assumption|].
  destruct (Z.eq_dec m 0) as [->|]; [simpl in Hn; apply Z.pow_pos_nonneg; lia|].
  pose proof (Zdigits2_bounds m ltac:(lia)) as [_ Hhi].
  assert (2 ^ Zdigits2 m <= 2 ^ n)
    by (apply Z.pow_le_mono_r; pose proof (Zdigits2_nonneg m); lia).
  lia.
Qed.

Lemma fexp_eq (k : Z) : fexp prec emax k = Z.max (k - 53) (-1074).
Proof. reflexivity. Qed.

Lemma to_fexp_eq (m e : Z) :
  to_fexp m e = Z.max 0 (Z.max (Zdigits2 m + e - 53) (-1074) - e).
Proof. reflexivity. Qed.

Lemma loc_of_exact (M : Z) : loc_of M 1 = loc_Exact.
Proof. unfold loc_of. now rewrite Z.mod_1_r. Qed.

(** [binary_round_aux] on an exact mantissa. *)
Lemma binary_round_aux_exact (s : bool) (M e : Z) :
  0 <= M ->
  let n := to_fexp M e in
  let m1 := rne M (2 ^ n) in
  let n' := to_fexp m1 (e + n) in
  binary_round_aux prec emax s M e loc_Exact = finish s (m1 / 2 ^ n') (e + n + n').
Proof.
  intros HM n m1 n'.
  pose proof (binary_round_aux_quotient s M 1 e HM ltac:(lia)) as H.
  cbv zeta in H. rewrite Z.div_1_r, loc_of_exact, Z.mul_1_l in H. exact H.
Qed.

(** Every location is the location of a quotient by four. *)
Lemma loc_of_quarters (m : Z) (l : location) :
  0 <= m -> exists N, 0 <= N /\ N / 4 = m /\ loc_of N 4 = l.
Proof.
  intro Hm.
  assert (H : forall c, 0 <= c < 4 -> (4 * m + c) / 4 = m /\ (4 * m + c) mod 4 = c).
  { intros c Hc. split.
    - symmetry. apply (Z.div_unique _ _ _ c); lia.
    - symmetry. apply (Z.mod_unique _ _ m); lia. }
  destruct l as [|[| |]].
  - exists (4 * m + 0). destruct (H 0 ltac:(lia)) as [Hq Hr].
    unfold loc_of. rewrite Hr. repeat split; try assumption; lia.
  - exists (4 * m + 2). destruct (H 2 ltac:(lia)) as [Hq Hr].
    unfold loc_of. rewrite Hr. repeat split; try assumption; lia.
  - exists (4 * m + 1). destruct (H 1 ltac:(lia)) as [Hq Hr].
    unfold loc_of. rewrite Hr. repeat split; try assumption; lia.
  - exists (4 * m + 3). destruct (H 3 ltac:(lia)) as [Hq Hr].
    unfold loc_of. rewrite Hr. repeat split; try assumption; lia.
Qed.

Lemma rne_floor_or_next (N D : Z) :
  0 < D -> rne N D = N / D \/ rne N D = N / D + 1.
Proof.
  intro HD. destruct (rne_cases N D HD) as [[_ ->]|[[_ ->]|[_ ->]]]; auto.
  destruct (Z.even (N / D)); auto.
Qed.

Lemma div_div_pow2 (N D n : Z) :
  0 <= N -> 0 < D -> 0 <= n -> N / (D * 2 ^ n) = N / D / 2 ^ n.
Proof.
  intros HN HD Hn. pose proof (Z.pow_pos_nonneg 2 n ltac:(lia) Hn).
  rewrite Z.div_div; lia.
Qed.

(** The digits of the successor of a number of [d] digits. *)
Lemma Zdigits2_succ (f : Z) :
  0 < f ->
  (Zdigits2 (f + 1) = Zdigits2 f) \/
  (f + 1 = 2 ^ Zdigits2 f /\ Zdigits2 (f + 1) = Zdigits2 f + 1).
Proof.
  intro Hf. pose proof (Zdigits2_bounds f Hf) as [Hlo Hhi].
  pose proof (Zdigits2_pos f Hf) as Hd.
  destruct (Z.eq_dec (f + 1) (2 ^ Zdigits2 f)) as [E|E].
  - right. split; [assumption|]. rewrite E. apply Zdigits2_pow2. lia.
  - left. apply Zdigits2_unique; lia.
Qed.

(** The shape and the value of what [binary_round_aux] returns on a
    quotient whose integer part is at or below the exponent of the format:
    the mantissa [m2] at exponent [e2] of a finite result is the quotient
    rounded at the exponent [e1] of the format. *)
Lemma binary_round_aux_quotient_shape (s : bool) (N D e : Z) :
  0 <= N -> 0 < D -> e <= fexp prec emax (Zdigits2 (N / D) + e) ->
  let e1 := fexp prec emax (Zdigits2 (N / D) + e) in
  let m1 := rne N (D * 2 ^ (e1 - e)) in
  match binary_round_aux prec emax s (N / D) e (loc_of N D) with
  | S754_zero s' => s' = s /\ m1 = 0
  | S754_finite s' m2 e2 =>
      s' = s /\ bounded prec emax m2 e2 = true /\
      e1 <= e2 /\ Zpos m2 * 2 ^ (e2 - e1) = m1 /\
      Zpos (digits2_pos m2) + e2 <= Z.max (Zdigits2 (N / D) + e) (-1074) + 1
  | S754_infinity s' => s' = s /\ emax <= Zdigits2 (N / D) + e
  | S754_nan => False
  end.
Proof.
  intros HN HD Hal e1 m1.
  rewrite binary_round_aux_quotient by lia.
  set (m := N / D) in *.
  assert (Hm : 0 <= m) by (apply Z.div_pos; lia).
  set (d := Zdigits2 m) in *.
  assert (He1' : e1 = Z.max (d + e - 53) (-1074)) by reflexivity.
  rewrite fexp_eq in Hal.
  set (n := to_fexp m e).
  assert (Hn : n = e1 - e) by (unfold n; rewrite to_fexp_eq; fold d; lia).
  assert (Hn0 : 0 <= n) by lia.
  subst m1. rewrite <- Hn. set (m1 := rne N (D * 2 ^ n)).
  clearbody e1.
  assert (Hp : 0 < 2 ^ n) by (apply Z.pow_pos_nonneg; lia).
  assert (Hf : N / (D * 2 ^ n) = m / 2 ^ n) by (apply div_div_pow2; lia).
  pose proof (rne_floor_or_next N (D * 2 ^ n) ltac:(nia)) as Hm1.
  fold m1 in Hm1. rewrite Hf in Hm1.
  set (f := m / 2 ^ n) in *.
  assert (He1 : e + n = e1) by lia.
  rewrite He1.
  destruct (Z.le_gt_cases d n) as [Hdn | Hdn].
  - (* the mantissa is shifted out *)
    assert (Hf0 : f = 0) by (apply div_pow2_small; assumption).
    assert (He : e1 = -1074) by lia.
    rewrite He.
    destruct Hm1 as [E1 | E1]; rewrite E1, Hf0.
    + unfold to_fexp. simpl. split; reflexivity.
    + unfold to_fexp. simpl. repeat split; lia.
  - (* the mantissa keeps [d - n] digits *)
    assert (Hmpos : 0 < m).
    { destruct (Z.eq_dec m 0) as [E|E]; [|lia]. unfold d in Hdn. rewrite E in Hdn.
      simpl in Hdn. lia. }
    assert (Hdf : Zdigits2 f = d - n) by (apply Zdigits2_div_pow2; lia).
    assert (Hfpos : 0 < f).
    { destruct (Z.eq_dec f 0) as [E|E].
      - rewrite E in Hdf. simpl in Hdf. lia.
      - assert (0 <= f) by (apply Z.div_pos; lia). lia. }
    assert (Hfin : forall (m2 e2 : Z),
               0 < m2 -> Z.max (Zdigits2 m2 + e2 - 53) (-1074) = e2 ->
               Zdigits2 m2 + e2 <= d + e + 1 ->
               e1 <= e2 -> m2 * 2 ^ (e2 - e1) = m1 ->
               match finish s m2 e2 with
               | S754_zero s' => s' = s /\ m1 = 0
               | S754_finite s' m3 e3 =>
                   s' = s /\ bounded prec emax m3 e3 = true /\
                   e1 <= e3 /\ Zpos m3 * 2 ^ (e3 - e1) = m1 /\
                   Zpos (digits2_pos m3) + e3 <= Z.max (d + e) (-1074) + 1
               | S754_infinity s' => s' = s /\ emax <= d + e
               | S754_nan => False
               end).
    { intros m2 e2 Hm2 Hcan Hmag Hle Hval. destruct m2 as [|p|p]; try lia.
      unfold finish. destruct (Z.leb_spec e2 (emax - prec)) as [Hle'|Hgt].
      - split; [reflexivity|]. split; [|split; [assumption | split; [assumption|]]].
        + unfold bounded, canonical_mantissa. rewrite fexp_eq.
          simpl Zdigits2 in Hcan. rewrite Hcan, Z.eqb_refl. simpl.
          apply Z.leb_le. exact Hle'.
        + simpl Zdigits2 in Hmag. lia.
      - split; [reflexivity|]. unfold emax, prec in *. simpl Zdigits2 in *. lia. }
    destruct Hm1 as [E1 | E1]; rewrite E1 in *.
    + assert (Hz : to_fexp f e1 = 0) by (rewrite to_fexp_eq, Hdf; lia).
      rewrite Hz, Z.pow_0_r, Z.div_1_r, Z.add_0_r.
      apply Hfin; try (rewrite Hdf; lia); try lia.
      rewrite Z.sub_diag, Z.pow_0_r. lia.
    + destruct (Zdigits2_succ f Hfpos) as [Hs | [Hpow Hs]].
      * assert (Hz : to_fexp (f + 1) e1 = 0) by (rewrite to_fexp_eq, Hs, Hdf; lia).
        rewrite Hz, Z.pow_0_r, Z.div_1_r, Z.add_0_r.
        apply Hfin; try (rewrite Hs, Hdf; lia); try lia.
        rewrite Z.sub_diag, Z.pow_0_r. lia.
      * assert (Hz : to_fexp (f + 1) e1 = 0 \/ to_fexp (f + 1) e1 = 1)
          by (rewrite to_fexp_eq, Hs, Hdf; lia).
        destruct Hz as [Hz | Hz]; rewrite Hz.
        -- rewrite Z.pow_0_r, Z.div_1_r, Z.add_0_r.
           rewrite to_fexp_eq, Hs, Hdf in Hz.
           apply Hfin; try (rewrite Hs, Hdf; lia); try lia.
           rewrite Z.sub_diag, Z.pow_0_r. lia.
        -- rewrite to_fexp_eq, Hs, Hdf in Hz.
           assert (Hdpos : 0 < d - n) by lia.
           assert (Hhalf : f + 1 = 2 ^ (d - n - 1) * 2).
           { rewrite Hpow, Hdf. rewrite <- (Z.pow_1_r 2) at 3.
             rewrite <- Z.pow_add_r by lia. f_equal; lia. }
           assert (Hquo : (f + 1) / 2 ^ 1 = 2 ^ (d - n - 1)).
           { rewrite Z.pow_1_r, Hhalf. apply Z.div_mul. lia. }
           rewrite Hquo.
           assert (Hdig : Zdigits2 (2 ^ (d - n - 1)) = d - n)
             by (rewrite Zdigits2_pow2 by lia; lia).
           apply Hfin; try (rewrite Hdig; lia); try lia;
             try (apply Z.pow_pos_nonneg; lia).
           replace (e1 + 1 - e1) with 1 by lia. rewrite Z.pow_1_r. lia.
Qed.

(** The same on a mantissa with any location. *)
Lemma binary_round_aux_shape (s : bool) (m e : Z) (l : location) :
  0 <= m -> e <= fexp prec emax (Zdigits2 m + e) ->
  match binary_round_aux prec emax s m e l with
  | S754_zero s' => s' = s
  | S754_finite s' m2 e2 =>
      s' = s /\ bounded prec emax m2 e2 = true /\
      Zpos (digits2_pos m2) + e2 <= Z.max (Zdigits2 m + e) (-1074) + 1
  | S754_infinity s' => s' = s /\ emax <= Zdigits2 m + e
  | S754_nan => False
  end.
Proof.
  intros Hm Hal.
  destruct (loc_of_quarters m l Hm) as (N & HN & Hq & Hl).
  pose proof (binary_round_aux_quotient_shape s N 4 e HN ltac:(lia)) as H.
  rewrite Hq, Hl in H. specialize (H Hal). cbv zeta in H.
  destruct (binary_round_aux _ _ _ _ _ _); try exact H; try apply H.
  destruct H as (H1 & H2 & _ & _ & H3). auto.
Qed.

(** *** Alignment *)

Lemma pos_iter_xO (m d : positive) :
  Zpos (Pos.iter xO m d) = Zpos m * 2 ^ Zpos d.
Proof.
  induction d as [|d IH] using Pos.peano_ind.
  - simpl. lia.
  - rewrite Pos.iter_succ, Pos2Z.inj_xO, IH, Pos2Z.inj_succ, Z.pow_succ_r by lia. ring.
Qed.

Lemma shl_align_eq (mx : positive) (ex ex' : Z) :
  snd (shl_align mx ex ex') = Z.min ex ex' /\
  Zpos (fst (shl_align mx ex ex')) = Zpos mx * 2 ^ (ex - Z.min ex ex').
Proof.
  unfold shl_align. destruct (ex' - ex) as [|d|d] eqn:E; cbn [fst snd].
  - rewrite Z.min_l by lia. rewrite Z.sub_diag. simpl. lia.
  - rewrite Z.min_l by lia. rewrite Z.sub_diag. simpl. lia.
  - rewrite Z.min_r by lia. split; [reflexivity|].
    rewrite pos_iter_xO. f_equal. f_equal. lia.
Qed.

Lemma binary_round_shape (s : bool) (mx : positive) (ex : Z) :
  match binary_round prec emax s mx ex with
  | S754_zero s' => s' = s
  | S754_finite s' m2 e2 =>
      s' = s /\ bounded prec emax m2 e2 = true /\
      Zpos (digits2_pos m2) + e2 <= Z.max (Zpos (digits2_pos mx) + ex) (-1074) + 1
  | S754_infinity s' => s' = s /\ emax <= Zpos (digits2_pos mx) + ex
  | S754_nan => False
  end.
Proof.
  unfold binary_round.
  pose proof (shl_align_eq mx ex (fexp prec emax (Zpos (digits2_pos mx) + ex)))
    as [He Hm].
  destruct (shl_align mx ex _) as [mz ez]. cbn [fst snd] in He, Hm.
  assert (Hd : Zdigits2 (Zpos mz) + ez = Zpos (digits2_pos mx) + ex).
  { rewrite Hm, Zdigits2_shift by lia. simpl Zdigits2. lia. }
  pose proof (binary_round_aux_shape s (Zpos mz) ez loc_Exact ltac:(lia)) as H.
  rewrite Hd in H. apply H. lia.
Qed.

(** *** Multiplication *)

Lemma Zdigits2_mul (a b : Z) :
  0 < a -> 0 < b ->
  Zdigits2 a + Zdigits2 b - 1 <= Zdigits2 (a * b) <= Zdigits2 a + Zdigits2 b.
Proof.
  intros Ha Hb.
  pose proof (Zdigits2_bounds a Ha) as [Hal Hah].
  pose proof (Zdigits2_bounds b Hb) as [Hbl Hbh].
  pose proof (Zdigits2_pos a Ha). pose proof (Zdigits2_pos b Hb).
  assert (0 < 2 ^ (Zdigits2 a - 1)) by (apply Z.pow_pos_nonneg; lia).
  assert (0 < 2 ^ (Zdigits2 b - 1)) by (apply Z.pow_pos_nonneg; lia).
  split.
  - apply Zdigits2_ge; [|nia].
    replace (Zdigits2 a + Zdigits2 b - 1 - 1)
      with ((Zdigits2 a - 1) + (Zdigits2 b - 1)) by lia.
    rewrite Z.pow_add_r by lia. nia.
  - apply Zdigits2_le; [lia|]. rewrite Z.pow_add_r by lia. nia.
Qed.

Lemma mul_shape (sx sy : bool) (mx my : positive) (ex ey : Z) :
  prec <= Zpos (digits2_pos my) ->
  match SFmul prec emax (S754_finite sx mx ex) (S754_finite sy my ey) with
  | S754_zero s' => s' = xorb sx sy
  | S754_finite s' m2 e2 =>
      s' = xorb sx sy /\ bounded prec emax m2 e2 = true /\
      Zpos (digits2_pos m2) + e2 <=
      Z.max (Zpos (digits2_pos mx) + ex + (Zpos (digits2_pos my) + ey)) (-1074) + 1
  | S754_infinity s' =>
      s' = xorb sx sy /\
      emax <= Zpos (digits2_pos mx) + ex + (Zpos (digits2_pos my) + ey)
  | S754_nan => False
  end.
Proof.
  intro Hy. cbn [SFmul].
  pose proof (Zdigits2_mul (Zpos mx) (Zpos my) ltac:(lia) ltac:(lia)) as [Hlo Hhi].
  simpl Zdigits2 in Hlo, Hhi. unfold prec in Hy.
  pose proof (binary_round_aux_shape (xorb sx sy) (Zpos (mx * my)) (ex + ey) loc_Exact
                ltac:(lia)) as H.
  simpl Zdigits2 in H. rewrite fexp_eq in H.
  specialize (H ltac:(lia)).
  destruct (binary_round_aux _ _ _ _ _ _); try exact H.
  - destruct H as (Hs & Hmag). split; [assumption | lia].
  - destruct H as (Hs & Hb & Hmag). repeat split; try assumption. lia.
Qed.

(** A float of the format remains itself when multiplied by one. *)
Lemma mul_one_r (s : bool) (m : positive) (e : Z) :
  bounded prec emax m e = true ->
  SFmul prec emax (S754_finite s m e) (S754_finite false 4503599627370496 (-52))
  = S754_finite s m e.
Proof.
  intro Hb. unfold bounded, canonical_mantissa in Hb.
  apply andb_prop in Hb. destruct Hb as [Hc He].
  apply Z.eqb_eq in Hc. apply Z.leb_le in He. rewrite fexp_eq in Hc.
  cbn [SFmul]. rewrite xorb_false_r.
  rewrite Pos2Z.inj_mul. change (Z.pos 4503599627370496) with (2 ^ 52).
  rewrite binary_round_aux_exact by lia.
  assert (Hd : Zdigits2 (Zpos m * 2 ^ 52) = Zpos (digits2_pos m) + 52)
    by (rewrite Zdigits2_shift by lia; reflexivity).
  assert (Hn : to_fexp (Zpos m * 2 ^ 52) (e + -52) = 52)
    by (rewrite to_fexp_eq, Hd; lia).
  rewrite Hn, rne_exact by lia.
  assert (Hn' : to_fexp (Zpos m) (e + -52 + 52) = 0)
    by (rewrite to_fexp_eq; simpl Zdigits2; lia).
  rewrite Hn', Z.pow_0_r, Z.div_1_r.
  replace (e + -52 + 52 + 0) with e by lia.
  unfold finish. destruct (Z.leb_spec e (emax - prec)); [reflexivity | lia].
Qed.

(** *** Division *)

Lemma div_eucl_div_mod (a b : Z) : Z.div_eucl a b = (a / b, a mod b).
Proof. unfold Z.div, Z.modulo. now destruct (Z.div_eucl a b). Qed.

Lemma new_location_loc_of (N D : Z) :
  0 < D -> new_location D (N mod D) = loc_of N D.
Proof.
  intro HD. pose proof (Z.mod_pos_bound N D HD) as Hr.
  unfold new_location, new_location_even, new_location_odd, loc_of.
  destruct (Z.eq_dec (N mod D) 0) as [E|E];
    [rewrite E; destruct (Z.even D); reflexivity|].
  pose proof E as E'. apply Z.eqb_neq in E'.
  destruct (Z.even D) eqn:Hev; rewrite E'; [reflexivity|].
  f_equal.
  assert (Hodd : Z.odd D = true) by (rewrite <- Z.negb_even, Hev; reflexivity).
  apply Z.odd_spec in Hodd. destruct Hodd as [k Hk].
  destruct (Z.compare_spec (2 * (N mod D) + 1) D);
    destruct (Z.compare_spec (2 * (N mod D)) D); try reflexivity; lia.
Qed.

(** A finite float divided by itself is one. *)
Lemma div_self (s : bool) (m : positive) (e : Z) :
  SFdiv prec emax (S754_finite s m e) (S754_finite s m e)
  = S754_finite false 4503599627370496 (-52).
Proof.
  cbn [SFdiv]. unfold SFdiv_core_binary.
  rewrite !Z.sub_diag.
  change (Z.min (fexp prec emax 0) 0) with (-53).
  change (0 - -53) with 53. cbv iota.
  rewrite div_eucl_div_mod, Z.shiftl_mul_pow2 by lia.
  rewrite Z.mul_comm, Z.div_mul, Z.mod_mul by lia.
  rewrite xorb_nilpotent.
  replace (new_location (Zpos m) 0) with loc_Exact
    by (unfold new_location, new_location_even, new_location_odd;
        now destruct (Z.even (Zpos m))).
  reflexivity.
Qed.

(** *** Division of integers *)

(** [a / t] on positive integers is the rounding of the quotient
    [a * 2^s / t], where [s] leaves at least [prec] digits. *)
Lemma div_exact_quotient (sa st : bool) (a t : positive) :
  let e' := Z.min (fexp prec emax (Zpos (digits2_pos a) - Zpos (digits2_pos t))) 0 in
  let N := Zpos a * 2 ^ (- e') in
  SFdiv prec emax (S754_finite sa a 0) (S754_finite st t 0) =
  binary_round_aux prec emax (xorb sa st) (N / Zpos t) e' (loc_of N (Zpos t)).
Proof.
  intros e' N. cbn [SFdiv]. unfold SFdiv_core_binary.
  simpl Zdigits2. rewrite !Z.add_0_r, Z.sub_diag. fold e'.
  assert (He' : e' <= 0) by (unfold e'; lia).
  replace (match 0 - e' with
           | 0 => Z.pos a
           | Z.pos _ => Z.shiftl (Z.pos a) (0 - e')
           | Z.neg _ => 0
           end) with N.
  2:{ unfold N. destruct (0 - e') as [|p|p] eqn:E.
      - replace (- e') with 0 by lia. simpl. lia.
      - rewrite Z.shiftl_mul_pow2 by lia. f_equal. f_equal. lia.
      - lia. }
  rewrite div_eucl_div_mod, new_location_loc_of by lia.
  reflexivity.
Qed.

(** The quotient of two positive integers [a < t]: the float returned has
    the value [m1 * 2^e1], where [m1] is [a / t * 2^(-e1)] rounded to an
    integer; [e1] is [-53] when the quotient is at least one half and at most
    [-54] otherwise. *)
Lemma div_fraction (a t : positive) :
  Zpos a < Zpos t ->
  exists e1 m1 : Z,
    -1074 <= e1 <= -53 /\
    (Zpos t <= 2 * Zpos a -> e1 = -53) /\
    (2 * Zpos a < Zpos t -> e1 <= -54) /\
    2 * Z.abs (m1 * Zpos t - Zpos a * 2 ^ (- e1)) <= Zpos t /\
    represents (div (exact (Zpos a)) (exact (Zpos t))) e1 m1.
Proof.
  intro Hlt. unfold represents, div, exact. rewrite div_exact_quotient.
  set (da := Zpos (digits2_pos a)). set (dt := Zpos (digits2_pos t)).
  pose proof (Zdigits2_bounds (Zpos a) ltac:(lia)) as [Hal Hah].
  pose proof (Zdigits2_bounds (Zpos t) ltac:(lia)) as [Htl Hth].
  simpl Zdigits2 in Hal, Hah, Htl, Hth. fold da in Hal, Hah. fold dt in Htl, Hth.
  assert (Hda : 0 < da) by (unfold da; lia).
  assert (Hdt : 0 < dt) by (unfold dt; lia).
  assert (Hdd : da <= dt).
  { destruct (Z.le_gt_cases da dt); [assumption|].
    assert (2 ^ dt <= 2 ^ (da - 1)) by (apply Z.pow_le_mono_r; lia). lia. }
  rewrite fexp_eq.
  set (e' := Z.min (Z.max (da - dt - 53) (-1074)) 0).
  set (s := - e').
  assert (Hs : 53 <= s <= 1074) by (unfold s, e'; lia).
  assert (Hps : 0 < 2 ^ s) by (apply Z.pow_pos_nonneg; lia).
  set (N := Zpos a * 2 ^ s).
  set (q := N / Zpos t).
  assert (Hq0 : 0 <= q) by (apply Z.div_pos; unfold N; nia).
  assert (Hqs : q < 2 ^ s).
  { apply Z.div_lt_upper_bound; [lia|]. unfold N. nia. }
  assert (Hdq : Zdigits2 q <= s) by (apply Zdigits2_le; lia).
  pose proof (Zdigits2_nonneg q) as Hdq0.
  assert (Halign : e' <= fexp prec emax (Zdigits2 q + e')).
  { rewrite fexp_eq.
    destruct (Z.eq_dec e' (-1074)) as [E|E]; [lia|].
    assert (Hs' : s = 53 + dt - da) by (unfold s, e' in *; lia).
    assert (H52 : 2 ^ 52 <= q).
    { apply Z.div_le_lower_bound; [lia|]. unfold N.
      assert (2 ^ (52 + dt) <= 2 ^ (da - 1) * 2 ^ s).
      { rewrite <- Z.pow_add_r by lia. apply Z.pow_le_mono_r; lia. }
      rewrite Z.pow_add_r in H by lia. nia. }
    assert (53 <= Zdigits2 q) by (apply Zdigits2_ge; simpl; lia).
    lia. }
  pose proof (binary_round_aux_quotient_shape false N (Zpos t) e'
                ltac:(unfold N; nia) ltac:(lia) Halign) as Hshape.
  cbv zeta in Hshape. fold q in Hshape. rewrite fexp_eq in Hshape, Halign.
  set (e1 := Z.max (Zdigits2 q + e' - 53) (-1074)) in *.
  set (m1 := rne N (Zpos t * 2 ^ (e1 - e'))) in *.
  exists e1, m1.
  assert (He1 : -1074 <= e1 <= -53) by (unfold e1, s in *; lia).
  split; [exact He1|].
  split; [|split; [|split]].
  - intro Hbig.
    assert (Hlo : 2 ^ (s - 1) <= q).
    { apply Z.div_le_lower_bound; [lia|]. unfold N.
      assert (2 ^ s = 2 * 2 ^ (s - 1)).
      { rewrite <- Z.pow_succ_r by lia. f_equal. lia. }
      nia. }
    assert (s <= Zdigits2 q).
    { apply Zdigits2_ge; [assumption|].
      assert (0 < 2 ^ (s - 1)) by (apply Z.pow_pos_nonneg; lia). lia. }
    unfold e1, s in *. lia.
  - intro Hsmall.
    assert (Hhi : q < 2 ^ (s - 1)).
    { apply Z.div_lt_upper_bound; [lia|]. unfold N.
      assert (2 ^ s = 2 * 2 ^ (s - 1)).
      { rewrite <- Z.pow_succ_r by lia. f_equal. lia. }
      nia. }
    assert (Zdigits2 q <= s - 1) by (apply Zdigits2_le; lia).
    unfold e1, s in *. lia.
  - pose proof (rne_error N (Zpos t * 2 ^ (e1 - e'))) as Herr.
    assert (Hpn : 0 < 2 ^ (e1 - e')) by (apply Z.pow_pos_nonneg; lia).
    specialize (Herr ltac:(nia)). fold m1 in Herr.
    assert (Hsplit : 2 ^ s = 2 ^ (- e1) * 2 ^ (e1 - e')).
    { rewrite <- Z.pow_add_r by lia. f_equal. unfold s. lia. }
    unfold N in Herr. rewrite Hsplit in Herr.
    set (P := 2 ^ (e1 - e')) in *. set (Q := 2 ^ (- e1)) in *.
    replace (m1 * (Z.pos t * P) - Z.pos a * (Q * P))
      with ((m1 * Z.pos t - Z.pos a * Q) * P) in Herr by ring.
    rewrite Z.abs_mul, (Z.abs_eq P) in Herr by lia.
    nia.
  - simpl xorb.
    destruct (binary_round_aux _ _ _ _ _ _) as [s0|s0| |s0 m2 e2]; try exact Hshape.
    + destruct Hshape as [_ Hmag]. unfold emax in Hmag. lia.
    + destruct Hshape as (H1 & H2 & H3 & H4 & _). auto.
Qed.

(** *** Sums that round to one *)

Lemma binary_round_no_shift (s : bool) (mx : positive) (ex : Z) :
  ex <= fexp prec emax (Zpos (digits2_pos mx) + ex) ->
  binary_round prec emax s mx ex = binary_round_aux prec emax s (Zpos mx) ex loc_Exact.
Proof.
  intro H. unfold binary_round, shl_align.
  destruct (fexp prec emax (Zpos (digits2_pos mx) + ex) - ex) eqn:E;
    try reflexivity; lia.
Qed.

(** A value within [2^-54] of one rounds to one: [M * 2^E] with
    [E = -53 - J]. *)
Lemma binary_round_to_one (M : positive) (E J : Z) :
  0 <= J -> E = -53 - J ->
  Z.abs (2 * Zpos M - 2 ^ 54 * 2 ^ J) <= 2 ^ J ->
  binary_round prec emax false M E = one.
Proof.
  intros HJ HE Hnear.
  assert (HP : 0 < 2 ^ J) by (apply Z.pow_pos_nonneg; lia).
  set (P := 2 ^ J) in *.
  destruct (Z.le_gt_cases (2 ^ 53 * P) (Zpos M)) as [Hge | Hlt].
  - (* at least one *)
    assert (Hd : Zdigits2 (Zpos M) = 54 + J).
    { apply Zdigits2_unique; [|lia].
      replace (54 + J - 1) with (53 + J) by lia.
      rewrite !Z.pow_add_r by lia. fold P. lia. }
    simpl Zdigits2 in Hd.
    rewrite binary_round_no_shift by (rewrite Hd, fexp_eq; lia).
    rewrite binary_round_aux_exact by lia.
    assert (Hn : to_fexp (Zpos M) E = J + 1)
      by (rewrite to_fexp_eq; simpl Zdigits2; rewrite Hd; lia).
    rewrite Hn.
    assert (Hpow : 2 ^ (J + 1) = 2 * P)
      by (rewrite Z.pow_add_r, Z.pow_1_r by lia; fold P; lia).
    assert (Hm1 : rne (Zpos M) (2 ^ (J + 1)) = 2 ^ 52).
    { rewrite Hpow. apply rne_nearest; lia. }
    rewrite Hm1.
    replace (E + (J + 1)) with (-52) by lia.
    reflexivity.
  - (* just below one *)
    assert (HJ1 : 1 <= J).
    { destruct (Z.eq_dec J 0) as [E0|]; [|lia].
      unfold P in *. rewrite E0 in *. rewrite Z.pow_0_r in *. lia. }
    assert (HP' : 2 ^ J = 2 * 2 ^ (J - 1)).
    { rewrite <- Z.pow_succ_r by lia. f_equal. lia. }
    fold P in HP'.
    assert (HQ : 0 < 2 ^ (J - 1)) by (apply Z.pow_pos_nonneg; lia).
    set (Q := 2 ^ (J - 1)) in *.
    assert (Hd : Zdigits2 (Zpos M) = 53 + J).
    { apply Zdigits2_unique; [|lia].
      replace (53 + J - 1) with (53 + (J - 1)) by lia.
      rewrite !Z.pow_add_r by lia. fold P. fold Q. lia. }
    simpl Zdigits2 in Hd.
    rewrite binary_round_no_shift by (rewrite Hd, fexp_eq; lia).
    rewrite binary_round_aux_exact by lia.
    assert (Hn : to_fexp (Zpos M) E = J)
      by (rewrite to_fexp_eq; simpl Zdigits2; rewrite Hd; lia).
    rewrite Hn. fold P.
    assert (Hm1 : rne (Zpos M) P = 2 ^ 53).
    { destruct (Z.eq_dec (2 ^ 54 * P - 2 * Zpos M) P) as [Htie | Hne].
      - apply rne_tie_even; [lia | lia | reflexivity].
      - apply rne_nearest; lia. }
    rewrite Hm1.
    replace (E + J) with (-53) by lia.
    reflexivity.
Qed.

Lemma add_finite_pos (mx my : positive) (ex ey : Z) :
  exists M : positive,
    Zpos M = Zpos mx * 2 ^ (ex - Z.min ex ey) + Zpos my * 2 ^ (ey - Z.min ex ey) /\
    add (S754_finite false mx ex) (S754_finite false my ey) =
    binary_round prec emax false M (Z.min ex ey).
Proof.
  unfold add. cbn [SFadd cond_Zopp].
  pose proof (shl_align_eq mx ex (Z.min ex ey)) as [_ Hx].
  pose proof (shl_align_eq my ey (Z.min ex ey)) as [_ Hy].
  rewrite Z.min_assoc, Z.min_id in Hx.
  rewrite (Z.min_comm ey), <- Z.min_assoc, Z.min_id in Hy.
  exists (fst (shl_align mx ex (Z.min ex ey)) + fst (shl_align my ey (Z.min ex ey)))%positive.
  split; [rewrite Pos2Z.inj_add, Hx, Hy; reflexivity | reflexivity].
Qed.

Lemma bounded_digits (m : positive) (e : Z) :
  bounded prec emax m e = true ->
  -1074 <= e /\ (-1074 < e -> 2 ^ 52 <= Zpos m < 2 ^ 53).
Proof.
  intro Hb. unfold bounded, canonical_mantissa in Hb.
  apply andb_prop in Hb. destruct Hb as [Hc _].
  apply Z.eqb_eq in Hc. rewrite fexp_eq in Hc.
  split; [lia|]. intro He.
  assert (Hd : Zpos (digits2_pos m) = 53) by lia.
  pose proof (Zdigits2_bounds (Zpos m) ltac:(lia)) as H.
  simpl Zdigits2 in H. rewrite Hd in H. exact H.
Qed.

(** The only float of the format with the value one. *)
Lemma bounded_one (m : positive) (e : Z) :
  bounded prec emax m e = true -> -53 <= e ->
  Zpos m * 2 ^ (e + 53) = 2 ^ 53 ->
  S754_finite false m e = one.
Proof.
  intros Hb He Hv. destruct (bounded_digits m e Hb) as [_ Hd].
  specialize (Hd ltac:(lia)).
  destruct (Z.eq_dec e (-53)) as [E|E].
  { subst e. change (2 ^ (-53 + 53)) with 1 in Hv. lia. }
  destruct (Z.eq_dec e (-52)) as [E'|E'].
  - subst e. change (2 ^ (-52 + 53)) with 2 in Hv.
    assert (Zpos m = 2 ^ 52) by lia.
    unfold one. f_equal. apply Pos2Z.inj. exact H.
  - assert (2 ^ 2 <= 2 ^ (e + 53)) by (apply Z.pow_le_mono_r; lia).
    change (2 ^ 2) with 4 in H. nia.
Qed.

(** Two floats whose values are within [2^-54] of summing to one add up
    to one; the first has the value [mx * 2^ex] with [ex <= -53], the second
    [my * 2^-53]. *)
Lemma add_fractions_one (x y : float) (ex mx my : Z) :
  represents x ex mx -> represents y (-53) my ->
  -1074 <= ex <= -53 -> 0 < my ->
  Z.abs (2 * mx + 2 * 2 ^ (-53 - ex) * my - 2 ^ 54 * 2 ^ (-53 - ex))
  <= 2 ^ (-53 - ex) ->
  add x y = one /\ add y x = one.
Proof.
  intros Hx Hy Hex Hmy Hnear.
  assert (HP : 0 < 2 ^ (-53 - ex)) by (apply Z.pow_pos_nonneg; lia).
  set (P := 2 ^ (-53 - ex)) in *.
  destruct y as [sy|sy| |sy m2y e2y]; try contradiction.
  { destruct Hy as [_ Hy]. lia. }
  destruct Hy as (-> & Hby & Hey & Hvy).
  replace (e2y - -53) with (e2y + 53) in Hvy by lia.
  destruct x as [sx|sx| |sx m2x e2x]; try contradiction.
  - (* the first float is zero *)
    destruct Hx as [-> Hmx]. subst mx.
    assert (Hmy53 : my = 2 ^ 53) by nia.
    rewrite Hmy53 in Hvy.
    rewrite (bounded_one m2y e2y Hby Hey Hvy). split; reflexivity.
  - destruct Hx as (-> & Hbx & Hexx & Hvx).
    assert (Hpow1 : 0 < 2 ^ (e2x - ex)) by (apply Z.pow_pos_nonneg; lia).
    assert (He2x : e2x <= -53).
    { destruct (Z.le_gt_cases e2x (-53)) as [|Hgt]; [assumption|exfalso].
      destruct (bounded_digits m2x e2x Hbx) as [_ Hd].
      specialize (Hd ltac:(lia)).
      assert (2 ^ (-53 - ex + 1) <= 2 ^ (e2x - ex)) by (apply Z.pow_le_mono_r; lia).
      rewrite Z.pow_add_r, Z.pow_1_r in H by lia. fold P in H. nia. }
    set (ez := Z.min e2x e2y).
    assert (Hez : ex <= ez <= -53) by (unfold ez; lia).
    assert (HR : 0 < 2 ^ (ez - ex)) by (apply Z.pow_pos_nonneg; lia).
    assert (HJ : 0 < 2 ^ (-53 - ez)) by (apply Z.pow_pos_nonneg; lia).
    assert (HA : 0 < 2 ^ (e2x - ez)) by (apply Z.pow_pos_nonneg; unfold ez; lia).
    assert (HB : 0 < 2 ^ (e2y - ez)) by (apply Z.pow_pos_nonneg; unfold ez; lia).
    assert (HPJ : P = 2 ^ (-53 - ez) * 2 ^ (ez - ex)).
    { unfold P. rewrite <- Z.pow_add_r by lia. f_equal. lia. }
    assert (HAR : 2 ^ (e2x - ex) = 2 ^ (e2x - ez) * 2 ^ (ez - ex)).
    { rewrite <- Z.pow_add_r by (unfold ez; lia). f_equal. lia. }
    assert (HBR : 2 ^ (e2y + 53) * P = 2 ^ (e2y - ez) * 2 ^ (ez - ex)).
    { unfold P. rewrite <- !Z.pow_add_r by (unfold ez; lia). f_equal. lia. }
    assert (Hcore : forall M : positive,
               Zpos M = Zpos m2x * 2 ^ (e2x - ez) + Zpos m2y * 2 ^ (e2y - ez) ->
               binary_round prec emax false M ez = one).
    { intros M HM. apply (binary_round_to_one M ez (-53 - ez)); [lia | lia |].
      set (R := 2 ^ (ez - ex)) in *. set (Jp := 2 ^ (-53 - ez)) in *.
      set (A := 2 ^ (e2x - ez)) in *. set (B := 2 ^ (e2y - ez)) in *.
      assert (Hsum : 2 * mx + 2 * P * my = 2 * Zpos M * R).
      { rewrite <- Hvx, <- Hvy, HAR, HM.
        replace (2 * P * (Z.pos m2y * 2 ^ (e2y + 53)))
          with (2 * Z.pos m2y * (2 ^ (e2y + 53) * P)) by ring.
        rewrite HBR. ring. }
      rewrite Hsum, HPJ in Hnear.
      replace (2 * Z.pos M * R - 2 ^ 54 * (Jp * R))
        with ((2 * Z.pos M - 2 ^ 54 * Jp) * R) in Hnear by ring.
      rewrite Z.abs_mul, (Z.abs_eq R) in Hnear by lia.
      nia. }
    split.
    + destruct (add_finite_pos m2x m2y e2x e2y) as (M & HM & ->).
      apply Hcore. exact HM.
    + destruct (add_finite_pos m2y m2x e2y e2x) as (M & HM & ->).
      rewrite (Z.min_comm e2y e2x) in *. fold ez in HM |- *.
      apply Hcore. lia.
Qed.

(** The two quotients [a / (a + h)] and [h / (a + h)] of positive integers,
    each rounded to a float, add up to the float one. *)
Lemma fractions_sum_to_one (a h : positive) :
  exists x y : float,
    div (exact (Zpos a)) (exact (Zpos (a + h))) = x /\
    div (exact (Zpos h)) (exact (Zpos (a + h))) = y /\
    is_finite x = true /\ is_finite y = true /\
    add x y = one.
Proof.
  set (t := (a + h)%positive).
  assert (Ht : Zpos t = Zpos a + Zpos h) by (unfold t; lia).
  destruct (div_fraction a t ltac:(lia)) as (ea & ma & Hea & Hbiga & Hsmalla & Herra & Hra).
  destruct (div_fraction h t ltac:(lia)) as (eh & mh & Heh & Hbigh & Hsmallh & Herrh & Hrh).
  exists (div (exact (Zpos a)) (exact (Zpos t))), (div (exact (Zpos h)) (exact (Zpos t))).
  split; [reflexivity | split; [reflexivity|]].
  split; [|split].
  { destruct (div _ _); simpl in Hra; try contradiction; reflexivity. }
  { destruct (div (exact (Zpos h)) _); simpl in Hrh; try contradiction; reflexivity. }
  assert (Hsmall : forall (s b : positive) (es ms eb mb : Z),
             Zpos s + Zpos b = Zpos t -> 2 * Zpos s <= Zpos t ->
             -1074 <= es <= -53 -> (Zpos t <= 2 * Zpos s -> es = -53) ->
             (2 * Zpos s < Zpos t -> es <= -54) ->
             eb = -53 ->
             2 * Z.abs (ms * Zpos t - Zpos s * 2 ^ (- es)) <= Zpos t ->
             2 * Z.abs (mb * Zpos t - Zpos b * 2 ^ (- eb)) <= Zpos t ->
             0 < mb /\
             Z.abs (2 * ms + 2 * 2 ^ (-53 - es) * mb - 2 ^ 54 * 2 ^ (-53 - es))
             <= 2 ^ (-53 - es)).
  { intros s b es ms eb mb Hsb Hle Hes Hes53 Hes' -> Hs Hb.
    change (2 ^ (- -53)) with (2 ^ 53) in Hb.
    assert (HP : 0 < 2 ^ (-53 - es)) by (apply Z.pow_pos_nonneg; lia).
    assert (Hsplit : 2 ^ (- es) = 2 ^ 53 * 2 ^ (-53 - es)).
    { rewrite <- Z.pow_add_r by lia. f_equal. lia. }
    rewrite Hsplit in Hs. clear Hsplit.
    set (P := 2 ^ (-53 - es)) in *.
    clear Ht Hea Hbiga Hsmalla Herra Hra Heh Hbigh Hsmallh Herrh Hrh.
    assert (HT : 0 < Zpos t) by lia.
    assert (HS : 0 < Zpos s) by lia.
    assert (HB : 0 < Zpos b) by lia.
    set (T := Zpos t) in *. set (S := Zpos s) in *. set (B := Zpos b) in *.
    split.
    { assert (Hpos : 0 < mb * T) by lia.
      apply (Z.mul_pos_cancel_r mb T HT). exact Hpos. }
    destruct (Z.eq_dec (2 * S) T) as [Heq | Hne].
    - (* both quotients are one half *)
      assert (Hbs : B = S) by lia.
      assert (HP1 : P = 1).
      { unfold P. rewrite (Hes53 ltac:(lia)). reflexivity. }
      rewrite HP1 in *. rewrite <- Heq, Hbs in Hb. rewrite <- Heq in Hs.
      replace (mb * (2 * S) - S * 2 ^ 53) with ((2 * mb - 2 ^ 53) * S) in Hb by ring.
      replace (ms * (2 * S) - S * (2 ^ 53 * 1)) with ((2 * ms - 2 ^ 53) * S) in Hs by ring.
      rewrite Z.abs_mul, (Z.abs_eq S) in Hb, Hs by lia.
      assert (Hb1 : Z.abs (2 * mb - 2 ^ 53) * S <= 1 * S) by lia.
      assert (Hs1 : Z.abs (2 * ms - 2 ^ 53) * S <= 1 * S) by lia.
      apply Z.mul_le_mono_pos_r in Hb1, Hs1; try assumption.
      lia.
    - specialize (Hes' ltac:(lia)).
      assert (HP' : P = 2 * 2 ^ (-54 - es)).
      { unfold P. rewrite <- Z.pow_succ_r by lia. f_equal. lia. }
      assert (HQ : 0 < 2 ^ (-54 - es)) by (apply Z.pow_pos_nonneg; lia).
      set (Q := 2 ^ (-54 - es)) in *.
      assert (Hx : Z.abs (2 * ((ms + P * mb) - 2 ^ 53 * P)) * T <= (P + 1) * T).
      { rewrite <- (Z.abs_eq T) at 1 by lia. rewrite <- Z.abs_mul.
        replace (2 * (ms + P * mb - 2 ^ 53 * P) * T)
          with (2 * (ms * T - S * (2 ^ 53 * P))
                + P * (2 * (mb * T - B * 2 ^ 53))) by (rewrite <- Hsb; ring).
        eapply Z.le_trans; [apply Z.abs_triangle|].
        rewrite !Z.abs_mul, (Z.abs_eq P), (Z.abs_eq 2) by lia.
        replace ((P + 1) * T) with (T + P * T) by ring.
        apply Z.add_le_mono; [exact Hs|].
        apply Z.mul_le_mono_nonneg_l; [lia | exact Hb]. }
      apply Z.mul_le_mono_pos_r in Hx; [|assumption].
      replace (2 * ms + 2 * P * mb - 2 ^ 54 * P)
        with (2 * ((ms + P * mb) - 2 ^ 53 * P)) by ring.
      clear Hs Hb. lia. }
  destruct (Z.le_gt_cases (2 * Zpos a) (Zpos t)) as [Hle | Hgt].
  - destruct (Hsmall a h ea ma eh mh ltac:(lia) Hle Hea Hbiga Hsmalla (Hbigh ltac:(lia))
                     Herra Herrh) as [Hpos Hnear].
    rewrite (Hbigh ltac:(lia)) in Hrh.
    exact (proj1 (add_fractions_one _ _ ea ma mh Hra Hrh Hea Hpos Hnear)).
  - destruct (Hsmall h a eh mh ea ma ltac:(lia) ltac:(lia) Heh Hbigh Hsmallh
                     (Hbiga ltac:(lia)) Herrh Herra) as [Hpos Hnear].
    rewrite (Hbiga ltac:(lia)) in Hra.
    exact (proj2 (add_fractions_one _ _ eh mh ma Hrh Hra Heh Hpos Hnear)).
Qed.

(** ** Properties of the two samplers *)

Section SamplerProperties.

Context {G : RandomGen}.

Lemma draws_length (n : nat) (g : rng_state) :
  length (fst (draws n g)) = n.
Proof.
  revert g; induction n as [|n IH]; intro g; simpl; [reflexivity|].
  destruct (rng_random g) as [r g1].
  specialize (IH g1). destruct (draws n g1) as [rs g2]. simpl in *. now rewrite IH.
Qed.

Lemma tally_cons (p : float -> bool) (r : float) (rs : list float) :
  tally p (r :: rs) = (if p r then 1 else 0) + tally p rs.
Proof.
  unfold tally; simpl. destruct (p r); simpl length; lia.
Qed.

Lemma tally_split (p : float -> bool) (rs : list float) :
  tally p rs + tally (fun r => negb (p r)) rs = Z.of_nat (length rs).
Proof.
  induction rs as [|r rs IH]; [reflexivity|].
  rewrite !tally_cons. simpl length. destruct (p r); simpl negb; lia.
Qed.

(** The loop of [simulate_all_honest] adds to each counter the number of
    draws that fall on its side. *)
Lemma honest_loop_tally (alpha : float) (n : nat) :
  forall (a h : Z) (g : rng_state),
    honest_loop alpha n a h g =
    (a + tally (fun r => ltb r alpha) (fst (draws n g)),
     h + tally (fun r => negb (ltb r alpha)) (fst (draws n g)),
     snd (draws n g)).
Proof.
  induction n as [|n IH]; intros a h g; simpl.
  - unfold tally; simpl. now rewrite !Z.add_0_r.
  - destruct (rng_random g) as [r g1] eqn:Hr.
    specialize (IH (if ltb r alpha then a + 1 else a)
                   (if ltb r alpha then h else h + 1) g1).
    destruct (draws n g1) as [rs g2]; simpl in *.
    rewrite !tally_cons.
    destruct (ltb r alpha); cbn [negb]; rewrite IH;
      repeat match goal with |- (_, _) = (_, _) => apply f_equal2 end;
      try reflexivity; lia.
Qed.

(** C4. For [0 < alpha < 1] and [rounds >= 0], [simulate_all_honest] takes
    [rounds] draws from the generator (freshly seeded when a seed is given),
    credits the attacker with exactly the draws that are [< alpha] and the
    honest pool with all the others, each draw being classified on its own;
    the two counters sum to [rounds] and the result has [gamma = 0]. *)
Theorem simulate_all_honest_attributes_each_draw
        (alpha : float) (rounds : Z) (seed : option Z) (g : rng_state) :
  ltb zero alpha = true -> ltb alpha one = true -> 0 <= rounds ->
  let res := fst (simulate_all_honest alpha rounds seed g) in
  let rs := fst (draws (Z.to_nat rounds) (reseed seed g)) in
  Z.of_nat (length rs) = rounds /\
  SimulationResult.attacker_blocks res = tally (fun r => ltb r alpha) rs /\
  SimulationResult.honest_blocks res = tally (fun r => negb (ltb r alpha)) rs /\
  SimulationResult.attacker_blocks res + SimulationResult.honest_blocks res = rounds /\
  SimulationResult.gamma res = zero /\
  SimulationResult.alpha res = alpha /\
  SimulationResult.rounds res = rounds /\
  snd (simulate_all_honest alpha rounds seed g) =
  snd (draws (Z.to_nat rounds) (reseed seed g)).
Proof.
  intros _ _ Hrounds res rs.
  assert (Hlen : Z.of_nat (length rs) = rounds).
  { unfold rs. rewrite draws_length. now apply Z2Nat.id. }
  pose proof (tally_split (fun r => ltb r alpha) rs) as Hsplit.
  unfold res, simulate_all_honest.
  rewrite honest_loop_tally. fold rs. cbn [fst snd].
  unfold SimulationResult.make; cbn [SimulationResult.attacker_blocks
    SimulationResult.honest_blocks SimulationResult.gamma SimulationResult.alpha
    SimulationResult.rounds].
  rewrite !Z.add_0_l.
  repeat split; try reflexivity; try assumption; lia.
Qed.

End SamplerProperties.

(** The sampler on the concrete generator: three rounds at [alpha = 1/2]
    from seed 42. *)
Lemma simulate_all_honest_attributes_each_draw_witness :
  let res := fst (simulate_all_honest (G := lcg) f0_5 3 (Some 42) 0) in
  SimulationResult.attacker_blocks res + SimulationResult.honest_blocks res = 3 /\
  SimulationResult.gamma res = zero.
Proof.
  pose proof (simulate_all_honest_attributes_each_draw (G := lcg) f0_5 3 (Some 42) 0
                eq_refl eq_refl ltac:(lia)) as H.
  cbv zeta in H. split; apply H.
Defined.

(** ** Properties of the selfish-mining state machine *)

Section SelfishProperties.

Context {G : RandomGen}.

Variables alpha gamma : float.

(** The loop body performs a round of the state machine whenever the lead is
    not negative. *)
Lemma selfish_round_is_step (st : sm_state) :
  0 <= sm_lead st -> sm_step alpha gamma st (selfish_round alpha gamma st).
Proof.
  destruct st as [a h lead g]; simpl; intro Hlead.
  destruct (rng_random g) as [r g1] eqn:Hr.
  destruct (ltb r alpha) eqn:Hlt.
  - destruct (lead =? 0) eqn:H0.
    + apply Z.eqb_eq in H0; subst lead.
      exact (sm_attacker_finds alpha gamma a h 0 g r g1 Hr Hlt).
    + eapply sm_attacker_finds; eassumption.
  - destruct (lead =? 0) eqn:H0.
    + apply Z.eqb_eq in H0; subst lead. eapply sm_honest_no_lead; eassumption.
    + destruct (lead =? 1) eqn:H1.
      * apply Z.eqb_eq in H1; subst lead.
        destruct (rng_random g1) as [r_fork g2] eqn:Hf.
        destruct (ltb r_fork gamma) eqn:Hg.
        -- eapply sm_fork_attacker_wins; eassumption.
        -- eapply sm_fork_honest_wins; eassumption.
      * apply Z.eqb_neq in H0, H1.
        eapply sm_publish_oldest; try eassumption. lia.
Qed.

(** A round of the state machine is the loop body: the machine is
    deterministic. *)
Lemma sm_step_is_selfish_round (st st' : sm_state) :
  sm_step alpha gamma st st' -> st' = selfish_round alpha gamma st.
Proof.
  intro H; destruct H as
      [a h lead g r g1 Hr Hlt | a h g r g1 Hr Hlt
       | a h g r g1 rf g2 Hr Hlt Hf Hg | a h g r g1 rf g2 Hr Hlt Hf Hg
       | a h lead g r g1 Hr Hlt H2];
    simpl; rewrite Hr, Hlt; try (rewrite Hf, Hg); try reflexivity.
  - destruct (lead =? 0) eqn:H0; [apply Z.eqb_eq in H0; now subst|reflexivity].
  - destruct (lead =? 0) eqn:H0; [apply Z.eqb_eq in H0; lia|].
    destruct (lead =? 1) eqn:H1; [apply Z.eqb_eq in H1; lia|reflexivity].
Qed.

Lemma selfish_round_inv (k : Z) (st : sm_state) :
  sm_inv k st -> sm_inv (k + 1) (selfish_round alpha gamma st).
Proof.
  destruct st as [a h lead g]; unfold sm_inv; simpl; intros (Ha & Hh & Hl & Hsum).
  destruct (rng_random g) as [r g1].
  destruct (ltb r alpha).
  - destruct (lead =? 0) eqn:H0; simpl; [apply Z.eqb_eq in H0|]; lia.
  - destruct (lead =? 0) eqn:H0; simpl; [lia|].
    destruct (lead =? 1) eqn:H1.
    + apply Z.eqb_eq in H1.
      destruct (rng_random g1) as [r_fork g2].
      destruct (ltb r_fork gamma); simpl; lia.
    + apply Z.eqb_neq in H0, H1. simpl; lia.
Qed.

Lemma selfish_loop_inv (n : nat) :
  forall (k : Z) (st : sm_state),
    sm_inv k st -> sm_inv (k + Z.of_nat n) (selfish_loop alpha gamma n st).
Proof.
  induction n as [|n IH]; intros k st Hinv.
  - simpl. now rewrite Z.add_0_r.
  - cbn [selfish_loop].
    replace (k + Z.of_nat (S n)) with (k + 1 + Z.of_nat n) by lia.
    apply IH, selfish_round_inv, Hinv.
Qed.

Lemma selfish_loop_steps (n : nat) :
  forall (k : Z) (st : sm_state),
    sm_inv k st -> sm_steps alpha gamma n st (selfish_loop alpha gamma n st).
Proof.
  induction n as [|n IH]; intros k st Hinv; cbn [selfish_loop].
  - constructor.
  - econstructor.
    + apply selfish_round_is_step. apply Hinv.
    + apply (IH (k + 1)), selfish_round_inv, Hinv.
Qed.

Lemma sm_steps_unique (n : nat) :
  forall st st', sm_steps alpha gamma n st st' -> st' = selfish_loop alpha gamma n st.
Proof.
  induction n as [|n IH]; intros st st' H; inversion H; subst; cbn [selfish_loop].
  - reflexivity.
  - match goal with
    | Hs : sm_step _ _ _ _ |- _ => apply sm_step_is_selfish_round in Hs; subst
    end.
    now apply IH.
Qed.

Lemma sm_inv_initial (g : rng_state) : sm_inv 0 (mk_sm 0 0 0 g).
Proof. unfold sm_inv; simpl; lia. Qed.

Lemma settle_flushed (st : sm_state) : settle st = flushed st.
Proof. reflexivity. Qed.

(** C1. The counters that [simulate_selfish_mining] returns are those of the
    three-way private-lead state machine: from the state with both counters
    and the lead at zero (and the generator seeded when a seed is given), the
    machine makes [rounds] rounds, each as the relation [sm_step] describes,
    to a final state that is unique; [attacker_blocks] is the attacker counter
    of that state plus any remaining positive lead, [honest_blocks] is its
    honest counter. *)
Theorem simulate_selfish_mining_runs_state_machine
        (rounds : Z) (seed : option Z) (g : rng_state) :
  exists st : sm_state,
    sm_steps alpha gamma (Z.to_nat rounds) (mk_sm 0 0 0 (reseed seed g)) st /\
    (forall st', sm_steps alpha gamma (Z.to_nat rounds)
                          (mk_sm 0 0 0 (reseed seed g)) st' -> st' = st) /\
    simulate_selfish_mining alpha gamma rounds seed g =
    (SimulationResult.make alpha gamma rounds (flushed st) (sm_honest st), sm_rng st).
Proof.
  exists (selfish_loop alpha gamma (Z.to_nat rounds) (mk_sm 0 0 0 (reseed seed g))).
  split; [|split].
  - apply (selfish_loop_steps _ 0), sm_inv_initial.
  - intros st' H. now apply sm_steps_unique.
  - reflexivity.
Qed.

(** The counters of a run and the number of rounds. *)
Lemma simulate_selfish_mining_counters
      (rounds : Z) (seed : option Z) (g : rng_state) :
  let res := fst (simulate_selfish_mining alpha gamma rounds seed g) in
  0 <= SimulationResult.attacker_blocks res /\
  0 <= SimulationResult.honest_blocks res /\
  SimulationResult.attacker_blocks res + SimulationResult.honest_blocks res
  <= Z.max 0 rounds.
Proof.
  intro res.
  pose proof (selfish_loop_inv (Z.to_nat rounds) 0 _ (sm_inv_initial (reseed seed g)))
    as (Ha & Hh & Hl & Hsum).
  unfold res, simulate_selfish_mining; cbn [fst].
  unfold SimulationResult.make;
    cbn [SimulationResult.attacker_blocks SimulationResult.honest_blocks].
  unfold settle.
  destruct (0 <? _) eqn:Hpos; lia.
Qed.

(** C3. For [alpha] in [[0, 1)], every [gamma] and [rounds >= 0], the result
    of [simulate_selfish_mining], settlement included, has non-negative
    [attacker_blocks] and [honest_blocks] whose sum is at most [rounds]. *)
Theorem simulate_selfish_mining_blocks_at_most_rounds
        (rounds : Z) (seed : option Z) (g : rng_state) :
  leb zero alpha = true -> ltb alpha one = true -> 0 <= rounds ->
  let res := fst (simulate_selfish_mining alpha gamma rounds seed g) in
  0 <= SimulationResult.attacker_blocks res /\
  0 <= SimulationResult.honest_blocks res /\
  SimulationResult.attacker_blocks res + SimulationResult.honest_blocks res <= rounds.
Proof.
  intros _ _ Hrounds res.
  pose proof (simulate_selfish_mining_counters rounds seed g) as H.
  cbv zeta in H. subst res. lia.
Qed.

(** C5. [simulate_selfish_mining] returns a result for every [alpha] and
    [gamma] (zero, one, values outside [[0, 1]], infinities and NaN alike),
    every [rounds] and every seed: the loop makes its rounds (none when
    [rounds] is not positive) and the record returned carries [alpha],
    [gamma] and [rounds] as they were given, with counters that are not
    negative. *)
Theorem simulate_selfish_mining_always_returns
        (rounds : Z) (seed : option Z) (g : rng_state) :
  exists (res : SimulationResult.t) (g' : rng_state),
    simulate_selfish_mining alpha gamma rounds seed g = (res, g') /\
    SimulationResult.alpha res = alpha /\
    SimulationResult.gamma res = gamma /\
    SimulationResult.rounds res = rounds /\
    0 <= SimulationResult.attacker_blocks res /\
    0 <= SimulationResult.honest_blocks res /\
    SimulationResult.total_blocks res <= Z.max 0 rounds.
Proof.
  pose proof (simulate_selfish_mining_counters rounds seed g) as H.
  cbv zeta in H.
  exists (fst (simulate_selfish_mining alpha gamma rounds seed g)),
         (snd (simulate_selfish_mining alpha gamma rounds seed g)).
  split; [now destruct (simulate_selfish_mining alpha gamma rounds seed g)|].
  unfold SimulationResult.total_blocks.
  repeat split; try apply H; reflexivity.
Qed.

End SelfishProperties.

(** Five rounds at [alpha = 1/2], [gamma = 1/2] on the concrete generator. *)
Lemma simulate_selfish_mining_blocks_at_most_rounds_witness :
  leb zero f0_5 = true /\ ltb f0_5 one = true /\ 0 <= 5 /\
  let res := fst (simulate_selfish_mining (G := lcg) f0_5 f0_5 5 (Some 7) 0) in
  0 <= SimulationResult.attacker_blocks res /\
  0 <= SimulationResult.honest_blocks res /\
  SimulationResult.attacker_blocks res + SimulationResult.honest_blocks res <= 5.
Proof.
  split; [reflexivity | split; [reflexivity | split; [lia|]]].
  apply (simulate_selfish_mining_blocks_at_most_rounds (G := lcg) f0_5 f0_5 5 (Some 7) 0);
    [reflexivity | reflexivity | lia].
Defined.

(** ** The defended variant and the pool variant *)

Section Variants.

Context {G : RandomGen}.

(** A run with a seed does not depend on the state of the generator before
    the call. *)
Lemma simulate_selfish_mining_seeded
      (alpha gamma : float) (rounds s : Z) (g g' : rng_state) :
  simulate_selfish_mining alpha gamma rounds (Some s) g =
  simulate_selfish_mining alpha gamma rounds (Some s) g'.
Proof. reflexivity. Qed.

(** C7. [simulate_selfish_with_defense] runs the state machine at
    [gamma_attack] with the given seed; with the defence enabled and a seed
    [s] given, the second element of the pair is the run at [gamma_defense]
    seeded with [s + 1]; with the defence disabled, both elements of the pair
    are the result of the single run at [gamma_attack]. *)
Theorem simulate_selfish_with_defense_runs
        (alpha gamma_attack gamma_defense : float) (rounds : Z) (g : rng_state) :
  (forall s : Z,
      simulate_selfish_with_defense alpha gamma_attack gamma_defense rounds
                                    true (Some s) g =
      ((fst (simulate_selfish_mining alpha gamma_attack rounds (Some s) g),
        fst (simulate_selfish_mining alpha gamma_defense rounds (Some (s + 1)) g)),
       snd (simulate_selfish_mining alpha gamma_defense rounds (Some (s + 1)) g))) /\
  (forall seed : option Z,
      simulate_selfish_with_defense alpha gamma_attack gamma_defense rounds
                                    false seed g =
      ((fst (simulate_selfish_mining alpha gamma_attack rounds seed g),
        fst (simulate_selfish_mining alpha gamma_attack rounds seed g)),
       snd (simulate_selfish_mining alpha gamma_attack rounds seed g))).
Proof.
  split.
  - intro s. unfold simulate_selfish_with_defense.
    destruct (simulate_selfish_mining alpha gamma_attack rounds (Some s) g)
      as [r1 g1] eqn:E1.
    cbn [negb fst].
    rewrite (simulate_selfish_mining_seeded alpha gamma_defense rounds (s + 1) g1 g).
    now destruct (simulate_selfish_mining alpha gamma_defense rounds (Some (s + 1)) g).
  - intro seed. unfold simulate_selfish_with_defense.
    now destruct (simulate_selfish_mining alpha gamma_attack rounds seed g).
Qed.

(** C10. With the defence enabled and no seed, the defended run is called
    without a seed as well: the first run starts its loop on the generator as
    it finds it, and the second run starts on the generator as the first run
    left it; the generator is seeded by neither. *)
Theorem simulate_selfish_with_defense_unseeded
        (alpha gamma_attack gamma_defense : float) (rounds : Z) (g : rng_state) :
  let st1 := selfish_loop alpha gamma_attack (Z.to_nat rounds) (mk_sm 0 0 0 g) in
  let st2 := selfish_loop alpha gamma_defense (Z.to_nat rounds)
                          (mk_sm 0 0 0 (sm_rng st1)) in
  simulate_selfish_with_defense alpha gamma_attack gamma_defense rounds true None g =
  ((SimulationResult.make alpha gamma_attack rounds (settle st1) (sm_honest st1),
    SimulationResult.make alpha gamma_defense rounds (settle st2) (sm_honest st2)),
   sm_rng st2) /\
  simulate_selfish_with_defense alpha gamma_attack gamma_defense rounds true None g =
  (let (r1, g1) := simulate_selfish_mining alpha gamma_attack rounds None g in
   let (r2, g2) := simulate_selfish_mining alpha gamma_defense rounds None g1 in
   ((r1, r2), g2)).
Proof.
  split; reflexivity.
Qed.

(** C9. Whenever [num_pools - 1] converts to a float [k],
    [pool_cooperative_mining] returns the result of [simulate_selfish_mining]
    at the effective share [max(0, alpha - 0.02 * k)] with the same [gamma],
    [rounds] and seed, with the field [alpha] replaced by the nominal [alpha]
    and every other field that of the effective-share run. *)
Theorem pool_cooperative_mining_relabels_alpha
        (alpha : float) (num_pools : Z) (gamma : float) (rounds : Z)
        (seed : option Z) (g : rng_state) (k : float) :
  of_int (num_pools - 1) = Ok k ->
  let eff := max0 (sub alpha (mul f0_02 k)) in
  let run := simulate_selfish_mining eff gamma rounds seed g in
  exists res : SimulationResult.t,
    pool_cooperative_mining alpha num_pools gamma rounds seed g = Ok (res, snd run) /\
    SimulationResult.alpha res = alpha /\
    SimulationResult.alpha (fst run) = eff /\
    SimulationResult.gamma res = SimulationResult.gamma (fst run) /\
    SimulationResult.rounds res = SimulationResult.rounds (fst run) /\
    SimulationResult.attacker_blocks res = SimulationResult.attacker_blocks (fst run) /\
    SimulationResult.honest_blocks res = SimulationResult.honest_blocks (fst run) /\
    SimulationResult.block_reward res = SimulationResult.block_reward (fst run) /\
    SimulationResult.avg_tx_fee_per_block res =
    SimulationResult.avg_tx_fee_per_block (fst run).
Proof.
  intros Hk eff run.
  exists (SimulationResult.set_alpha alpha (fst run)).
  split.
  - unfold pool_cooperative_mining, effective_alpha. rewrite Hk. cbn [bind].
    fold eff. fold run. now destruct run.
  - repeat split; reflexivity.
Qed.

End Variants.

(** Three pools at a nominal share of one half: the run is made at the
    effective share [0.5 - 0.02 * 2]. *)
Lemma pool_cooperative_mining_relabels_alpha_witness :
  of_int (3 - 1) = Ok (Z2SF 2) /\
  exists res : SimulationResult.t,
    pool_cooperative_mining (G := lcg) f0_5 3 f0_5 4 (Some 1) 0
    = Ok (res, snd (simulate_selfish_mining (G := lcg)
                      (max0 (sub f0_5 (mul f0_02 (Z2SF 2)))) f0_5 4 (Some 1) 0)) /\
    SimulationResult.alpha res = f0_5.
Proof.
  split; [reflexivity|].
  destruct (pool_cooperative_mining_relabels_alpha (G := lcg) f0_5 3 f0_5 4 (Some 1) 0
              (Z2SF 2) eq_refl) as (res & Hrun & Halpha & _).
  exists res. split; [exact Hrun | exact Halpha].
Defined.

(** ** Derived ratios and their denominators *)

Lemma gtb_zero_not_zero (x : float) : gtb x zero = true -> is_zero x = false.
Proof. destruct x as [s|s| |s m e]; try reflexivity; destruct s; discriminate. Qed.

Lemma leb_zero_false_not_zero (x : float) : leb x zero = false -> is_zero x = false.
Proof. destruct x as [s|s| |s m e]; try reflexivity; destruct s; discriminate. Qed.

Lemma eqb_zero_not_gtb (x : float) : eqb x zero = true -> gtb x zero = false.
Proof.
  destruct x as [s|s| |s m e]; try reflexivity; try discriminate;
    destruct s; discriminate.
Qed.

Lemma gtb_zero_leb_false (x : float) : gtb x zero = true -> leb x zero = false.
Proof.
  destruct x as [s|s| |s m e]; try reflexivity; try discriminate;
    destruct s; try reflexivity; discriminate.
Qed.

Lemma truediv_nonzero (x y : float) :
  is_zero y = false -> truediv x y = Ok (div x y).
Proof. unfold truediv; now intros ->. Qed.

Lemma int_truediv_no_zero_division (a b : Z) :
  b <> 0 -> int_truediv a b <> Raise ZeroDivisionError.
Proof.
  intro Hb. unfold int_truediv.
  destruct (b =? 0) eqn:E; [apply Z.eqb_eq in E; contradiction|].
  destruct (div (exact a) (exact b)); discriminate.
Qed.

Lemma of_int_no_zero_division (z : Z) : of_int z <> Raise ZeroDivisionError.
Proof. unfold of_int; destruct (Z2SF z); discriminate. Qed.

Lemma to_int_no_zero_division (x : float) : to_int x <> Raise ZeroDivisionError.
Proof. destruct x; discriminate. Qed.

Lemma revenue_advantage_ok (enhanced honest : float) :
  revenue_advantage enhanced honest =
  Ok (div (sub enhanced honest) (if gtb honest zero then honest else one)).
Proof.
  unfold revenue_advantage. apply truediv_nonzero.
  destruct (gtb honest zero) eqn:E; [now apply gtb_zero_not_zero | reflexivity].
Qed.

Section DerivedRatios.

Context {G : RandomGen}.

(** An exception that is not [ZeroDivisionError] where it arises is not one
    where it propagates. *)
Ltac propagated H :=
  split; [let Hc := fresh in intro Hc; apply H; injection Hc as ->; reflexivity
         | discriminate].

(** C8. [efficiency_advantage] is [attacker_relative_reward / alpha] when
    [alpha > 0] and [0] when [alpha <= 0], and never raises
    [ZeroDivisionError]; [mev_transaction_ordering] never raises
    [ZeroDivisionError] either, and in the report it returns
    [revenue_advantage_vs_honest] is the enhanced revenue minus the honest
    revenue, divided by the honest revenue when that is positive and by [1]
    when it is zero.  The enhanced revenue is the attacker's revenue of the
    run plus [int(attacker_blocks * mev_extract_probability)] times
    [avg_mev_per_block], and the honest revenue is that of the run. *)
Theorem derived_ratios_recover_from_zero_denominators :
  (forall self : SimulationResult.t,
      (gtb (SimulationResult.alpha self) zero = true ->
       SimulationResult.efficiency_advantage self =
       (r <- SimulationResult.attacker_relative_reward self ;;
        Ok (div r (SimulationResult.alpha self)))) /\
      (leb (SimulationResult.alpha self) zero = true ->
       SimulationResult.efficiency_advantage self = Ok zero) /\
      SimulationResult.efficiency_advantage self <> Raise ZeroDivisionError) /\
  (forall (alpha mev_extract_probability avg_mev_per_block gamma : float)
          (rounds : Z) (seed : option Z) (g : rng_state),
      mev_transaction_ordering alpha mev_extract_probability avg_mev_per_block
                               gamma rounds seed g <> Raise ZeroDivisionError /\
      forall (rep : mev_report) (g' : rng_state),
        mev_transaction_ordering alpha mev_extract_probability avg_mev_per_block
                                 gamma rounds seed g = Ok (rep, g') ->
        let run := fst (simulate_selfish_mining alpha gamma rounds seed g) in
        exists (base : float) (mev_blocks : Z) (mb honest : float),
          SimulationResult.attacker_revenue_btc run = Ok base /\
          (n <- of_int (SimulationResult.attacker_blocks run) ;;
           to_int (mul n mev_extract_probability)) = Ok mev_blocks /\
          of_int mev_blocks = Ok mb /\
          SimulationResult.honest_revenue_btc run = Ok honest /\
          let enhanced := add base (mul mb avg_mev_per_block) in
          mev_extractable_blocks rep = mev_blocks /\
          total_enhanced_revenue_btc rep = enhanced /\
          mev_honest_revenue_btc rep = honest /\
          (gtb honest zero = true ->
           revenue_advantage_vs_honest rep = div (sub enhanced honest) honest) /\
          (eqb honest zero = true ->
           revenue_advantage_vs_honest rep = div (sub enhanced honest) one)).
Proof.
  split.
  - intro self. unfold SimulationResult.efficiency_advantage.
    split; [|split].
    + intro Hpos. rewrite (gtb_zero_leb_false _ Hpos).
      destruct (SimulationResult.attacker_relative_reward self); cbn [bind];
        [|reflexivity].
      apply truediv_nonzero. now apply gtb_zero_not_zero.
    + now intros ->.
    + destruct (leb (SimulationResult.alpha self) zero) eqn:Hle; [discriminate|].
      unfold SimulationResult.attacker_relative_reward.
      destruct (SimulationResult.total_blocks self =? 0) eqn:Ht; cbn [bind].
      * rewrite truediv_nonzero by now apply leb_zero_false_not_zero. discriminate.
      * apply Z.eqb_neq in Ht.
        pose proof (int_truediv_no_zero_division
                      (SimulationResult.attacker_blocks self) _ Ht) as Hdiv.
        destruct (int_truediv _ _) as [r|e]; cbn [bind].
        -- rewrite truediv_nonzero by now apply leb_zero_false_not_zero. discriminate.
        -- intro H; apply Hdiv; exact H.
  - intros alpha p avg gamma rounds seed g.
    unfold mev_transaction_ordering.
    destruct (simulate_selfish_mining alpha gamma rounds seed g) as [res g1].
    cbn [fst].
    assert (Hper : forall x, truediv x (if gtb alpha zero then alpha else f0_01)
                             = Ok (div x (if gtb alpha zero then alpha else f0_01))).
    { intro x. apply truediv_nonzero.
      destruct (gtb alpha zero) eqn:E; [now apply gtb_zero_not_zero | reflexivity]. }
    unfold SimulationResult.attacker_revenue_btc, SimulationResult.honest_revenue_btc.
    pose proof (of_int_no_zero_division (SimulationResult.attacker_blocks res)) as Ha.
    pose proof (of_int_no_zero_division (SimulationResult.honest_blocks res)) as Hh.
    destruct (of_int (SimulationResult.attacker_blocks res)) as [ab|e] eqn:Eab;
      cbn [bind]; [|propagated Ha].
    pose proof (to_int_no_zero_division (mul ab p)) as Ht.
    destruct (to_int (mul ab p)) as [mev_blocks|e] eqn:Emb;
      cbn [bind]; [|propagated Ht].
    pose proof (of_int_no_zero_division mev_blocks) as Hm.
    destruct (of_int mev_blocks) as [mb|e] eqn:Emb';
      cbn [bind]; [|propagated Hm].
    destruct (of_int (SimulationResult.honest_blocks res)) as [hb|e] eqn:Ehb;
      cbn [bind]; [|propagated Hh].
    rewrite revenue_advantage_ok, Hper. cbn [bind].
    split; [discriminate|].
    intros rep g' Hrep. injection Hrep as <- <-.
    cbn [total_enhanced_revenue_btc mev_honest_revenue_btc revenue_advantage_vs_honest
         mev_extractable_blocks].
    eexists. exists mev_blocks, mb. eexists.
    split; [reflexivity|]. split; [reflexivity|]. split; [exact Emb'|].
    split; [reflexivity|]. cbv zeta.
    split; [reflexivity|]. split; [reflexivity|]. split; [reflexivity|]. split.
    + now intros ->.
    + intro Hz. now rewrite (eqb_zero_not_gtb _ Hz).
Qed.

End DerivedRatios.

(** The MEV report of five rounds on the concrete generator: the honest
    revenue of the run is positive and is the denominator, and the enhanced
    revenue is the revenue of the run plus that of the extracted value. *)
Lemma derived_ratios_recover_from_zero_denominators_witness :
  exists (rep : mev_report) (g' : rng_state) (base mb honest : float),
    mev_transaction_ordering (G := lcg) f0_5 (dec 3 10) (dec 25 10) f0_9 5 (Some 7) 0
    = Ok (rep, g') /\
    SimulationResult.attacker_revenue_btc
      (fst (simulate_selfish_mining (G := lcg) f0_5 f0_9 5 (Some 7) 0)) = Ok base /\
    SimulationResult.honest_revenue_btc
      (fst (simulate_selfish_mining (G := lcg) f0_5 f0_9 5 (Some 7) 0)) = Ok honest /\
    of_int (mev_extractable_blocks rep) = Ok mb /\
    gtb honest zero = true /\
    revenue_advantage_vs_honest rep =
    div (sub (add base (mul mb (dec 25 10))) honest) honest.
Proof.
  destruct (proj2 (derived_ratios_recover_from_zero_denominators (G := lcg))
                  f0_5 (dec 3 10) (dec 25 10) f0_9 5 (Some 7) 0) as [_ H].
  destruct (mev_transaction_ordering (G := lcg) f0_5 (dec 3 10) (dec 25 10) f0_9 5
                                     (Some 7) 0) as [[rep g']|e] eqn:E.
  - destruct (H rep g' eq_refl)
      as (base & mev_blocks & mb & honest & Hbase & Hblocks & Hmb & Hhonest & Hrep).
    cbv zeta in Hrep. destruct Hrep as (Hext & _ & Hh & Hpos & _).
    assert (Hgt : gtb honest zero = true).
    { vm_compute in Hhonest. injection Hhonest as <-. reflexivity. }
    exists rep, g', base, mb, honest.
    split; [reflexivity|]. split; [exact Hbase|]. split; [exact Hhonest|].
    split; [rewrite Hext; exact Hmb|]. split; [exact Hgt | exact (Hpos Hgt)].
  - vm_compute in E. discriminate E.
Defined.

(** ** Conservation of the relative rewards *)

Lemma int_truediv_zero (t : Z) : 0 < t -> int_truediv 0 t = Ok zero.
Proof.
  intro Ht. unfold int_truediv. destruct (Z.eqb_spec t 0) as [E|_]; [lia|].
  destruct t as [|p|p]; try lia. reflexivity.
Qed.

Lemma int_truediv_self (t : Z) : 0 < t -> int_truediv t t = Ok one.
Proof.
  intro Ht. unfold int_truediv. destruct (Z.eqb_spec t 0) as [E|_]; [lia|].
  destruct t as [|p|p]; try lia.
  unfold div, exact. rewrite div_self. reflexivity.
Qed.

(** The two shares of a positive total, rounded, add up to the float one. *)
Lemma int_truediv_shares (a h : Z) :
  0 <= a -> 0 <= h -> 0 < a + h ->
  exists x y : float,
    int_truediv a (a + h) = Ok x /\ int_truediv h (a + h) = Ok y /\
    is_finite x = true /\ is_finite y = true /\ add x y = one.
Proof.
  intros Ha Hh Ht.
  destruct (Z.eq_dec a 0) as [-> | Hap].
  { exists zero, one. rewrite Z.add_0_l in *.
    rewrite int_truediv_zero, int_truediv_self by lia. repeat split. }
  destruct (Z.eq_dec h 0) as [-> | Hhp].
  { exists one, zero. rewrite Z.add_0_r in *.
    rewrite int_truediv_zero, int_truediv_self by lia. repeat split. }
  destruct a as [|pa|pa]; try lia. destruct h as [|ph|ph]; try lia.
  destruct (fractions_sum_to_one pa ph) as (x & y & Hx & Hy & Hfx & Hfy & Hsum).
  exists x, y.
  change (Zpos pa + Zpos ph) with (Zpos (pa + ph)).
  unfold int_truediv. change (Zpos (pa + ph) =? 0) with false. cbv iota.
  rewrite Hx, Hy.
  repeat split; try assumption.
  - destruct x; try reflexivity; discriminate.
  - destruct y; try reflexivity; discriminate.
Qed.

Section Conservation.

Context {G : RandomGen}.

Lemma honest_loop_counters (alpha : float) (rounds : Z) (seed : option Z) (g : rng_state) :
  let res := fst (simulate_all_honest alpha rounds seed g) in
  0 <= SimulationResult.attacker_blocks res /\
  0 <= SimulationResult.honest_blocks res /\
  SimulationResult.total_blocks res = Z.max 0 rounds.
Proof.
  intro res. unfold res, simulate_all_honest.
  rewrite honest_loop_tally. cbn [fst].
  unfold SimulationResult.total_blocks, SimulationResult.make;
    cbn [SimulationResult.attacker_blocks SimulationResult.honest_blocks].
  pose proof (tally_split (fun r => ltb r alpha)
                          (fst (draws (Z.to_nat rounds) (reseed seed g)))) as Hs.
  rewrite draws_length in Hs. unfold tally in *. lia.
Qed.

(** C2. For every result record, [total_blocks] is
    [attacker_blocks + honest_blocks]; when [total_blocks] is zero both
    relative rewards are the float zero, returned without any division; when
    it is positive (the two counters being non-negative, as they are in every
    result of the two simulations) both relative rewards are returned without
    an exception and their float sum is exactly one.  A run of zero rounds of
    either simulation has [total_blocks = 0] and both rewards zero. *)
Theorem relative_rewards_conservation :
  (forall self : SimulationResult.t,
      SimulationResult.total_blocks self =
      SimulationResult.attacker_blocks self + SimulationResult.honest_blocks self) /\
  (forall self : SimulationResult.t,
      SimulationResult.total_blocks self = 0 ->
      SimulationResult.attacker_relative_reward self = Ok zero /\
      SimulationResult.honest_relative_reward self = Ok zero) /\
  (forall self : SimulationResult.t,
      0 <= SimulationResult.attacker_blocks self ->
      0 <= SimulationResult.honest_blocks self ->
      0 < SimulationResult.total_blocks self ->
      exists x y : float,
        SimulationResult.attacker_relative_reward self = Ok x /\
        SimulationResult.honest_relative_reward self = Ok y /\
        add x y = one /\ eqb (add x y) one = true) /\
  (forall (alpha gamma : float) (rounds : Z) (seed : option Z) (g : rng_state)
          (res : SimulationResult.t),
      res = fst (simulate_selfish_mining alpha gamma rounds seed g) \/
      res = fst (simulate_all_honest alpha rounds seed g) ->
      (0 < SimulationResult.total_blocks res ->
       exists x y : float,
         SimulationResult.attacker_relative_reward res = Ok x /\
         SimulationResult.honest_relative_reward res = Ok y /\
         add x y = one /\ eqb (add x y) one = true) /\
      (rounds = 0 ->
       SimulationResult.total_blocks res = 0 /\
       SimulationResult.attacker_relative_reward res = Ok zero /\
       SimulationResult.honest_relative_reward res = Ok zero)).
Proof.
  assert (Hzero : forall self : SimulationResult.t,
             SimulationResult.total_blocks self = 0 ->
             SimulationResult.attacker_relative_reward self = Ok zero /\
             SimulationResult.honest_relative_reward self = Ok zero).
  { intros self Ht.
    unfold SimulationResult.attacker_relative_reward,
      SimulationResult.honest_relative_reward.
    rewrite Ht. split; reflexivity. }
  assert (Hpos : forall self : SimulationResult.t,
             0 <= SimulationResult.attacker_blocks self ->
             0 <= SimulationResult.honest_blocks self ->
             0 < SimulationResult.total_blocks self ->
             exists x y : float,
               SimulationResult.attacker_relative_reward self = Ok x /\
               SimulationResult.honest_relative_reward self = Ok y /\
               add x y = one /\ eqb (add x y) one = true).
  { intros self Ha Hh Ht.
    unfold SimulationResult.attacker_relative_reward,
      SimulationResult.honest_relative_reward.
    destruct (Z.eqb_spec (SimulationResult.total_blocks self) 0) as [E|_]; [lia|].
    unfold SimulationResult.total_blocks in *.
    destruct (int_truediv_shares _ _ Ha Hh Ht) as (x & y & Hx & Hy & _ & _ & Hsum).
    exists x, y. rewrite Hsum. repeat split; assumption. }
  split; [reflexivity|]. split; [exact Hzero|]. split; [exact Hpos|].
  intros alpha gamma rounds seed g res Hres.
  assert (Hcnt : 0 <= SimulationResult.attacker_blocks res /\
                 0 <= SimulationResult.honest_blocks res /\
                 SimulationResult.total_blocks res <= Z.max 0 rounds).
  { destruct Hres as [-> | ->].
    - apply simulate_selfish_mining_counters.
    - pose proof (honest_loop_counters alpha rounds seed g) as H. cbv zeta in H. lia. }
  destruct Hcnt as (Ha & Hh & Ht).
  split.
  - intro Hp. apply Hpos; assumption.
  - intros ->. unfold SimulationResult.total_blocks in *.
    assert (Ht0 : SimulationResult.attacker_blocks res
                  + SimulationResult.honest_blocks res = 0) by lia.
    split; [exact Ht0 | apply Hzero; exact Ht0].
Qed.

End Conservation.

(** The record of a run with one attacker block and two honest blocks. *)
Lemma relative_rewards_conservation_witness :
  let self := SimulationResult.make f0_5 f0_5 3 1 2 in
  0 <= SimulationResult.attacker_blocks self /\
  0 <= SimulationResult.honest_blocks self /\
  0 < SimulationResult.total_blocks self /\
  exists x y : float,
    SimulationResult.attacker_relative_reward self = Ok x /\
    SimulationResult.honest_relative_reward self = Ok y /\
    add x y = one /\ eqb (add x y) one = true.
Proof.
  intro self.
  assert (Ha : 0 <= SimulationResult.attacker_blocks self) by (simpl; lia).
  assert (Hh : 0 <= SimulationResult.honest_blocks self) by (simpl; lia).
  assert (Ht : 0 < SimulationResult.total_blocks self) by (cbv; reflexivity).
  split; [exact Ha | split; [exact Hh | split; [exact Ht|]]].
  exact (proj1 (proj2 (proj2 (relative_rewards_conservation (G := lcg)))) self Ha Hh Ht).
Defined.

(** With a negative counter the float sum of the two rewards can differ
    from one: the non-negativity of the counters is needed. *)
Example relative_rewards_negative_counter :
  let self := SimulationResult.make f0_5 f0_5 0 (-239) 59229 in
  exists x y : float,
    SimulationResult.attacker_relative_reward self = Ok x /\
    SimulationResult.honest_relative_reward self = Ok y /\
    eqb (add x y) one = false.
Proof.
  eexists. eexists. split; [vm_compute; reflexivity|].
  split; [vm_compute; reflexivity|]. vm_compute. reflexivity.
Qed.

(** ** The cross-chain multiplier on a single chain *)

Lemma of_int_small (z : Z) :
  0 <= z < 2 ^ 1000 ->
  exists f : float,
    of_int z = Ok f /\
    (f = zero \/
     exists m e, f = S754_finite false m e /\ Zpos (digits2_pos m) + e <= 1001).
Proof.
  intros [H0 Hlt]. destruct z as [|p|p]; try lia.
  - exists zero. split; [reflexivity | left; reflexivity].
  - assert (Hd : Zdigits2 (Zpos p) <= 1000) by (apply Zdigits2_le; lia).
    simpl Zdigits2 in Hd.
    pose proof (binary_round_shape false p 0) as H.
    unfold of_int, Z2SF. cbn [binary_normalize].
    destruct (binary_round prec emax false p 0) as [s|s| |s m e].
    + subst s. exists zero. split; [reflexivity | left; reflexivity].
    + destruct H as [_ H]. unfold emax in H. lia.
    + contradiction.
    + destruct H as (-> & _ & Hmag).
      exists (S754_finite false m e). split; [reflexivity|].
      right. exists m, e. split; [reflexivity | lia].
Qed.

(** The effective share exists for every realistic number of pools. *)
Lemma effective_alpha_defined (alpha : float) (num_pools : Z) :
  1 <= num_pools <= 2 ^ 1000 ->
  exists eff : float, effective_alpha alpha num_pools = Ok eff.
Proof.
  intro H. unfold effective_alpha.
  destruct (of_int_small (num_pools - 1) ltac:(lia)) as (k & -> & _).
  cbn [bind]. eexists; reflexivity.
Qed.

Lemma revenue_small (n : Z) :
  0 <= n < 2 ^ 1000 ->
  exists x : float,
    (k <- of_int n ;; Ok (mul k (add f6_25 f0_5))) = Ok x /\ nonneg_finite x.
Proof.
  intro Hn. destruct (of_int_small n Hn) as (f & -> & Hf). cbn [bind].
  eexists. split; [reflexivity|].
  change (add f6_25 f0_5) with (S754_finite false 7599824371187712 (-50)).
  destruct Hf as [-> | (m & e & -> & Hmag)].
  - left. reflexivity.
  - pose proof (mul_shape false false m 7599824371187712 e (-50)) as H.
    specialize (H ltac:(unfold prec; simpl; lia)).
    unfold mul. cbn [xorb] in H.
    destruct (SFmul prec emax _ _) as [s|s| |s m2 e2].
    + subst s. left. reflexivity.
    + destruct H as [_ H]. unfold emax in H. simpl digits2_pos in H. lia.
    + contradiction.
    + destruct H as (-> & Hb & _). right. exists m2, e2. split; [reflexivity | exact Hb].
Qed.

Lemma int_truediv_part_ok (a t : Z) :
  0 <= a <= t -> 0 < t -> exists x : float, int_truediv a t = Ok x.
Proof.
  intros Ha Ht.
  destruct (int_truediv_shares a (t - a) ltac:(lia) ltac:(lia) ltac:(lia))
    as (x & _ & Hx & _).
  replace (a + (t - a)) with t in Hx by lia. exists x. exact Hx.
Qed.

Lemma to_dict_small (self : SimulationResult.t) :
  0 <= SimulationResult.attacker_blocks self < 2 ^ 1000 ->
  0 <= SimulationResult.honest_blocks self < 2 ^ 1000 ->
  exists d : SimulationResult.dict, SimulationResult.to_dict self = Ok d.
Proof.
  intros Ha Hh. unfold SimulationResult.to_dict.
  assert (Harr : exists x, SimulationResult.attacker_relative_reward self = Ok x).
  { unfold SimulationResult.attacker_relative_reward, SimulationResult.total_blocks.
    destruct (Z.eqb_spec (SimulationResult.attacker_blocks self
                          + SimulationResult.honest_blocks self) 0);
      [eexists; reflexivity | apply int_truediv_part_ok; lia]. }
  assert (Hhrr : exists x, SimulationResult.honest_relative_reward self = Ok x).
  { unfold SimulationResult.honest_relative_reward, SimulationResult.total_blocks.
    destruct (Z.eqb_spec (SimulationResult.attacker_blocks self
                          + SimulationResult.honest_blocks self) 0);
      [eexists; reflexivity | apply int_truediv_part_ok; lia]. }
  destruct Harr as (arr & Harr). destruct Hhrr as (hrr & Hhrr).
  unfold SimulationResult.efficiency_advantage,
    SimulationResult.attacker_revenue_btc, SimulationResult.honest_revenue_btc.
  rewrite Harr, Hhrr. cbn [bind].
  destruct (of_int_small _ Ha) as (fa & -> & _).
  destruct (of_int_small _ Hh) as (fh & -> & _). cbn [bind].
  destruct (leb (SimulationResult.alpha self) zero) eqn:Hle; cbn [bind].
  - eexists; reflexivity.
  - rewrite truediv_nonzero by now apply leb_zero_false_not_zero.
    cbn [bind]. eexists; reflexivity.
Qed.

(** What the multiplier is made of when the two runs return the same
    revenue. *)
Lemma multiplier_of_equal_revenue (x : float) :
  nonneg_finite x ->
  mul (add zero x) (sub one (mul f0_01 zero)) = x /\
  (if gtb x zero then truediv (mul (add zero x) (sub one (mul f0_01 zero))) x
   else Ok one) = Ok one.
Proof.
  change (sub one (mul f0_01 zero)) with one.
  intros [-> | (m & e & -> & Hb)].
  - split; reflexivity.
  - change (add zero (S754_finite false m e)) with (S754_finite false m e).
    unfold mul, one. rewrite (mul_one_r false m e Hb).
    split; [reflexivity|].
    change (gtb (S754_finite false m e) zero) with true. cbv iota.
    unfold truediv. cbn [is_zero]. unfold div. rewrite div_self. reflexivity.
Qed.

Section CrossChain.

Context {G : RandomGen}.

(** C6 (amended).  On a single chain and with a seed given, the
    baseline run repeats the run of the chain, and [cross_chain_attack]
    returns a report whose [multiplier_effect] is the float one, with no
    coordination overhead and the same revenue before and after costs; the
    bound on [rounds_per_chain] keeps the revenue finite. *)
Theorem cross_chain_single_chain_seeded
        (alpha gamma : float) (rounds_per_chain s : Z) (g : rng_state) :
  rounds_per_chain < 2 ^ 1000 ->
  exists (rep : cross_chain_report) (g' : rng_state),
    cross_chain_attack alpha 1 gamma rounds_per_chain (Some s) g = Ok (rep, g') /\
    multiplier_effect (cc_revenue_comparison rep) = one /\
    coordination_overhead_percent (cc_revenue_comparison rep) = zero /\
    multi_chain_total_after_cost_btc (cc_revenue_comparison rep) =
    single_chain_btc (cc_revenue_comparison rep) /\
    multi_chain_total_before_cost_btc (cc_revenue_comparison rep) =
    single_chain_btc (cc_revenue_comparison rep).
Proof.
  intro Hrounds.
  unfold cross_chain_attack.
  change (of_int (1 - 1)) with (Ok zero). cbn [bind].
  change (Z.to_nat 1) with 1%nat. cbn [chain_loop chain_seed].
  replace (s + 0 * 1000) with s by lia.
  pose proof (simulate_selfish_mining_counters alpha gamma rounds_per_chain (Some s) g)
    as Hcnt. cbv zeta in Hcnt.
  destruct (simulate_selfish_mining alpha gamma rounds_per_chain (Some s) g)
    as [result g1] eqn:Erun.
  cbn [fst] in Hcnt. destruct Hcnt as (Ha & Hh & Hsum).
  assert (Ha' : 0 <= SimulationResult.attacker_blocks result < 2 ^ 1000) by lia.
  assert (Hh' : 0 <= SimulationResult.honest_blocks result < 2 ^ 1000) by lia.
  destruct (to_dict_small result Ha' Hh') as (d & ->). cbn [bind].
  assert (Hrev : exists x, SimulationResult.attacker_revenue_btc result = Ok x /\
                           nonneg_finite x).
  { unfold SimulationResult.attacker_revenue_btc.
    assert (Hmk : SimulationResult.block_reward result = f6_25 /\
                  SimulationResult.avg_tx_fee_per_block result = f0_5).
    { unfold simulate_selfish_mining in Erun. injection Erun as <- _.
      split; reflexivity. }
    destruct Hmk as [-> ->]. apply revenue_small. exact Ha'. }
  destruct Hrev as (x & Hx & Hnf). rewrite Hx. cbn [bind].
  rewrite (simulate_selfish_mining_seeded alpha gamma rounds_per_chain s g1 g), Erun.
  rewrite Hx. cbn [bind].
  destruct (multiplier_of_equal_revenue x Hnf) as [Heff Hmult].
  rewrite Hmult. cbn [bind].
  eexists. eexists. split; [reflexivity|].
  cbn [cc_revenue_comparison multiplier_effect coordination_overhead_percent
       multi_chain_total_after_cost_btc single_chain_btc
       multi_chain_total_before_cost_btc].
  split; [reflexivity|]. split; [reflexivity|]. split; [exact Heff|].
  destruct Hnf as [-> | (m & e & -> & _)]; reflexivity.
Qed.

End CrossChain.

Lemma cross_chain_single_chain_seeded_witness :
  3 < 2 ^ 1000 /\
  exists (rep : cross_chain_report) (g' : rng_state),
    cross_chain_attack (G := lcg) f0_5 1 f0_9 3 (Some 1) 0 = Ok (rep, g') /\
    multiplier_effect (cc_revenue_comparison rep) = one.
Proof.
  assert (H : 3 < 2 ^ 1000) by reflexivity.
  split; [exact H|].
  destruct (cross_chain_single_chain_seeded (G := lcg) f0_5 f0_9 3 1 0 H)
    as (rep & g' & Hrun & Hmult & _).
  exists rep, g'. split; [exact Hrun | exact Hmult].
Defined.

(** C6, as stated, fails without a seed: the baseline run draws on from
    where the run of the chain stopped.  At [alpha = 0.5] and three
    rounds, with the draws 0.125, 0.125, 0.125 the chain credits three blocks
    to the attacker (revenue 20.25); the baseline then draws 0.125, 0.125,
    0.875 and credits two (revenue 13.5); the multiplier is 1.5. *)
Lemma cross_chain_single_chain_unseeded_multiplier :
  exists (rep : cross_chain_report) (g' : list float),
    cross_chain_attack (G := replay) f0_5 1 f0_9 3 None
                       [f0_125; f0_125; f0_125; f0_125; f0_125; f0_875] = Ok (rep, g') /\
    multiplier_effect (cc_revenue_comparison rep) = dec 15 10 /\
    eqb (multiplier_effect (cc_revenue_comparison rep)) one = false.
Proof.
  eexists. eexists. split; [vm_compute; reflexivity|].
  split; vm_compute; reflexivity.
Qed.

(** * Further properties of the simulations and the scenarios *)

(** ** The order of the floats *)

Lemma SFcompare_rank (x y : float) :
  SFcompare x y =
  if is_nan x || is_nan y then None else Some (lex_compare (rank x) (rank y)).
Proof.
  destruct x as [sx|sx| |sx mx ex]; destruct y as [sy|sy| |sy my ey];
    try reflexivity;
    try (destruct sx; reflexivity); try (destruct sy; reflexivity);
    try (destruct sx, sy; reflexivity).
  destruct sx, sy; try reflexivity; cbn [SFcompare is_nan orb rank lex_compare].
  change (-1 ?= -1) with Eq. cbv iota.
  change (Pos.compare_cont Eq mx my) with (Pos.compare mx my).
  destruct (Z.compare_spec ex ey); destruct (Z.compare_spec (- ex) (- ey));
    try lia; reflexivity.
Qed.

Lemma lex_compare_lt_le_trans (a b c : Z * Z * Z) :
  lex_compare a b = Lt -> lex_compare b c <> Gt -> lex_compare a c = Lt.
Proof.
  destruct a as [[a1 a2] a3], b as [[b1 b2] b3], c as [[c1 c2] c3].
  unfold lex_compare.
  destruct (Z.compare_spec a1 b1); destruct (Z.compare_spec b1 c1);
    destruct (Z.compare_spec a1 c1); try lia; try congruence;
    destruct (Z.compare_spec a2 b2); destruct (Z.compare_spec b2 c2);
    destruct (Z.compare_spec a2 c2); try lia; try congruence;
    destruct (Z.compare_spec a3 b3); destruct (Z.compare_spec b3 c3);
    destruct (Z.compare_spec a3 c3); try lia; congruence.
Qed.

Lemma ltb_rank (x y : float) :
  ltb x y = true <->
  is_nan x = false /\ is_nan y = false /\ lex_compare (rank x) (rank y) = Lt.
Proof.
  unfold ltb, SFltb. rewrite SFcompare_rank.
  destruct (is_nan x), (is_nan y); cbn [orb];
    try (split; [discriminate | intros (? & ? & ?); discriminate]).
  destruct (lex_compare (rank x) (rank y));
    split; try discriminate; try (intros (_ & _ & H); discriminate H); auto.
Qed.

Lemma leb_rank (x y : float) :
  leb x y = true <->
  is_nan x = false /\ is_nan y = false /\ lex_compare (rank x) (rank y) <> Gt.
Proof.
  unfold leb, SFleb. rewrite SFcompare_rank.
  destruct (is_nan x), (is_nan y); cbn [orb];
    try (split; [discriminate | intros (? & ? & ?); discriminate]).
  destruct (lex_compare (rank x) (rank y));
    split; try discriminate; try (intros (_ & _ & H); congruence);
    intros _; repeat split; discriminate.
Qed.

(** A draw below [x] is below everything that [x] does not exceed. *)
Lemma ltb_leb_trans (r x y : float) :
  ltb r x = true -> leb x y = true -> ltb r y = true.
Proof.
  rewrite !ltb_rank, leb_rank. intros (Hr & Hx & Hlt) (_ & Hy & Hle).
  repeat split; try assumption. eapply lex_compare_lt_le_trans; eassumption.
Qed.

Lemma ltb_leb (x y : float) : ltb x y = true -> leb x y = true.
Proof.
  rewrite ltb_rank, leb_rank. intros (Hx & Hy & Hlt).
  repeat split; try assumption. congruence.
Qed.

Lemma ltb_trans (x y z : float) :
  ltb x y = true -> ltb y z = true -> ltb x z = true.
Proof. intros Hxy Hyz. eapply ltb_leb_trans; [eassumption | now apply ltb_leb]. Qed.

(** Of two floats that are not NaN, one is below the other or the other
    does not exceed it. *)
Lemma ltb_false_leb (x y : float) :
  is_nan x = false -> is_nan y = false -> ltb x y = false -> leb y x = true.
Proof.
  intros Hx Hy H. apply leb_rank. repeat split; try assumption.
  intro Hgt. assert (Hlt : ltb x y = true); [|congruence].
  apply ltb_rank. repeat split; try assumption.
  destruct (rank x) as [[a1 a2] a3], (rank y) as [[b1 b2] b3].
  unfold lex_compare in *.
  destruct (Z.compare_spec a1 b1); destruct (Z.compare_spec b1 a1); try lia;
    try congruence;
    destruct (Z.compare_spec a2 b2); destruct (Z.compare_spec b2 a2); try lia;
    try congruence;
    destruct (Z.compare_spec a3 b3); destruct (Z.compare_spec b3 a3); try lia;
    congruence.
Qed.

(** ** More on the selfish-mining loop *)

Section SelfishLoop.

Context {G : RandomGen}.

(** Every round but the one that orphans an honest block adds one to the
    counters and the lead together, and an orphaning round uses up a unit of
    lead that an earlier round has added. *)
Lemma selfish_round_orphans (alpha gamma : float) (k : Z) (st : sm_state) :
  0 <= sm_lead st /\ k <= 2 * (sm_attacker st + sm_honest st) + sm_lead st ->
  0 <= sm_lead (selfish_round alpha gamma st) /\
  k + 1 <= 2 * (sm_attacker (selfish_round alpha gamma st)
                + sm_honest (selfish_round alpha gamma st))
           + sm_lead (selfish_round alpha gamma st).
Proof.
  destruct st as [a h lead g]. unfold selfish_round.
  cbn [sm_lead sm_attacker sm_honest]. intros (Hl & Hk).
  destruct (rng_random g) as [r g1].
  destruct (ltb r alpha).
  - destruct (Z.eqb_spec lead 0); cbn [sm_lead sm_attacker sm_honest]; lia.
  - destruct (Z.eqb_spec lead 0); [cbn [sm_lead sm_attacker sm_honest]; lia|].
    destruct (Z.eqb_spec lead 1).
    + destruct (rng_random g1) as [r_fork g2].
      destruct (ltb r_fork gamma); cbn [sm_lead sm_attacker sm_honest]; lia.
    + cbn [sm_lead sm_attacker sm_honest]; lia.
Qed.

Lemma selfish_loop_orphans (alpha gamma : float) (n : nat) :
  forall (k : Z) (st : sm_state),
    0 <= sm_lead st /\ k <= 2 * (sm_attacker st + sm_honest st) + sm_lead st ->
    0 <= sm_lead (selfish_loop alpha gamma n st) /\
    k + Z.of_nat n <= 2 * (sm_attacker (selfish_loop alpha gamma n st)
                           + sm_honest (selfish_loop alpha gamma n st))
                      + sm_lead (selfish_loop alpha gamma n st).
Proof.
  induction n as [|n IH]; intros k st H.
  - cbn [selfish_loop]. change (Z.of_nat 0) with 0. lia.
  - cbn [selfish_loop].
    replace (k + Z.of_nat (S n)) with (k + 1 + Z.of_nat n) by lia.
    apply IH, selfish_round_orphans, H.
Qed.

(** X1. At most half of the rounds are lost to orphaned blocks: twice the
    number of credited blocks is at least the number of rounds. *)
Theorem simulate_selfish_mining_credits_half_the_rounds
        (alpha gamma : float) (rounds : Z) (seed : option Z) (g : rng_state) :
  rounds <= 2 * SimulationResult.total_blocks
                  (fst (simulate_selfish_mining alpha gamma rounds seed g)).
Proof.
  unfold simulate_selfish_mining; cbn [fst].
  pose proof (selfish_loop_orphans alpha gamma (Z.to_nat rounds) 0
                                   (mk_sm 0 0 0 (reseed seed g))) as H.
  specialize (H ltac:(cbn [sm_lead sm_attacker sm_honest]; lia)). destruct H as [Hl Hk].
  unfold SimulationResult.total_blocks, SimulationResult.make;
    cbn [SimulationResult.attacker_blocks SimulationResult.honest_blocks].
  unfold settle. destruct (0 <? _) eqn:Hpos; lia.
Qed.

Lemma selfish_round_gamma (alpha gamma1 gamma2 : float) (st1 st2 : sm_state) :
  leb gamma1 gamma2 = true -> gamma_related st1 st2 ->
  gamma_related (selfish_round alpha gamma1 st1) (selfish_round alpha gamma2 st2).
Proof.
  intros Hle. destruct st1 as [a1 h1 l1 g1], st2 as [a2 h2 l2 g2].
  unfold gamma_related, selfish_round; cbn [sm_lead sm_attacker sm_honest sm_rng].
  intros (Hl & Hg & Ha & Hsum). subst l2 g2.
  destruct (rng_random g1) as [r g'].
  destruct (ltb r alpha).
  - destruct (l1 =? 0); cbn [sm_lead sm_attacker sm_honest sm_rng];
      repeat split; lia.
  - destruct (l1 =? 0);
      [cbn [sm_lead sm_attacker sm_honest sm_rng]; repeat split; lia|].
    destruct (l1 =? 1);
      [|cbn [sm_lead sm_attacker sm_honest sm_rng]; repeat split; lia].
    destruct (rng_random g') as [r_fork g''].
    destruct (ltb r_fork gamma1) eqn:H1.
    + rewrite (ltb_leb_trans _ _ _ H1 Hle).
      cbn [sm_lead sm_attacker sm_honest sm_rng]; repeat split; lia.
    + destruct (ltb r_fork gamma2);
        cbn [sm_lead sm_attacker sm_honest sm_rng]; repeat split; lia.
Qed.

Lemma selfish_loop_gamma (alpha gamma1 gamma2 : float) (n : nat) :
  leb gamma1 gamma2 = true ->
  forall st1 st2, gamma_related st1 st2 ->
    gamma_related (selfish_loop alpha gamma1 n st1) (selfish_loop alpha gamma2 n st2).
Proof.
  intro Hle. induction n as [|n IH]; intros st1 st2 H; cbn [selfish_loop].
  - exact H.
  - apply IH, selfish_round_gamma; assumption.
Qed.

(** X2. On the same draws, a larger [gamma] never takes a block from the
    attacker: the number of credited blocks and the generator after the run
    do not depend on [gamma], [attacker_blocks] does not decrease with
    [gamma] and [honest_blocks] does not increase. *)
Theorem simulate_selfish_mining_monotone_in_gamma
        (alpha gamma1 gamma2 : float) (rounds : Z) (seed : option Z) (g : rng_state) :
  leb gamma1 gamma2 = true ->
  let run1 := simulate_selfish_mining alpha gamma1 rounds seed g in
  let run2 := simulate_selfish_mining alpha gamma2 rounds seed g in
  SimulationResult.attacker_blocks (fst run1)
  <= SimulationResult.attacker_blocks (fst run2) /\
  SimulationResult.honest_blocks (fst run2)
  <= SimulationResult.honest_blocks (fst run1) /\
  SimulationResult.total_blocks (fst run1) = SimulationResult.total_blocks (fst run2) /\
  snd run1 = snd run2.
Proof.
  intros Hle run1 run2. unfold run1, run2, simulate_selfish_mining; cbn [fst snd].
  pose proof (selfish_loop_gamma alpha gamma1 gamma2 (Z.to_nat rounds) Hle
                (mk_sm 0 0 0 (reseed seed g)) (mk_sm 0 0 0 (reseed seed g))) as H.
  specialize (H ltac:(unfold gamma_related; cbn [sm_lead sm_attacker sm_honest sm_rng]; repeat split; lia)).
  destruct H as (Hl & Hg & Ha & Hsum).
  unfold SimulationResult.total_blocks, SimulationResult.make;
    cbn [SimulationResult.attacker_blocks SimulationResult.honest_blocks].
  unfold settle. rewrite Hl.
  destruct (0 <? _); repeat split; try assumption; lia.
Qed.

(** The generator after [j] draws and [k] more. *)
Lemma draws_snd_add (j k : nat) :
  forall g : rng_state,
    snd (draws (j + k) g) = snd (draws k (snd (draws j g))).
Proof.
  induction j as [|j IH]; intro g; [reflexivity|].
  cbn [Nat.add draws].
  destruct (rng_random g) as [r g1].
  specialize (IH g1).
  destruct (draws (j + k) g1) as [rs g2]. destruct (draws j g1) as [rs' g2'].
  exact IH.
Qed.

(** A round takes one draw, and one more when it is a fork. *)
Lemma selfish_round_draws (alpha gamma : float) (st : sm_state) :
  sm_rng (selfish_round alpha gamma st)
  = snd (draws (1 + (if is_fork alpha st then 1 else 0)) (sm_rng st)).
Proof.
  destruct st as [a h lead g]. unfold is_fork, selfish_round.
  cbn [sm_lead sm_rng draws Nat.add].
  destruct (rng_random g) as [r g1]. cbn [fst].
  destruct (ltb r alpha); cbn [negb].
  - rewrite andb_false_r. cbn [draws snd].
    destruct (lead =? 0); reflexivity.
  - rewrite andb_true_r.
    destruct (Z.eqb_spec lead 0) as [-> | H0]; [reflexivity|].
    destruct (lead =? 1); [|reflexivity].
    cbn [draws Nat.add].
    destruct (rng_random g1) as [r_fork g2].
    destruct (ltb r_fork gamma); reflexivity.
Qed.

Lemma selfish_loop_draws (alpha gamma : float) (n : nat) :
  forall st : sm_state,
    sm_rng (selfish_loop alpha gamma n st)
    = snd (draws (n + forks alpha gamma n st) (sm_rng st)).
Proof.
  induction n as [|n IH]; intro st; [reflexivity|].
  cbn [selfish_loop forks]. rewrite IH, selfish_round_draws, <- draws_snd_add.
  f_equal. f_equal. lia.
Qed.

(** A fork ends a lead of one, and a lead of one takes a round of the
    attacker to build: two forks are at least two rounds apart. *)
Lemma forks_half (alpha gamma : float) (n : nat) :
  forall st : sm_state,
    (2 * forks alpha gamma n st
     <= n + (if (1 <=? sm_lead st)%Z then 1 else 0))%nat.
Proof.
  induction n as [|n IH]; intro st; [cbn [forks]; lia|].
  cbn [forks]. specialize (IH (selfish_round alpha gamma st)).
  destruct st as [a h lead g]. unfold is_fork, selfish_round in *.
  cbn [sm_lead sm_rng] in *.
  destruct (rng_random g) as [r g1]. cbn [fst].
  destruct (ltb r alpha); cbn [negb].
  - rewrite andb_false_r.
    destruct (Z.eqb_spec lead 0) as [-> | H0]; cbn [sm_lead] in IH.
    + destruct (Z.leb_spec 1 1); destruct (Z.leb_spec 1 0); lia.
    + destruct (Z.leb_spec 1 (lead + 1)); destruct (Z.leb_spec 1 lead); lia.
  - rewrite andb_true_r.
    destruct (Z.eqb_spec lead 0) as [-> | H0]; cbn [sm_lead] in IH.
    + destruct (Z.eqb_spec 0 1); destruct (Z.leb_spec 1 0); lia.
    + destruct (Z.eqb_spec lead 1) as [-> | H1].
      * destruct (rng_random g1) as [r_fork g2].
        destruct (ltb r_fork gamma); cbn [sm_lead] in IH;
          destruct (Z.leb_spec 1 1); destruct (Z.leb_spec 1 0); lia.
      * cbn [sm_lead] in IH.
        destruct (Z.leb_spec 1 (lead - 1)); destruct (Z.leb_spec 1 lead); lia.
Qed.

(** X3. A run takes one draw for each round and one more for each fork (a
    round that starts at a lead of one and finds an honest block), after
    seeding the generator when a seed is given: the generator it leaves is
    the one after exactly [rounds + forks] draws.  Two forks are at least
    two rounds apart, so that a run of [rounds] rounds takes at least
    [rounds] draws and at most [rounds + rounds / 2]. *)
Theorem simulate_selfish_mining_consumes_draws
        (alpha gamma : float) (rounds : Z) (seed : option Z) (g : rng_state) :
  let g0 := reseed seed g in
  let n := Z.to_nat rounds in
  let f := forks alpha gamma n (mk_sm 0 0 0 g0) in
  snd (simulate_selfish_mining alpha gamma rounds seed g)
  = snd (draws (n + f) g0) /\
  (2 * f <= n)%nat.
Proof.
  intros g0 n f. split.
  - unfold simulate_selfish_mining; cbn [snd]. fold g0. fold n.
    apply (selfish_loop_draws alpha gamma n (mk_sm 0 0 0 g0)).
  - pose proof (forks_half alpha gamma n (mk_sm 0 0 0 g0)) as H.
    cbn [sm_lead] in H. fold f in H.
    destruct (Z.leb_spec 1 0); lia.
Qed.

(** With no draw below [alpha] the lead stays at zero. *)
Lemma selfish_loop_all_honest (alpha gamma : float) (n : nat) :
  forall (a h : Z) (g : rng_state),
    forallb (fun r => negb (ltb r alpha)) (fst (draws n g)) = true ->
    selfish_loop alpha gamma n (mk_sm a h 0 g)
    = mk_sm a (h + Z.of_nat n) 0 (snd (draws n g)).
Proof.
  induction n as [|n IH]; intros a h g Hall.
  - simpl. now rewrite Z.add_0_r.
  - cbn [selfish_loop draws] in *. unfold selfish_round.
    destruct (rng_random g) as [r g1].
    specialize (IH a (h + 1) g1).
    destruct (draws n g1) as [rs g2]. cbn [fst snd forallb] in *.
    apply andb_prop in Hall. destruct Hall as [Hr Hrest].
    apply negb_true_iff in Hr. rewrite Hr. cbn [Z.eqb].
    rewrite IH by exact Hrest. f_equal. lia.
Qed.

(** With every draw below [alpha] the lead grows by one in each round. *)
Lemma selfish_loop_all_attacker (alpha gamma : float) (n : nat) :
  forall (a h lead : Z) (g : rng_state),
    0 <= lead ->
    forallb (fun r => ltb r alpha) (fst (draws n g)) = true ->
    selfish_loop alpha gamma n (mk_sm a h lead g)
    = mk_sm a h (lead + Z.of_nat n) (snd (draws n g)).
Proof.
  induction n as [|n IH]; intros a h lead g Hlead Hall.
  - simpl. now rewrite Z.add_0_r.
  - cbn [selfish_loop draws] in *. unfold selfish_round.
    destruct (rng_random g) as [r g1].
    pose proof (IH a h (lead + 1) g1) as IH1.
    pose proof (IH a h 1 g1) as IH0. clear IH.
    destruct (draws n g1) as [rs g2]. cbn [fst snd forallb] in *.
    apply andb_prop in Hall. destruct Hall as [Hr Hrest]. rewrite Hr.
    destruct (Z.eqb_spec lead 0) as [-> | Hne].
    + rewrite (IH0 ltac:(lia) Hrest). f_equal. lia.
    + rewrite (IH1 ltac:(lia) Hrest). f_equal. lia.
Qed.

(** X4. When none of the [rounds] draws of a run is below [alpha] (as for
    [alpha = 0] and for a NaN), selfish mining is honest mining: no block is
    credited to the attacker, every round credits an honest block, and the
    counters and the generator are those of [simulate_all_honest]. *)
Theorem simulate_selfish_mining_without_attacker_draw
        (alpha gamma : float) (rounds : Z) (seed : option Z) (g : rng_state) :
  forallb (fun r => negb (ltb r alpha))
          (fst (draws (Z.to_nat rounds) (reseed seed g))) = true ->
  let run := simulate_selfish_mining alpha gamma rounds seed g in
  let honest := simulate_all_honest alpha rounds seed g in
  SimulationResult.attacker_blocks (fst run) = 0 /\
  SimulationResult.honest_blocks (fst run) = Z.max 0 rounds /\
  SimulationResult.attacker_blocks (fst honest) = 0 /\
  SimulationResult.honest_blocks (fst honest) = Z.max 0 rounds /\
  snd run = snd honest.
Proof.
  intros Hall run honest.
  unfold run, honest, simulate_selfish_mining, simulate_all_honest.
  rewrite (selfish_loop_all_honest alpha gamma _ 0 0 _ Hall).
  rewrite honest_loop_tally. cbn [fst snd].
  unfold SimulationResult.make;
    cbn [SimulationResult.attacker_blocks SimulationResult.honest_blocks settle
         sm_attacker sm_lead sm_honest sm_rng].
  pose proof (tally_split (fun r => ltb r alpha)
                          (fst (draws (Z.to_nat rounds) (reseed seed g)))) as Hs.
  rewrite draws_length in Hs.
  assert (Ht : tally (fun r => ltb r alpha)
                     (fst (draws (Z.to_nat rounds) (reseed seed g))) = 0).
  { unfold tally. clear Hs.
    induction (fst (draws (Z.to_nat rounds) (reseed seed g))) as [|r rs IH];
      [reflexivity|].
    cbn [forallb] in Hall. apply andb_prop in Hall. destruct Hall as [Hr Hrest].
    apply negb_true_iff in Hr. cbn [filter]. rewrite Hr. exact (IH Hrest). }
  rewrite Ht in *. repeat split; lia.
Qed.

(** X5. When every one of the [rounds] draws of a run is below [alpha] (as
    for [alpha = 1] with draws in [[0, 1)]), the attacker never publishes
    before the end: the settlement credits one block for each round and the
    honest pool gets none. *)
Theorem simulate_selfish_mining_with_attacker_draws_only
        (alpha gamma : float) (rounds : Z) (seed : option Z) (g : rng_state) :
  forallb (fun r => ltb r alpha)
          (fst (draws (Z.to_nat rounds) (reseed seed g))) = true ->
  let run := simulate_selfish_mining alpha gamma rounds seed g in
  SimulationResult.attacker_blocks (fst run) = Z.max 0 rounds /\
  SimulationResult.honest_blocks (fst run) = 0 /\
  snd run = snd (draws (Z.to_nat rounds) (reseed seed g)).
Proof.
  intros Hall run. unfold run, simulate_selfish_mining.
  rewrite (selfish_loop_all_attacker alpha gamma _ 0 0 0 _ ltac:(lia) Hall).
  cbn [fst snd].
  unfold SimulationResult.make;
    cbn [SimulationResult.attacker_blocks SimulationResult.honest_blocks sm_honest
         sm_rng].
  unfold settle; cbn [sm_attacker sm_lead].
  destruct (0 <? 0 + Z.of_nat (Z.to_nat rounds)) eqn:E;
    [apply Z.ltb_lt in E | apply Z.ltb_ge in E]; repeat split; lia.
Qed.

End SelfishLoop.

Lemma simulate_selfish_mining_monotone_in_gamma_witness :
  leb f0_5 f0_9 = true /\
  SimulationResult.attacker_blocks
    (fst (simulate_selfish_mining (G := lcg) f0_5 f0_5 5 (Some 7) 0))
  <= SimulationResult.attacker_blocks
       (fst (simulate_selfish_mining (G := lcg) f0_5 f0_9 5 (Some 7) 0)).
Proof.
  split; [reflexivity|].
  exact (proj1 (simulate_selfish_mining_monotone_in_gamma
                  (G := lcg) f0_5 f0_5 f0_9 5 (Some 7) 0 eq_refl)).
Defined.

Lemma simulate_selfish_mining_without_attacker_draw_witness :
  SimulationResult.honest_blocks
    (fst (simulate_selfish_mining (G := replay) zero f0_9 2 None [f0_125; f0_875]))
  = Z.max 0 2.
Proof.
  exact (proj1 (proj2 (simulate_selfish_mining_without_attacker_draw
                         (G := replay) zero f0_9 2 None [f0_125; f0_875] eq_refl))).
Defined.

Lemma simulate_selfish_mining_with_attacker_draws_only_witness :
  SimulationResult.attacker_blocks
    (fst (simulate_selfish_mining (G := replay) one f0_9 2 None [f0_125; f0_875]))
  = Z.max 0 2.
Proof.
  exact (proj1 (simulate_selfish_mining_with_attacker_draws_only
                  (G := replay) one f0_9 2 None [f0_125; f0_875] eq_refl)).
Defined.

(** ** The shares and the dict of a result *)

(** A float of the format that stands for [m1 * 2 ^ e1] with
    [m1 <= 2 ^ (- e1)] lies between the floats zero and one. *)
Lemma represents_unit (x : float) (e1 m1 : Z) :
  represents x e1 m1 -> -1074 <= e1 <= -53 -> m1 <= 2 ^ (- e1) ->
  leb zero x = true /\ leb x one = true.
Proof.
  intros Hx He Hm. destruct x as [s|s| |s m e]; try contradiction.
  - destruct Hx as [-> _]. split; reflexivity.
  - destruct Hx as (-> & Hb & Hle & Hv).
    split; [reflexivity|].
    apply leb_rank. repeat split; try reflexivity.
    unfold one; cbn [rank lex_compare]. change (1 ?= 1) with Eq. cbv iota.
    destruct (bounded_digits m e Hb) as [_ Hd].
    assert (HP : 0 < 2 ^ (e - e1)) by (apply Z.pow_pos_nonneg; lia).
    destruct (Z.compare_spec e (-52)) as [E | E | E]; [| discriminate |].
    + subst e. specialize (Hd ltac:(lia)).
      replace (- e1) with (52 + (-52 - e1)) in Hm by lia.
      rewrite Z.pow_add_r in Hm by lia.
      assert (Zpos m <= 2 ^ 52).
      { apply (Z.mul_le_mono_pos_r _ _ (2 ^ (-52 - e1))); [exact HP | lia]. }
      change (2 ^ 52) with 4503599627370496 in H.
      destruct (Z.compare_spec (Zpos m) 4503599627370496); try discriminate; lia.
    + exfalso. specialize (Hd ltac:(lia)).
      replace (e - e1) with ((e + 51) + 1 + (-52 - e1)) in Hv by lia.
      replace (- e1) with (52 + (-52 - e1)) in Hm by lia.
      rewrite Z.pow_add_r in Hv, Hm by lia.
      rewrite (Z.pow_add_r 2 (e + 51) 1) in Hv by lia.
      assert (H0 : 0 < 2 ^ (-52 - e1)) by (apply Z.pow_pos_nonneg; lia).
      assert (H1 : 1 <= 2 ^ (e + 51)) by (apply (Z.pow_le_mono_r 2 0); lia).
      change (2 ^ 1) with 2 in Hv.
      assert (H2 : Zpos m * (2 ^ (e + 51) * 2) <= 2 ^ 52).
      { apply (Z.mul_le_mono_pos_r _ _ (2 ^ (-52 - e1))); [exact H0 | lia]. }
      assert (H3 : Zpos m * 2 <= Zpos m * (2 ^ (e + 51) * 2)).
      { apply Z.mul_le_mono_nonneg_l; lia. }
      lia.
Qed.

(** A share of a total is a float between zero and one. *)
Lemma int_truediv_unit (a t : Z) :
  0 <= a <= t -> 0 < t ->
  exists x : float,
    int_truediv a t = Ok x /\ leb zero x = true /\ leb x one = true.
Proof.
  intros Ha Ht.
  destruct (Z.eq_dec a 0) as [-> | Ha0].
  { exists zero. rewrite int_truediv_zero by lia. repeat split. }
  destruct (Z.eq_dec a t) as [-> | Hat].
  { exists one. rewrite int_truediv_self by lia. repeat split. }
  destruct a as [|pa|pa]; try lia. destruct t as [|pt|pt]; try lia.
  destruct (div_fraction pa pt ltac:(lia)) as (e1 & m1 & He & _ & _ & Herr & Hr).
  assert (Hm : m1 <= 2 ^ (- e1)).
  { assert (HP : 0 < 2 ^ (- e1)) by (apply Z.pow_pos_nonneg; lia).
    set (P := 2 ^ (- e1)) in *.
    destruct (Z_le_gt_dec m1 P) as [Hle | Hgt]; [exact Hle | exfalso].
    assert (H1 : (P + 1) * Zpos pt <= m1 * Zpos pt)
      by (apply Z.mul_le_mono_nonneg_r; lia).
    assert (H2 : Zpos pa * P <= (Zpos pt - 1) * P)
      by (apply Z.mul_le_mono_nonneg_r; lia).
    lia. }
  destruct (represents_unit _ _ _ Hr ltac:(lia) Hm) as [H0 H1].
  exists (div (exact (Zpos pa)) (exact (Zpos pt))).
  unfold int_truediv. change (Zpos pt =? 0) with false. cbv iota.
  split; [|split; assumption].
  destruct (div (exact (Zpos pa)) (exact (Zpos pt))); try reflexivity; contradiction.
Qed.

(** X6. The two relative rewards of a record with non-negative counters are
    floats between 0.0 and 1.0 (so neither an infinity nor a NaN), and
    computing them raises nothing. *)
Theorem relative_rewards_in_unit_interval (self : SimulationResult.t) :
  0 <= SimulationResult.attacker_blocks self ->
  0 <= SimulationResult.honest_blocks self ->
  exists x y : float,
    SimulationResult.attacker_relative_reward self = Ok x /\
    SimulationResult.honest_relative_reward self = Ok y /\
    leb zero x = true /\ leb x one = true /\
    leb zero y = true /\ leb y one = true.
Proof.
  intros Ha Hh.
  unfold SimulationResult.attacker_relative_reward,
    SimulationResult.honest_relative_reward, SimulationResult.total_blocks.
  destruct (Z.eqb_spec (SimulationResult.attacker_blocks self
                        + SimulationResult.honest_blocks self) 0) as [E | E].
  - exists zero, zero. repeat split.
  - destruct (int_truediv_unit (SimulationResult.attacker_blocks self)
                (SimulationResult.attacker_blocks self
                 + SimulationResult.honest_blocks self) ltac:(lia) ltac:(lia))
      as (x & Hx & Hx0 & Hx1).
    destruct (int_truediv_unit (SimulationResult.honest_blocks self)
                (SimulationResult.attacker_blocks self
                 + SimulationResult.honest_blocks self) ltac:(lia) ltac:(lia))
      as (y & Hy & Hy0 & Hy1).
    exists x, y. repeat split; assumption.
Qed.

Lemma relative_rewards_in_unit_interval_witness :
  let self := SimulationResult.make f0_5 f0_5 3 1 2 in
  0 <= SimulationResult.attacker_blocks self /\
  0 <= SimulationResult.honest_blocks self /\
  exists x y : float,
    SimulationResult.attacker_relative_reward self = Ok x /\
    SimulationResult.honest_relative_reward self = Ok y /\
    leb zero x = true /\ leb x one = true /\
    leb zero y = true /\ leb y one = true.
Proof.
  intro self.
  assert (Ha : 0 <= SimulationResult.attacker_blocks self) by (cbv; discriminate).
  assert (Hh : 0 <= SimulationResult.honest_blocks self) by (cbv; discriminate).
  split; [exact Ha | split; [exact Hh|]].
  exact (relative_rewards_in_unit_interval self Ha Hh).
Defined.

(** What [to_dict] returns is what the properties of the record return. *)
Lemma to_dict_fields (self : SimulationResult.t) (d : SimulationResult.dict) :
  SimulationResult.to_dict self = Ok d ->
  SimulationResult.attacker_relative_reward self
  = Ok (SimulationResult.d_attacker_relative_reward d) /\
  SimulationResult.honest_relative_reward self
  = Ok (SimulationResult.d_honest_relative_reward d) /\
  SimulationResult.attacker_revenue_btc self
  = Ok (SimulationResult.d_attacker_revenue_btc d) /\
  SimulationResult.honest_revenue_btc self
  = Ok (SimulationResult.d_honest_revenue_btc d) /\
  SimulationResult.efficiency_advantage self
  = Ok (SimulationResult.d_efficiency_advantage d) /\
  SimulationResult.d_alpha d = SimulationResult.alpha self /\
  SimulationResult.d_attacker_blocks d = SimulationResult.attacker_blocks self /\
  SimulationResult.d_honest_blocks d = SimulationResult.honest_blocks self.
Proof.
  unfold SimulationResult.to_dict. intro Hd.
  destruct (SimulationResult.attacker_relative_reward self); [|discriminate].
  destruct (SimulationResult.honest_relative_reward self); [|discriminate].
  destruct (SimulationResult.attacker_revenue_btc self); [|discriminate].
  destruct (SimulationResult.honest_revenue_btc self); [|discriminate].
  destruct (SimulationResult.efficiency_advantage self); [|discriminate].
  cbn [bind] in Hd. injection Hd as <-. repeat split.
Qed.

Section Dicts.

Context {G : RandomGen}.

Lemma simulate_selfish_mining_to_dict
      (alpha gamma : float) (rounds : Z) (seed : option Z) (g : rng_state) :
  rounds < 2 ^ 1000 ->
  exists d : SimulationResult.dict,
    SimulationResult.to_dict
      (fst (simulate_selfish_mining alpha gamma rounds seed g)) = Ok d.
Proof.
  intro Hr.
  assert (Hmax : Z.max 0 rounds < 2 ^ 1000).
  { assert (0 < 2 ^ 1000) by (apply Z.pow_pos_nonneg; lia). lia. }
  pose proof (simulate_selfish_mining_counters alpha gamma rounds seed g) as H.
  cbv zeta in H. destruct H as (Ha & Hh & Hsum).
  apply to_dict_small; lia.
Qed.

Lemma simulate_all_honest_to_dict
      (alpha : float) (rounds : Z) (seed : option Z) (g : rng_state) :
  rounds < 2 ^ 1000 ->
  exists d : SimulationResult.dict,
    SimulationResult.to_dict (fst (simulate_all_honest alpha rounds seed g)) = Ok d.
Proof.
  intro Hr.
  assert (Hmax : Z.max 0 rounds < 2 ^ 1000).
  { assert (0 < 2 ^ 1000) by (apply Z.pow_pos_nonneg; lia). lia. }
  pose proof (honest_loop_counters alpha rounds seed g) as H.
  cbv zeta in H. destruct H as (Ha & Hh & Hsum).
  unfold SimulationResult.total_blocks in Hsum.
  apply to_dict_small; lia.
Qed.

(** X7. The dict of a simulation result is always there: for every share,
    [gamma], seed and generator and every number of rounds below [2 ^ 1000],
    [to_dict] raises nothing on the result of [simulate_selfish_mining] and
    on that of [simulate_all_honest], and the dict carries the counters of
    the result. *)
Theorem to_dict_of_simulation_returns
        (alpha gamma : float) (rounds : Z) (seed : option Z) (g : rng_state) :
  rounds < 2 ^ 1000 ->
  (exists d : SimulationResult.dict,
      SimulationResult.to_dict
        (fst (simulate_selfish_mining alpha gamma rounds seed g)) = Ok d /\
      SimulationResult.d_attacker_blocks d + SimulationResult.d_honest_blocks d
      <= Z.max 0 rounds) /\
  (exists d : SimulationResult.dict,
      SimulationResult.to_dict (fst (simulate_all_honest alpha rounds seed g)) = Ok d /\
      SimulationResult.d_attacker_blocks d + SimulationResult.d_honest_blocks d
      = Z.max 0 rounds).
Proof.
  intro Hr. split.
  - destruct (simulate_selfish_mining_to_dict alpha gamma rounds seed g Hr) as (d & Hd).
    exists d. split; [exact Hd|].
    destruct (to_dict_fields _ _ Hd) as (_ & _ & _ & _ & _ & _ & -> & ->).
    apply (simulate_selfish_mining_counters alpha gamma rounds seed g).
  - destruct (simulate_all_honest_to_dict alpha rounds seed g Hr) as (d & Hd).
    exists d. split; [exact Hd|].
    destruct (to_dict_fields _ _ Hd) as (_ & _ & _ & _ & _ & _ & -> & ->).
    apply (honest_loop_counters alpha rounds seed g).
Qed.

End Dicts.

Lemma to_dict_of_simulation_returns_witness :
  5 < 2 ^ 1000 /\
  exists d : SimulationResult.dict,
    SimulationResult.to_dict
      (fst (simulate_selfish_mining (G := lcg) f0_5 f0_5 5 (Some 7) 0)) = Ok d /\
    SimulationResult.d_attacker_blocks d + SimulationResult.d_honest_blocks d
    <= Z.max 0 5.
Proof.
  assert (H : 5 < 2 ^ 1000) by reflexivity.
  split; [exact H|].
  exact (proj1 (to_dict_of_simulation_returns (G := lcg) f0_5 f0_5 5 (Some 7) 0 H)).
Defined.

(** ** The hardware and the timing scenario *)

Lemma leb_refl_finite (x : float) : is_nan x = false -> leb x x = true.
Proof.
  intro Hx. apply leb_rank. repeat split; try assumption.
  destruct (rank x) as [[a b] c]. unfold lex_compare.
  rewrite !Z.compare_refl. discriminate.
Qed.

Lemma py_min_le (c x : float) : is_nan c = false -> leb (py_min c x) c = true.
Proof.
  intro Hc. unfold py_min. destruct (ltb x c) eqn:E.
  - now apply ltb_leb.
  - now apply leb_refl_finite.
Qed.

Lemma py_max_ge (c x : float) : is_nan c = false -> leb c (py_max c x) = true.
Proof.
  intro Hc. unfold py_max. destruct (ltb c x) eqn:E.
  - now apply ltb_leb.
  - now apply leb_refl_finite.
Qed.

(** The clamps of [gamma_effective]. *)
Lemma effective_gamma_bounds (d : float) :
  leb f0_5 (effective_gamma d) = true /\ leb (effective_gamma d) one = true.
Proof.
  unfold effective_gamma. split; [now apply py_max_ge|].
  set (y := py_min one _).
  assert (Hy : leb y one = true) by (now apply py_min_le).
  unfold py_max. destruct (ltb f0_5 y); [exact Hy | reflexivity].
Qed.

Lemma effective_gamma_saturates (d : float) :
  ltb d one = false -> effective_gamma d = f0_5.
Proof. intro H. unfold effective_gamma. unfold py_min at 2. rewrite H. reflexivity. Qed.

Lemma truediv_error (x y : float) (e : py_exn) :
  truediv x y = Raise e -> e = ZeroDivisionError.
Proof. unfold truediv. destruct (is_zero y); [congruence | discriminate]. Qed.

(** The quotient of the float zero by a positive float is the float zero. *)
Lemma div_zero_positive (alpha : float) :
  gtb alpha zero = true -> div zero alpha = zero.
Proof.
  destruct alpha as [s|s| |s m e]; try discriminate;
    destruct s; try discriminate; reflexivity.
Qed.

Section Hardware.

Context {G : RandomGen}.


(** The efficiency of a result with a positive share is there. *)
Lemma efficiency_advantage_returns (self : SimulationResult.t) :
  0 <= SimulationResult.attacker_blocks self ->
  0 <= SimulationResult.honest_blocks self ->
  exists x : float, SimulationResult.efficiency_advantage self = Ok x.
Proof.
  intros Ha Hh. unfold SimulationResult.efficiency_advantage.
  destruct (leb (SimulationResult.alpha self) zero) eqn:E; [eexists; reflexivity|].
  assert (Harr : exists r, SimulationResult.attacker_relative_reward self = Ok r).
  { unfold SimulationResult.attacker_relative_reward, SimulationResult.total_blocks.
    destruct (Z.eqb_spec (SimulationResult.attacker_blocks self
                          + SimulationResult.honest_blocks self) 0);
      [eexists; reflexivity | apply int_truediv_part_ok; lia]. }
  destruct Harr as (r & ->). cbn [bind].
  rewrite truediv_nonzero by (now apply leb_zero_false_not_zero).
  eexists; reflexivity.
Qed.


(** X9. With a multiplier that is zero, [asic_miner_advantage] raises
    [ZeroDivisionError] for every other argument: at the effective share
    when its denominator is zero too, and at [1.0 / asic_multiplier]
    otherwise, after both simulations have run. *)
Theorem asic_miner_advantage_zero_multiplier
        (alpha_computation multiplier gamma : float) (rounds : Z)
        (seed : option Z) (g : rng_state) :
  is_zero multiplier = true ->
  asic_miner_advantage alpha_computation multiplier gamma rounds seed g
  = Raise ZeroDivisionError.
Proof.
  intro Hm. unfold asic_miner_advantage.
  destruct (truediv (mul alpha_computation multiplier) _) as [ratio | e] eqn:E.
  - cbn [bind].
    destruct (simulate_all_honest _ rounds seed g) as [honest_baseline g1].
    destruct (simulate_selfish_mining _ gamma rounds seed g1) as [attacker_result g2].
    unfold truediv at 1. rewrite Hm. reflexivity.
  - apply truediv_error in E. subst e. reflexivity.
Qed.

(** X10. When [timing_optimization_attack] returns, the [gamma] of its run
    is between 0.5 and 1.0 whatever the delay and the block time are
    (negative, infinite, or such that their ratio is a NaN), and it is 0.5
    when the delay ratio is not below one. *)
Theorem timing_optimization_attack_gamma_effective
        (alpha delay block_time gamma : float) (rounds : Z)
        (seed : option Z) (g : rng_state) (rep : timing_report) (g' : rng_state) :
  timing_optimization_attack alpha delay block_time gamma rounds seed g
  = Ok (rep, g') ->
  leb f0_5 (gamma_effective rep) = true /\
  leb (gamma_effective rep) one = true /\
  (ltb (delay_ratio rep) one = false -> gamma_effective rep = f0_5) /\
  delay_ratio rep = div delay (mul block_time f1000).
Proof.
  unfold timing_optimization_attack. unfold truediv at 1.
  destruct (is_zero (mul block_time f1000)); [discriminate|]. cbn [bind].
  set (d := div delay (mul block_time f1000)).
  destruct (simulate_selfish_mining alpha (effective_gamma d) rounds seed g)
    as [attacker_result g1].
  destruct (simulate_all_honest alpha rounds seed g1) as [honest_result g2].
  destruct (SimulationResult.efficiency_advantage attacker_result); [|discriminate].
  cbn [bind].
  destruct (baseline_ratio alpha honest_result); [|discriminate]. cbn [bind].
  destruct (truediv a a0); [|discriminate]. cbn [bind].
  destruct (SimulationResult.attacker_revenue_btc attacker_result); [|discriminate].
  destruct (SimulationResult.attacker_revenue_btc honest_result); [|discriminate].
  cbn [bind]. intro H. injection H as <- _.
  cbn [gamma_effective delay_ratio].
  destruct (effective_gamma_bounds d) as [H0 H1].
  repeat split; try assumption. apply effective_gamma_saturates.
Qed.

(** X11. [timing_optimization_attack] divides by the baseline ratio without
    a guard: for a positive share and a block time that is not zero, it
    raises [ZeroDivisionError] whenever the honest baseline credits no block
    to the attacker (as for [rounds <= 0], or a small share on few
    rounds). *)
Theorem timing_optimization_attack_zero_baseline
        (alpha delay block_time gamma : float) (rounds : Z)
        (seed : option Z) (g : rng_state) :
  gtb alpha zero = true ->
  is_zero (mul block_time f1000) = false ->
  SimulationResult.attacker_blocks
    (fst (simulate_all_honest alpha rounds seed
            (snd (simulate_selfish_mining
                    alpha (effective_gamma (div delay (mul block_time f1000)))
                    rounds seed g)))) = 0 ->
  timing_optimization_attack alpha delay block_time gamma rounds seed g
  = Raise ZeroDivisionError.
Proof.
  intros Halpha Hblock. unfold timing_optimization_attack.
  rewrite (truediv_nonzero _ _ Hblock). cbn [bind].
  set (d := div delay (mul block_time f1000)).
  pose proof (simulate_selfish_mining_counters alpha (effective_gamma d) rounds seed g)
    as Hc. cbv zeta in Hc. destruct Hc as (Ha & Hh & _).
  destruct (simulate_selfish_mining alpha (effective_gamma d) rounds seed g)
    as [attacker_result g1]. cbn [fst snd] in *.
  pose proof (honest_loop_counters alpha rounds seed g1) as Hc.
  cbv zeta in Hc. destruct Hc as (_ & Hhh & _).
  destruct (simulate_all_honest alpha rounds seed g1) as [honest_result g2].
  cbn [fst] in *. intro Hzero.
  destruct (efficiency_advantage_returns attacker_result Ha Hh) as (eff & ->).
  cbn [bind]. unfold baseline_ratio. rewrite Halpha.
  assert (Harr : SimulationResult.attacker_relative_reward honest_result = Ok zero).
  { unfold SimulationResult.attacker_relative_reward, SimulationResult.total_blocks.
    rewrite Hzero.
    destruct (Z.eqb_spec (0 + SimulationResult.honest_blocks honest_result) 0);
      [reflexivity | apply int_truediv_zero; lia]. }
  rewrite Harr. cbn [bind].
  rewrite (truediv_nonzero _ _ (gtb_zero_not_zero _ Halpha)). cbn [bind].
  rewrite (div_zero_positive _ Halpha). reflexivity.
Qed.

End Hardware.


Lemma asic_miner_advantage_zero_multiplier_witness :
  asic_miner_advantage (G := lcg) f0_5 zero f0_9 5 (Some 7) 0 = Raise ZeroDivisionError.
Proof.
  exact (asic_miner_advantage_zero_multiplier (G := lcg) f0_5 zero f0_9 5 (Some 7) 0
                                              eq_refl).
Defined.

Lemma timing_optimization_attack_gamma_effective_witness :
  exists (rep : timing_report) (g' : rng_state),
    timing_optimization_attack (G := lcg) f0_5 f100 (Z2SF 600) f0_9 5 (Some 7) 0
    = Ok (rep, g') /\
    leb f0_5 (gamma_effective rep) = true /\ leb (gamma_effective rep) one = true.
Proof.
  destruct (timing_optimization_attack (G := lcg) f0_5 f100 (Z2SF 600) f0_9 5 (Some 7) 0)
    as [[rep g'] | e] eqn:E.
  - exists rep, g'. split; [reflexivity|].
    destruct (timing_optimization_attack_gamma_effective
                (G := lcg) f0_5 f100 (Z2SF 600) f0_9 5 (Some 7) 0 rep g' E)
      as (H0 & H1 & _).
    split; assumption.
  - vm_compute in E. discriminate E.
Defined.

Lemma timing_optimization_attack_zero_baseline_witness :
  timing_optimization_attack (G := replay) f0_5 f100 (Z2SF 600) f0_9 2 None
                             [f0_875; f0_875; f0_875; f0_875]
  = Raise ZeroDivisionError.
Proof.
  exact (timing_optimization_attack_zero_baseline
           (G := replay) f0_5 f100 (Z2SF 600) f0_9 2 None
           [f0_875; f0_875; f0_875; f0_875] eq_refl eq_refl eq_refl).
Defined.

(** ** The parameter sweep and the comparison of the defences *)

Lemma above_refl (x : float) : above x x.
Proof. left; reflexivity. Qed.

Lemma above_trans (x y z : float) : above x y -> above y z -> above x z.
Proof.
  intros [-> | Hxy] [-> | Hyz]; try (left; reflexivity); try (right; assumption).
  right. eapply ltb_trans; eassumption.
Qed.

Lemma above_not_exceeded (x y v : float) :
  above x y -> ltb x v = false -> ltb y v = false.
Proof.
  intros [-> | Hxy] Hv; [exact Hv|].
  destruct (ltb y v) eqn:E; [|reflexivity].
  rewrite (ltb_trans _ _ _ Hxy E) in Hv. discriminate.
Qed.

Lemma ltb_irrefl (x : float) : ltb x x = false.
Proof.
  destruct (ltb x x) eqn:E; [|reflexivity].
  apply ltb_rank in E. destruct E as (_ & _ & E).
  destruct (rank x) as [[a b] c]. unfold lex_compare in E.
  rewrite !Z.compare_refl in E. discriminate.
Qed.

Section Sweep.

Context {G : RandomGen}.

(** A seeded pair of runs does not read the generator it is given. *)
Lemma simulate_selfish_with_defense_seeded_runs
      (alpha gamma_attack gamma_defense : float) (rounds s : Z) (g g0 : rng_state) :
  simulate_selfish_with_defense alpha gamma_attack gamma_defense rounds true (Some s) g
  = (fst (simulate_selfish_mining alpha gamma_attack rounds (Some s) g0),
     fst (simulate_selfish_mining alpha gamma_defense rounds (Some (s + 1)) g0),
     snd (simulate_selfish_mining alpha gamma_defense rounds (Some (s + 1)) g0)).
Proof. reflexivity. Qed.

Lemma sweep_loop_inv (gamma_attack gamma_defense : float) (rounds : Z)
      (g0 : rng_state) (alphas : list float) :
  forall (results : list sweep_entry) (mx opt : float) (g : rng_state)
         (results' : list sweep_entry) (mx' opt' : float) (g' : rng_state),
    sweep_loop gamma_attack gamma_defense rounds alphas results mx opt g
    = Ok (results', mx', opt', g') ->
    exists new : list sweep_entry,
      results' = results ++ new /\
      map sweep_alpha new = alphas /\
      Forall (entry_of_runs gamma_attack gamma_defense rounds g0) new /\
      Forall (fun e => ltb mx' (efficiency_gain e) = false) new /\
      ((mx' = mx /\ opt' = opt) \/
       (ltb mx mx' = true /\
        exists e, In e new /\ sweep_alpha e = opt' /\ efficiency_gain e = mx')).
Proof.
  induction alphas as [|alpha rest IH]; intros results mx opt g results' mx' opt' g' H.
  - cbn [sweep_loop] in H. injection H as <- <- <- <-.
    exists []. rewrite app_nil_r.
    split; [reflexivity | split; [reflexivity|]].
    split; [constructor | split; [constructor|]].
    left; split; reflexivity.
  - cbn [sweep_loop] in H.
    destruct (to_int (mul alpha f1000)) as [s|] eqn:Hs; [|discriminate].
    cbn [bind] in H.
    rewrite (simulate_selfish_with_defense_seeded_runs _ _ _ _ _ g g0) in H.
    set (no_defense := fst (simulate_selfish_mining alpha gamma_attack rounds
                                                    (Some s) g0)) in *.
    set (with_defense := fst (simulate_selfish_mining alpha gamma_defense rounds
                                                      (Some (s + 1)) g0)) in *.
    set (g1 := snd (simulate_selfish_mining alpha gamma_defense rounds
                                            (Some (s + 1)) g0)) in *.
    destruct (SimulationResult.attacker_revenue_btc no_defense) as [arev|];
      [|discriminate].
    destruct (of_int (SimulationResult.total_blocks no_defense)) as [tb|];
      [|discriminate].
    destruct (SimulationResult.efficiency_advantage no_defense) as [gain|] eqn:Hgain;
      [|discriminate].
    destruct (SimulationResult.to_dict no_defense) as [nd|] eqn:Hnd; [|discriminate].
    destruct (SimulationResult.to_dict with_defense) as [wd|] eqn:Hwd; [|discriminate].
    cbn [bind] in H.
    set (entry := mk_entry alpha nd wd _ gain) in H.
    assert (Hentry : entry_of_runs gamma_attack gamma_defense rounds g0 entry).
    { exists s. cbn [entry sweep_alpha sweep_no_defense sweep_with_defense
                     efficiency_gain].
      repeat split; try assumption.
      destruct (to_dict_fields _ _ Hnd) as (_ & _ & _ & _ & Heff & _).
      congruence. }
    destruct (gtb gain mx) eqn:Hgt.
    + apply IH in H. destruct H as (new & -> & Hmap & Hruns & Hmax & Hopt).
      assert (Habove : above gain mx').
      { destruct Hopt as [[-> _] | [Hlt _]]; [left; reflexivity | right; exact Hlt]. }
      exists (entry :: new). rewrite <- app_assoc. cbn [app map].
      split; [reflexivity | split; [now rewrite Hmap|]].
      split; [now constructor|]. split.
      * constructor; [|exact Hmax].
        cbn [entry efficiency_gain].
        apply (above_not_exceeded gain mx' gain Habove), ltb_irrefl.
      * right. destruct Hopt as [[-> ->] | (Hlt & e & Hin & He)].
        -- split; [exact Hgt|].
           exists entry. split; [left; reflexivity | split; reflexivity].
        -- split; [eapply ltb_trans; [exact Hgt | exact Hlt]|].
           exists e. split; [right; exact Hin | exact He].
    + apply IH in H. destruct H as (new & -> & Hmap & Hruns & Hmax & Hopt).
      assert (Habove : above mx mx').
      { destruct Hopt as [[-> _] | [Hlt _]]; [left; reflexivity | right; exact Hlt]. }
      exists (entry :: new). rewrite <- app_assoc. cbn [app map].
      split; [reflexivity | split; [now rewrite Hmap|]].
      split; [now constructor|]. split.
      * constructor; [|exact Hmax].
        cbn [entry efficiency_gain].
        apply (above_not_exceeded mx mx' gain Habove). exact Hgt.
      * destruct Hopt as [Hsame | (Hlt & e & Hin & He)]; [left; exact Hsame|].
        right. split; [exact Hlt|].
        exists e. split; [right; exact Hin | exact He].
Qed.

Lemma alpha_values_from_length (alpha_min alpha_max : float) (alpha_steps : Z)
      (n : nat) :
  forall (i : Z) (l : list float),
    alpha_values_from alpha_min alpha_max alpha_steps n i = Ok l -> length l = n.
Proof.
  induction n as [|n IH]; intros i l H.
  - injection H as <-. reflexivity.
  - cbn [alpha_values_from] in H.
    destruct (of_int i); [|discriminate].
    destruct (of_int (alpha_steps - 1)); [|discriminate]. cbn [bind] in H.
    destruct (truediv _ _); [|discriminate]. cbn [bind] in H.
    destruct (alpha_values_from alpha_min alpha_max alpha_steps n (i + 1)) eqn:E;
      [|discriminate].
    cbn [bind] in H. injection H as <-. cbn [length]. f_equal. eapply IH, E.
Qed.

(** What a sweep that returns has done, in one statement for the
    properties below. *)
Lemma parameter_sweep_analysis_inv
      (alpha_min alpha_max : float) (alpha_steps : Z)
      (gamma_attack gamma_defense : float) (rounds : Z) (g g0 : rng_state)
      (rep : sweep_report) (g' : rng_state) :
  parameter_sweep_analysis alpha_min alpha_max alpha_steps gamma_attack gamma_defense
                           rounds g = Returned (rep, g') ->
  exists first : sweep_entry,
    hd_error (sweep_results rep) = Some first /\
    length (sweep_results rep) = Z.to_nat alpha_steps /\
    Forall (entry_of_runs gamma_attack gamma_defense rounds g0) (sweep_results rep) /\
    Forall (fun e => ltb (max_efficiency_gain rep) (efficiency_gain e) = false)
           (sweep_results rep) /\
    ((max_efficiency_gain rep = zero /\ optimal_alpha rep = sweep_alpha first) \/
     (ltb zero (max_efficiency_gain rep) = true /\
      exists e, In e (sweep_results rep) /\ sweep_alpha e = optimal_alpha rep /\
                efficiency_gain e = max_efficiency_gain rep)).
Proof.
  unfold parameter_sweep_analysis.
  destruct (alpha_values_from alpha_min alpha_max alpha_steps (Z.to_nat alpha_steps) 0)
    as [alpha_values|] eqn:Hvalues; [|discriminate].
  cbn [lift bind_outcome].
  destruct alpha_values as [|first rest]; [discriminate|].
  destruct (sweep_loop gamma_attack gamma_defense rounds (first :: rest) [] zero first g)
    as [[[[results mx] opt] g1]|] eqn:Hloop; [|discriminate].
  cbn [lift bind_outcome]. intro H. injection H as <- <-.
  cbn [sweep_results max_efficiency_gain optimal_alpha].
  apply (sweep_loop_inv _ _ _ g0) in Hloop.
  destruct Hloop as (new & -> & Hmap & Hruns & Hmax & Hopt).
  cbn [app]. destruct new as [|e new]; [discriminate|].
  cbn [map] in Hmap. injection Hmap as Hfirst Hrest.
  exists e. split; [reflexivity|]. split.
  { apply alpha_values_from_length in Hvalues.
    rewrite <- Hvalues. cbn [length]. f_equal.
    rewrite <- Hrest. now rewrite length_map. }
  split; [exact Hruns | split; [exact Hmax|]].
  destruct Hopt as [[-> ->] | Hex]; [left; split; [reflexivity | now symmetry]|].
  right. exact Hex.
Qed.

(** A sweep of fewer than two steps does not return. *)
Lemma parameter_sweep_analysis_needs_two_steps
      (alpha_min alpha_max : float) (alpha_steps : Z)
      (gamma_attack gamma_defense : float) (rounds : Z) (g : rng_state)
      (r : sweep_report * rng_state) :
  parameter_sweep_analysis alpha_min alpha_max alpha_steps gamma_attack gamma_defense
                           rounds g = Returned r ->
  2 <= alpha_steps.
Proof.
  intro H.
  destruct (Z_le_gt_dec alpha_steps 0) as [Hle | Hgt].
  { unfold parameter_sweep_analysis in H.
    replace (Z.to_nat alpha_steps) with 0%nat in H by lia. discriminate H. }
  destruct (Z.eq_dec alpha_steps 1) as [-> | Hne]; [discriminate H | lia].
Qed.

(** X12. The two degenerate numbers of steps: with [alpha_steps = 1] the
    sweep raises [ZeroDivisionError] (the step is divided by
    [alpha_steps - 1]), and with [alpha_steps <= 0] it raises [IndexError]
    (the list of shares is empty and its first element is read), whatever
    the other arguments are. *)
Theorem parameter_sweep_analysis_degenerate_steps
        (alpha_min alpha_max : float) (alpha_steps : Z)
        (gamma_attack gamma_defense : float) (rounds : Z) (g : rng_state) :
  (alpha_steps = 1 ->
   parameter_sweep_analysis alpha_min alpha_max alpha_steps gamma_attack gamma_defense
                            rounds g = Raised (Arithmetic ZeroDivisionError)) /\
  (alpha_steps <= 0 ->
   parameter_sweep_analysis alpha_min alpha_max alpha_steps gamma_attack gamma_defense
                            rounds g = Raised IndexError).
Proof.
  split.
  - intros ->. reflexivity.
  - intro H. unfold parameter_sweep_analysis.
    replace (Z.to_nat alpha_steps) with 0%nat by lia. reflexivity.
Qed.

(** X13. The maximum that a sweep reports is exceeded by the efficiency gain
    of no entry.  It is the gain of the entry at the reported optimal share
    and is above zero, unless no gain is above zero: then it is zero and the
    optimal share is the first share of the sweep. *)
Theorem parameter_sweep_analysis_reports_maximum
        (alpha_min alpha_max : float) (alpha_steps : Z)
        (gamma_attack gamma_defense : float) (rounds : Z) (g : rng_state)
        (rep : sweep_report) (g' : rng_state) :
  parameter_sweep_analysis alpha_min alpha_max alpha_steps gamma_attack gamma_defense
                           rounds g = Returned (rep, g') ->
  Forall (fun e => gtb (efficiency_gain e) (max_efficiency_gain rep) = false)
         (sweep_results rep) /\
  ((gtb (max_efficiency_gain rep) zero = true /\
    exists e, In e (sweep_results rep) /\ sweep_alpha e = optimal_alpha rep /\
              efficiency_gain e = max_efficiency_gain rep) \/
   (max_efficiency_gain rep = zero /\
    exists first, hd_error (sweep_results rep) = Some first /\
                  optimal_alpha rep = sweep_alpha first)).
Proof.
  intro H. apply (parameter_sweep_analysis_inv _ _ _ _ _ _ g g) in H.
  destruct H as (first & Hhd & _ & _ & Hmax & Hopt).
  split; [exact Hmax|].
  destruct Hopt as [[Hzero Hfirst] | Hex].
  - right. split; [exact Hzero|]. exists first. split; assumption.
  - left. exact Hex.
Qed.

(** X14. A sweep is reproducible and has one entry for each step: the entry
    of a share holds the dicts of the run at [gamma_attack] seeded with
    [int(alpha * 1000)] and of the run at [gamma_defense] seeded with the
    next integer, whatever the state of the generator is, and its efficiency
    gain is the efficiency advantage of the first. *)
Theorem parameter_sweep_analysis_entries
        (alpha_min alpha_max : float) (alpha_steps : Z)
        (gamma_attack gamma_defense : float) (rounds : Z) (g g0 : rng_state)
        (rep : sweep_report) (g' : rng_state) :
  parameter_sweep_analysis alpha_min alpha_max alpha_steps gamma_attack gamma_defense
                           rounds g = Returned (rep, g') ->
  length (sweep_results rep) = Z.to_nat alpha_steps /\
  2 <= alpha_steps /\
  Forall (fun e =>
            exists s : Z,
              to_int (mul (sweep_alpha e) f1000) = Ok s /\
              SimulationResult.to_dict
                (fst (simulate_selfish_mining (sweep_alpha e) gamma_attack rounds
                                              (Some s) g0))
              = Ok (sweep_no_defense e) /\
              SimulationResult.to_dict
                (fst (simulate_selfish_mining (sweep_alpha e) gamma_defense rounds
                                              (Some (s + 1)) g0))
              = Ok (sweep_with_defense e) /\
              efficiency_gain e
              = SimulationResult.d_efficiency_advantage (sweep_no_defense e))
         (sweep_results rep).
Proof.
  intro H.
  apply (parameter_sweep_analysis_inv _ _ _ _ _ _ g g0) in H as Hinv.
  destruct Hinv as (first & _ & Hlen & Hruns & _).
  split; [exact Hlen | split; [|exact Hruns]].
  eapply parameter_sweep_analysis_needs_two_steps, H.
Qed.

End Sweep.

Lemma parameter_sweep_analysis_reports_maximum_witness :
  exists (rep : sweep_report) (g' : rng_state),
    parameter_sweep_analysis (G := lcg) (dec 5 100) f0_5 3 f0_9 f0_5 4 0
    = Returned (rep, g') /\
    Forall (fun e => gtb (efficiency_gain e) (max_efficiency_gain rep) = false)
           (sweep_results rep).
Proof.
  destruct (parameter_sweep_analysis (G := lcg) (dec 5 100) f0_5 3 f0_9 f0_5 4 0)
    as [[rep g'] | e] eqn:E.
  - exists rep, g'. split; [reflexivity|].
    exact (proj1 (parameter_sweep_analysis_reports_maximum
                    (G := lcg) (dec 5 100) f0_5 3 f0_9 f0_5 4 0 rep g' E)).
  - vm_compute in E. discriminate E.
Defined.

Lemma parameter_sweep_analysis_entries_witness :
  exists (rep : sweep_report) (g' : rng_state),
    parameter_sweep_analysis (G := lcg) (dec 5 100) f0_5 3 f0_9 f0_5 4 0
    = Returned (rep, g') /\
    length (sweep_results rep) = Z.to_nat 3.
Proof.
  destruct (parameter_sweep_analysis (G := lcg) (dec 5 100) f0_5 3 f0_9 f0_5 4 0)
    as [[rep g'] | e] eqn:E.
  - exists rep, g'. split; [reflexivity|].
    exact (proj1 (parameter_sweep_analysis_entries
                    (G := lcg) (dec 5 100) f0_5 3 f0_9 f0_5 4 0 0 rep g' E)).
  - vm_compute in E. discriminate E.
Defined.

(** ** The comparison of the defences *)

Section Comparison.

Context {G : RandomGen}.

Lemma strategies_loop_step (alpha : float) (rounds : Z) (g0 : rng_state)
      (name : strategy_name) (gamma : float) (seed : Z)
      (rest : list (strategy_name * float)) (done : list strategy_result)
      (g : rng_state) :
  rounds < 2 ^ 1000 ->
  to_int (mul gamma f10000) = Ok seed ->
  exists r : strategy_result,
    strategy_of_run alpha rounds g0 name gamma seed r /\
    strategies_loop alpha rounds ((name, gamma) :: rest) done g
    = strategies_loop alpha rounds rest (done ++ [r])
                      (snd (simulate_selfish_mining alpha gamma rounds
                                                    (Some (seed + 1)) g0)).
Proof.
  intros Hr Hseed. cbn [strategies_loop]. rewrite Hseed. cbn [bind].
  rewrite (simulate_selfish_with_defense_seeded_runs _ _ _ _ _ g g0).
  destruct (simulate_selfish_mining_to_dict alpha gamma rounds (Some (seed + 1)) g0 Hr)
    as (d & Hd).
  rewrite Hd. cbn [bind].
  destruct (to_dict_fields _ _ Hd) as (_ & _ & _ & _ & Heff & _).
  rewrite Heff. cbn [bind].
  eexists. split; [|reflexivity].
  repeat split. exact Hd.
Qed.

(** X15. [defense_mechanism_comparison] returns for every share and every
    number of rounds below [2 ^ 1000], and what it returns does not depend
    on the state of the generator: the baseline is the dict of the run at
    [gamma = 0.9] seeded with 2025, and the five strategies are the dicts of
    the runs at their [gamma] seeded with 5001, 5001, 4001, 3001 and 2001.
    The first two strategies have the same [gamma] and the same seed, so
    their results are the same. *)
Theorem defense_mechanism_comparison_runs
        (alpha : float) (rounds : Z) (g g0 : rng_state) :
  rounds < 2 ^ 1000 ->
  exists (baseline : SimulationResult.dict) (r1 r2 r3 r4 r5 : strategy_result)
         (g' : rng_state),
    defense_mechanism_comparison alpha rounds g
    = Ok (mk_comparison baseline [r1; r2; r3; r4; r5], g') /\
    SimulationResult.to_dict
      (fst (simulate_selfish_mining alpha f0_9 rounds (Some 2025) g0)) = Ok baseline /\
    strategy_of_run alpha rounds g0 RandomForkChoice f0_5 5000 r1 /\
    strategy_of_run alpha rounds g0 LongestChainRule f0_5 5000 r2 /\
    strategy_of_run alpha rounds g0 StrongerRelayNetwork f0_4 4000 r3 /\
    strategy_of_run alpha rounds g0 DynamicDifficulty f0_3 3000 r4 /\
    strategy_of_run alpha rounds g0 CrossChainValidation f0_2 2000 r5 /\
    strategy_dict r1 = strategy_dict r2 /\
    improvement_percent r1 = improvement_percent r2.
Proof.
  intro Hr. unfold defense_mechanism_comparison.
  rewrite (simulate_selfish_with_defense_seeded_runs _ _ _ _ _ g g0).
  destruct (simulate_selfish_mining_to_dict alpha f0_9 rounds (Some 2025) g0 Hr)
    as (baseline & Hbase).
  rewrite Hbase. cbn [bind]. unfold defense_strategies.
  destruct (strategies_loop_step alpha rounds g0 RandomForkChoice f0_5 5000
              [(LongestChainRule, f0_5); (StrongerRelayNetwork, f0_4);
               (DynamicDifficulty, f0_3); (CrossChainValidation, f0_2)] []
              (snd (simulate_selfish_mining alpha f0_5 rounds (Some (2025 + 1)) g0))
              Hr eq_refl) as (r1 & H1 & ->).
  destruct (strategies_loop_step alpha rounds g0 LongestChainRule f0_5 5000
              [(StrongerRelayNetwork, f0_4);
               (DynamicDifficulty, f0_3); (CrossChainValidation, f0_2)] ([] ++ [r1])
              (snd (simulate_selfish_mining alpha f0_5 rounds (Some (5000 + 1)) g0))
              Hr eq_refl) as (r2 & H2 & ->).
  destruct (strategies_loop_step alpha rounds g0 StrongerRelayNetwork f0_4 4000
              [(DynamicDifficulty, f0_3); (CrossChainValidation, f0_2)]
              (([] ++ [r1]) ++ [r2])
              (snd (simulate_selfish_mining alpha f0_5 rounds (Some (5000 + 1)) g0))
              Hr eq_refl) as (r3 & H3 & ->).
  destruct (strategies_loop_step alpha rounds g0 DynamicDifficulty f0_3 3000
              [(CrossChainValidation, f0_2)] ((([] ++ [r1]) ++ [r2]) ++ [r3])
              (snd (simulate_selfish_mining alpha f0_4 rounds (Some (4000 + 1)) g0))
              Hr eq_refl) as (r4 & H4 & ->).
  destruct (strategies_loop_step alpha rounds g0 CrossChainValidation f0_2 2000
              [] (((([] ++ [r1]) ++ [r2]) ++ [r3]) ++ [r4])
              (snd (simulate_selfish_mining alpha f0_3 rounds (Some (3000 + 1)) g0))
              Hr eq_refl) as (r5 & H5 & ->).
  cbn [strategies_loop bind app].
  exists baseline, r1, r2, r3, r4, r5. eexists.
  split; [reflexivity|].
  split; [reflexivity|].
  repeat (split; [assumption|]).
  destruct H1 as (_ & _ & Hd1 & Hi1), H2 as (_ & _ & Hd2 & Hi2).
  assert (Hd : strategy_dict r1 = strategy_dict r2) by congruence.
  split; [exact Hd|]. rewrite Hi1, Hi2, Hd. reflexivity.
Qed.

End Comparison.

Lemma defense_mechanism_comparison_runs_witness :
  exists (rep : defense_comparison) (g' : rng_state),
    defense_mechanism_comparison (G := lcg) f0_5 5 0 = Ok (rep, g') /\
    length (strategies rep) = 5%nat.
Proof.
  destruct (defense_mechanism_comparison_runs (G := lcg) f0_5 5 0 0 eq_refl)
    as (baseline & r1 & r2 & r3 & r4 & r5 & g' & Hrun & _).
  exists (mk_comparison baseline [r1; r2; r3; r4; r5]), g'.
  split; [exact Hrun | reflexivity].
Defined.

(** ** Several chains, one pool *)

Section Chains.

Context {G : RandomGen}.

Lemma chain_loop_returns (alpha gamma : float) (rounds_per_chain : Z)
      (seed : option Z) (n : nat) :
  rounds_per_chain < 2 ^ 1000 ->
  forall (i : Z) (results : list SimulationResult.dict) (total : float)
         (g : rng_state),
  exists (new : list SimulationResult.dict) (total' : float) (g' : rng_state),
    chain_loop alpha gamma rounds_per_chain seed n i results total g
    = Ok (results ++ new, total', g') /\
    length new = n /\
    forall (s : Z) (g0 : rng_state) (j : nat) (d : SimulationResult.dict),
      seed = Some s -> nth_error new j = Some d ->
      SimulationResult.to_dict
        (fst (simulate_selfish_mining alpha gamma rounds_per_chain
                                      (Some (s + (i + Z.of_nat j) * 1000)) g0))
      = Ok d.
Proof.
  intro Hr. induction n as [|n IH]; intros i results total g.
  - exists [], total, g. cbn [chain_loop]. rewrite app_nil_r.
    split; [reflexivity | split; [reflexivity|]].
    intros s g0 [|j] d _ H; discriminate H.
  - cbn [chain_loop].
    destruct (simulate_selfish_mining_to_dict alpha gamma rounds_per_chain
                                              (chain_seed seed i) g Hr) as (d & Hd).
    destruct (simulate_selfish_mining alpha gamma rounds_per_chain (chain_seed seed i) g)
      as [result g1] eqn:Erun.
    cbn [fst] in Hd. rewrite Hd. cbn [bind].
    destruct (to_dict_fields _ _ Hd) as (_ & _ & Hrev & _).
    rewrite Hrev. cbn [bind].
    destruct (IH (i + 1) (results ++ [d])
                 (add total (SimulationResult.d_attacker_revenue_btc d)) g1)
      as (new & total' & g' & Hloop & Hlen & Hnth).
    exists (d :: new), total', g'.
    rewrite Hloop, <- app_assoc. cbn [app length].
    split; [reflexivity | split; [now rewrite Hlen|]].
    intros s g0 [|j] d' Hs Hj.
    + cbn [nth_error] in Hj. injection Hj as <-. subst seed.
      cbn [chain_seed] in Erun.
      replace (s + (i + Z.of_nat 0) * 1000) with (s + i * 1000) by lia.
      rewrite <- Hd.
      change (fst (simulate_selfish_mining alpha gamma rounds_per_chain
                                           (Some (s + i * 1000)) g0))
        with (fst (simulate_selfish_mining alpha gamma rounds_per_chain
                                           (Some (s + i * 1000)) g)).
      now rewrite Erun.
    + cbn [nth_error] in Hj.
      replace (i + Z.of_nat (S j)) with (i + 1 + Z.of_nat j) by lia.
      eapply Hnth; eassumption.
Qed.

(** X16. [cross_chain_attack] returns for every number of chains from 1 to
    [2 ^ 1000] and every number of rounds below [2 ^ 1000], with one dict
    for each chain; with a seed [s], the dict of chain [j] is that of the
    run seeded with [s + j * 1000], whatever the state of the generator
    is. *)
Theorem cross_chain_attack_returns
        (alpha : float) (num_chains : Z) (gamma : float) (rounds_per_chain : Z)
        (seed : option Z) (g : rng_state) :
  1 <= num_chains <= 2 ^ 1000 ->
  rounds_per_chain < 2 ^ 1000 ->
  exists (rep : cross_chain_report) (g' : rng_state),
    cross_chain_attack alpha num_chains gamma rounds_per_chain seed g = Ok (rep, g') /\
    length (results_per_chain rep) = Z.to_nat num_chains /\
    forall (s : Z) (g0 : rng_state) (j : nat) (d : SimulationResult.dict),
      seed = Some s -> nth_error (results_per_chain rep) j = Some d ->
      SimulationResult.to_dict
        (fst (simulate_selfish_mining alpha gamma rounds_per_chain
                                      (Some (s + Z.of_nat j * 1000)) g0))
      = Ok d.
Proof.
  intros Hn Hr. unfold cross_chain_attack.
  destruct (of_int_small (num_chains - 1) ltac:(lia)) as (k & -> & _). cbn [bind].
  destruct (chain_loop_returns alpha gamma rounds_per_chain seed (Z.to_nat num_chains)
                               Hr 0 [] zero g)
    as (new & total & g1 & -> & Hlen & Hnth).
  cbn [bind app].
  destruct (simulate_selfish_mining_to_dict alpha gamma rounds_per_chain seed g1 Hr)
    as (d & Hd).
  destruct (simulate_selfish_mining alpha gamma rounds_per_chain seed g1)
    as [single_chain_result g2].
  cbn [fst] in Hd.
  destruct (to_dict_fields _ _ Hd) as (_ & _ & Hrev & _).
  rewrite Hrev. cbn [bind].
  set (single := SimulationResult.d_attacker_revenue_btc d).
  destruct (gtb single zero) eqn:E; cbn [bind].
  - rewrite truediv_nonzero by (now apply gtb_zero_not_zero). cbn [bind].
    eexists; eexists. split; [reflexivity|].
    cbn [results_per_chain]. split; [exact Hlen|].
    intros s g0 j d' Hs Hj. apply (Hnth s g0 j d' Hs Hj).
  - eexists; eexists. split; [reflexivity|].
    cbn [results_per_chain]. split; [exact Hlen|].
    intros s g0 j d' Hs Hj. apply (Hnth s g0 j d' Hs Hj).
Qed.

(** X17. A single pool has no coordination overhead: with [num_pools = 1]
    and a positive share, [pool_cooperative_mining] is
    [simulate_selfish_mining]; with a share that is not positive (zero,
    negative or a NaN) the run is made at the share 0.0 and reported
    under the given share. *)
Theorem pool_cooperative_mining_single_pool
        (alpha gamma : float) (rounds : Z) (seed : option Z) (g : rng_state) :
  pool_cooperative_mining alpha 1 gamma rounds seed g
  = if gtb alpha zero
    then Ok (simulate_selfish_mining alpha gamma rounds seed g)
    else Ok (SimulationResult.set_alpha
               alpha (fst (simulate_selfish_mining zero gamma rounds seed g)),
             snd (simulate_selfish_mining zero gamma rounds seed g)).
Proof.
  unfold pool_cooperative_mining, effective_alpha.
  change (of_int (1 - 1)) with (Ok zero). cbn [bind].
  change (mul f0_02 zero) with zero.
  assert (H : max0 (sub alpha zero) = if gtb alpha zero then alpha else zero).
  { destruct alpha as [s|s| |s m e]; try destruct s; reflexivity. }
  rewrite H. destruct (gtb alpha zero); reflexivity.
Qed.

End Chains.

Lemma cross_chain_attack_returns_witness :
  exists (rep : cross_chain_report) (g' : rng_state),
    cross_chain_attack (G := lcg) f0_5 3 f0_9 4 (Some 1) 0 = Ok (rep, g') /\
    length (results_per_chain rep) = Z.to_nat 3.
Proof.
  destruct (cross_chain_attack_returns (G := lcg) f0_5 3 f0_9 4 (Some 1) 0
              ltac:(split; [discriminate | discriminate]) eq_refl)
    as (rep & g' & Hrun & Hlen & _).
  exists rep, g'. split; assumption.
Defined.

(** ** The blocks with extracted value *)

(** Rounding to nearest does not pass an integer above the quotient. *)
Lemma rne_le (N D K : Z) : 0 < D -> N <= K * D -> rne N D <= K.
Proof.
  intros HD HK.
  pose proof (Z.div_mod N D ltac:(lia)) as Hdm.
  pose proof (Z.mod_pos_bound N D HD) as Hr.
  assert (Hq : N / D <= K).
  { apply Z.div_le_upper_bound; [assumption|]. rewrite Z.mul_comm. exact HK. }
  destruct (Z.eq_dec (N / D) K) as [E | E].
  - assert (Hr0 : N mod D = 0) by (rewrite E in Hdm; lia).
    destruct (rne_cases N D HD) as [[_ ->] | [[H _] | [H _]]]; lia.
  - destruct (rne_cases N D HD) as [[_ ->] | [[_ ->] | [_ ->]]];
      [| |destruct (Z.even (N / D))]; lia.
Qed.

Lemma rne_nonneg (N D : Z) : 0 <= N -> 0 < D -> 0 <= rne N D.
Proof.
  intros HN HD. pose proof (Z.div_pos N D HN HD).
  destruct (rne_cases N D HD) as [[_ ->] | [[_ ->] | [_ ->]]];
    [| |destruct (Z.even (N / D))]; lia.
Qed.

(** The float of a positive integer below [2 ^ 53] is exact. *)
Lemma Z2SF_exact (n : positive) :
  Zpos n < 2 ^ 53 ->
  exists (ma : positive) (ea : Z),
    Z2SF (Zpos n) = S754_finite false ma ea /\
    -52 <= ea <= 0 /\ Zpos ma = Zpos n * 2 ^ (- ea) /\
    2 ^ 52 <= Zpos ma < 2 ^ 53.
Proof.
  intro Hn. unfold Z2SF. cbn [binary_normalize]. unfold binary_round.
  pose proof (shl_align_eq n 0 (fexp prec emax (Zpos (digits2_pos n) + 0)))
    as [He Hm].
  destruct (shl_align n 0 _) as [mz ez]. cbn [fst snd] in He, Hm.
  assert (Hd : Zdigits2 (Zpos n) <= 53) by (apply Zdigits2_le; lia).
  pose proof (Zdigits2_pos (Zpos n) ltac:(lia)) as Hd0.
  pose proof (Zdigits2_bounds (Zpos n) ltac:(lia)) as [Hlo Hhi].
  simpl Zdigits2 in Hd, Hd0, Hlo, Hhi. rewrite fexp_eq in He, Hm.
  set (d := Zpos (digits2_pos n)) in *.
  assert (Hez : ez = d - 53) by lia.
  replace (0 - Z.min 0 (Z.max (d + 0 - 53) (-1074))) with (53 - d) in Hm by lia.
  assert (HP : 0 < 2 ^ (53 - d)) by (apply Z.pow_pos_nonneg; lia).
  assert (Hmz : 2 ^ 52 <= Zpos mz < 2 ^ 53).
  { rewrite Hm.
    replace (2 ^ 52) with (2 ^ (d - 1) * 2 ^ (53 - d))
      by (rewrite <- Z.pow_add_r by lia; f_equal; lia).
    replace (2 ^ 53) with (2 ^ d * 2 ^ (53 - d))
      by (rewrite <- Z.pow_add_r by lia; f_equal; lia).
    split; [apply Z.mul_le_mono_nonneg_r; lia | apply Z.mul_lt_mono_pos_r; lia]. }
  assert (Hdz : Zdigits2 (Zpos mz) = 53) by (apply Zdigits2_unique; lia).
  rewrite binary_round_aux_exact by lia.
  assert (Hn0 : to_fexp (Zpos mz) ez = 0) by (rewrite to_fexp_eq, Hdz; lia).
  rewrite Hn0, Z.pow_0_r.
  replace (rne (Zpos mz) 1) with (Zpos mz)
    by (symmetry; rewrite <- (Z.mul_1_r (Zpos mz)) at 1; apply rne_exact; lia).
  rewrite Z.add_0_r, Hn0, Z.pow_0_r, Z.div_1_r, Z.add_0_r.
  exists mz, ez. unfold finish.
  destruct (Z.leb_spec ez (emax - prec)) as [_ | H]; [|unfold emax, prec in H; lia].
  split; [reflexivity|]. split; [lia|]. split; [|exact Hmz].
  rewrite Hm. f_equal. f_equal. lia.
Qed.

(** A float of the format between zero and one. *)
Lemma unit_float_cases (p : float) :
  valid_binary prec emax p = true -> leb zero p = true -> leb p one = true ->
  is_zero p = true \/
  exists (mp : positive) (ep : Z),
    p = S754_finite false mp ep /\ ep <= -52 /\ Zpos mp <= 2 ^ (- ep).
Proof.
  intros Hv H0 H1. destruct p as [s|s| |s mp ep]; try discriminate.
  - left; reflexivity.
  - destruct s; discriminate.
  - destruct s; [discriminate|]. right. exists mp, ep. split; [reflexivity|].
    cbn [valid_binary] in Hv.
    unfold bounded, canonical_mantissa in Hv.
    apply andb_prop in Hv. destruct Hv as [Hc _].
    apply Z.eqb_eq in Hc. rewrite fexp_eq in Hc.
    pose proof (Zdigits2_bounds (Zpos mp) ltac:(lia)) as [_ Hhi].
    simpl Zdigits2 in Hhi.
    assert (Hmp : Zpos mp < 2 ^ 53).
    { eapply Z.lt_le_trans; [exact Hhi|]. apply Z.pow_le_mono_r; lia. }
    apply leb_rank in H1. destruct H1 as (_ & _ & H1).
    unfold one in H1; cbn [rank lex_compare] in H1.
    change (1 ?= 1) with Eq in H1. cbv iota in H1.
    destruct (Z.compare_spec ep (-52)) as [E | E | E];
      [| | exfalso; apply H1; reflexivity].
    + subst ep. split; [lia|]. change (2 ^ (- -52)) with 4503599627370496.
      destruct (Z.compare_spec (Zpos mp) 4503599627370496) as [C | C | C];
        [lia | lia | exfalso; apply H1; reflexivity].
    + split; [lia|].
      assert (2 ^ 53 <= 2 ^ (- ep)) by (apply Z.pow_le_mono_r; lia). lia.
Qed.

(** The truncated product of a count below [2 ^ 53] and a float between zero
    and one is a count that is not larger. *)
Lemma to_int_mul_unit (n : Z) (p : float) :
  0 <= n < 2 ^ 53 ->
  valid_binary prec emax p = true -> leb zero p = true -> leb p one = true ->
  exists k : Z, to_int (mul (Z2SF n) p) = Ok k /\ 0 <= k <= n.
Proof.
  intros Hn Hv H0 H1.
  destruct (unit_float_cases p Hv H0 H1) as [Hz | (mp & ep & -> & Hep & Hmp)].
  { destruct p as [s| | |]; try discriminate.
    exists 0. split; [|lia].
    destruct n as [|q|q]; try lia; [reflexivity|].
    destruct (Z2SF_exact q ltac:(lia)) as (ma & ea & -> & _). reflexivity. }
  destruct n as [|q|q]; try lia.
  { exists 0. split; [reflexivity | lia]. }
  destruct (Z2SF_exact q ltac:(lia)) as (ma & ea & -> & Hea & Hma & Hrange).
  unfold mul. cbn [SFmul xorb]. rewrite Pos2Z.inj_mul.
  set (M := Zpos ma * Zpos mp). set (e := ea + ep).
  assert (HM : 0 < M) by (unfold M; lia).
  rewrite binary_round_aux_exact by lia.
  assert (HPp : 0 < 2 ^ (- ep)) by (apply Z.pow_pos_nonneg; lia).
  assert (HMle : M <= Zpos ma * 2 ^ (- ep))
    by (unfold M; apply Z.mul_le_mono_nonneg_l; lia).
  set (d := Zdigits2 M).
  assert (Hdlo : 53 <= d).
  { apply Zdigits2_ge; [|exact HM]. change (53 - 1) with 52.
    unfold M. replace (2 ^ 52) with (2 ^ 52 * 1) by lia.
    apply Z.mul_le_mono_nonneg; lia. }
  assert (Hdhi : d <= 53 - ep).
  { apply Zdigits2_le; [lia|]. split; [lia|].
    replace (53 - ep) with (53 + - ep) by lia.
    rewrite Z.pow_add_r by lia.
    eapply Z.le_lt_trans; [exact HMle|].
    apply Z.mul_lt_mono_pos_r; lia. }
  set (nn := to_fexp M e).
  assert (Hnn : 0 <= nn <= - ep /\ e + nn <= ea /\ -1074 <= e + nn).
  { unfold nn. rewrite to_fexp_eq. fold d. unfold e. lia. }
  destruct Hnn as (Hnn & HE1 & HE1lo).
  assert (HPn : 0 < 2 ^ nn) by (apply Z.pow_pos_nonneg; lia).
  set (K := Zpos ma * 2 ^ (- ep - nn)).
  assert (HPk : 0 < 2 ^ (- ep - nn)) by (apply Z.pow_pos_nonneg; lia).
  assert (HK : M <= K * 2 ^ nn).
  { unfold K. rewrite <- Z.mul_assoc, <- Z.pow_add_r by lia.
    replace (- ep - nn + nn) with (- ep) by lia. exact HMle. }
  set (m1 := rne M (2 ^ nn)).
  assert (Hm1 : 0 <= m1 <= K).
  { split; [apply rne_nonneg; lia | apply rne_le; assumption]. }
  assert (HKhi : K < 2 ^ (53 - ep - nn)).
  { unfold K. replace (53 - ep - nn) with (53 + (- ep - nn)) by lia.
    rewrite Z.pow_add_r by lia. apply Z.mul_lt_mono_pos_r; lia. }
  set (n' := to_fexp m1 (e + nn)).
  assert (Hn' : 0 <= n' /\ e + nn + n' <= 0).
  { unfold n'. rewrite to_fexp_eq.
    assert (Zdigits2 m1 <= 53 - ep - nn) by (apply Zdigits2_le; lia).
    unfold e in *. lia. }
  destruct Hn' as (Hn'0 & He2).
  assert (HPn' : 0 < 2 ^ n') by (apply Z.pow_pos_nonneg; lia).
  set (m2 := m1 / 2 ^ n').
  assert (Hm2 : 0 <= m2) by (apply Z.div_pos; lia).
  assert (Hm2le : m2 * 2 ^ n' <= m1).
  { unfold m2. rewrite Z.mul_comm. apply Z.mul_div_le. exact HPn'. }
  set (e2 := e + nn + n') in *.
  (* m2 * 2 ^ (- e2) is at most the count *)
  assert (HPe : 0 < 2 ^ (- e2)) by (apply Z.pow_pos_nonneg; lia).
  assert (Hbound : m2 <= Zpos q * 2 ^ (- e2)).
  { apply (Z.mul_le_mono_pos_r _ _ (2 ^ n')); [exact HPn'|].
    eapply Z.le_trans; [exact Hm2le|]. eapply Z.le_trans; [apply Hm1|].
    unfold K. rewrite Hma, <- !Z.mul_assoc, <- !Z.pow_add_r by lia.
    replace (- ea + (- ep - nn)) with (- e2 + n') by (unfold e2, e; lia). lia. }
  unfold finish. destruct m2 as [|m2p|m2p] eqn:Em2; try lia.
  { exists 0. split; [reflexivity | lia]. }
  destruct (Z.leb_spec e2 (emax - prec)) as [_ | H]; [|unfold emax, prec in H; lia].
  cbn [to_int].
  destruct e2 as [|pe|pe] eqn:Ee2; try lia.
  - exists (Zpos m2p). split; [reflexivity|].
    change (2 ^ (- 0)) with 1 in Hbound. lia.
  - exists (Z.shiftr (Zpos m2p) (Zpos pe)). split; [reflexivity|].
    rewrite Z.shiftr_div_pow2 by lia.
    change (- Zneg pe) with (Zpos pe) in Hbound, HPe.
    split; [apply Z.div_pos; lia|].
    apply Z.div_le_upper_bound; [exact HPe|]. lia.
Qed.

Section Mev.

Context {G : RandomGen}.

(** X18. With an extraction probability between 0.0 and 1.0 and fewer than
    [2 ^ 53] rounds, [mev_transaction_ordering] returns, and the number of
    blocks with extracted value that it reports is between zero and the
    number of attacker blocks: the float product and its truncation never
    round above the count. *)
Theorem mev_transaction_ordering_extractable_blocks
        (alpha p avg_mev_per_block gamma : float) (rounds : Z)
        (seed : option Z) (g : rng_state) :
  rounds < 2 ^ 53 ->
  valid_binary prec emax p = true -> leb zero p = true -> leb p one = true ->
  exists (rep : mev_report) (g' : rng_state),
    mev_transaction_ordering alpha p avg_mev_per_block gamma rounds seed g
    = Ok (rep, g') /\
    mev_attacker_blocks rep
    = SimulationResult.attacker_blocks
        (fst (simulate_selfish_mining alpha gamma rounds seed g)) /\
    0 <= mev_extractable_blocks rep <= mev_attacker_blocks rep.
Proof.
  intros Hr Hv H0 H1. unfold mev_transaction_ordering.
  assert (Hr' : rounds < 2 ^ 1000).
  { eapply Z.lt_trans; [exact Hr|]. apply Z.pow_lt_mono_r; lia. }
  pose proof (simulate_selfish_mining_counters alpha gamma rounds seed g) as Hc.
  cbv zeta in Hc. destruct Hc as (Ha & Hh & Hsum).
  destruct (simulate_selfish_mining_to_dict alpha gamma rounds seed g Hr') as (d & Hd).
  destruct (simulate_selfish_mining alpha gamma rounds seed g)
    as [attacker_result g1].
  cbn [fst] in *.
  set (n := SimulationResult.attacker_blocks attacker_result) in *.
  assert (Hn : 0 <= n < 2 ^ 53) by lia.
  destruct (to_int_mul_unit n p Hn Hv H0 H1) as (k & Hk & Hkn).
  assert (Hof : of_int n = Ok (Z2SF n)).
  { destruct n as [|q|q]; try lia; [reflexivity|].
    unfold of_int. destruct (Z2SF_exact q ltac:(lia)) as (ma & ea & -> & _).
    reflexivity. }
  rewrite Hof. cbn [bind]. rewrite Hk. cbn [bind].
  assert (Hk' : 0 <= k < 2 ^ 1000).
  { split; [lia|]. eapply Z.le_lt_trans; [apply Hkn|].
    eapply Z.lt_trans; [apply Hn|]. apply Z.pow_lt_mono_r; lia. }
  destruct (of_int_small k Hk') as (mb & -> & _). cbn [bind].
  destruct (to_dict_fields _ _ Hd) as (_ & _ & -> & -> & _). cbn [bind].
  rewrite revenue_advantage_ok. cbn [bind].
  rewrite truediv_nonzero.
  2:{ destruct (gtb alpha zero) eqn:E; [now apply gtb_zero_not_zero | reflexivity]. }
  cbn [bind]. eexists; eexists. split; [reflexivity|].
  cbn [mev_attacker_blocks mev_extractable_blocks]. split; [reflexivity | exact Hkn].
Qed.

End Mev.

Lemma mev_transaction_ordering_extractable_blocks_witness :
  exists (rep : mev_report) (g' : rng_state),
    mev_transaction_ordering (G := lcg) f0_5 (dec 3 10) (dec 25 10) f0_9 5 (Some 7) 0
    = Ok (rep, g') /\
    0 <= mev_extractable_blocks rep <= mev_attacker_blocks rep.
Proof.
  destruct (mev_transaction_ordering_extractable_blocks
              (G := lcg) f0_5 (dec 3 10) (dec 25 10) f0_9 5 (Some 7) 0
              eq_refl eq_refl eq_refl eq_refl) as (rep & g' & Hrun & _ & Hle).
  exists rep, g'. split; assumption.
Defined.
